(** * League optimization: a shallow embedding of [optimization.py]

    The Python module builds a binary quadratic program with gurobipy,
    hands it to the solver and decodes the solver's raw variable values
    into a group assignment and a travelled distance.

    Modelling conventions used throughout the development:
    - Python numbers (ints and floats alike) are exact rationals [Q];
      rounding and non-finite floats are outside the model.
    - Python exceptions are values of [exn]; a computation that may raise
      returns a [result].
    - The Gurobi solver and the geodesic distance of geopy are external:
      they are variables of the sections that use them.
    - The only side effect visible to a caller, the call [m.optimize()],
      is recorded in an explicit log of the models submitted.
    - A solution counts as feasible when its values are exactly 0 or 1 and
      satisfy the constraints exactly; the numerical tolerances of the
      solver are outside the model. *)

From Stdlib Require Import QArith ZArith List Bool Lia String.
From stdpp Require Import base gmap list.

Import ListNotations.

(** ** Exceptions and results *)

Inductive exn : Type :=
| KeyError
| IndexError
| TypeError
| AssertionError
| GurobiError.

Inductive result (A : Type) : Type :=
| Ok (a : A)
| Raise (e : exn).

Arguments Ok {A} a.
Arguments Raise {A} e.

Definition rbind {A B : Type} (r : result A) (f : A -> result B) : result B :=
  match r with
  | Ok a => f a
  | Raise e => Raise e
  end.

Notation "'do' x <- c ; k" := (rbind c (fun x => k))
  (at level 10, x name, c at level 100, k at level 200).

(** [for x in l: body], the loop state threaded through the iterations;
    an exception leaves the loop at once. *)
Fixpoint for_each {S A : Type} (l : list A) (body : A -> S -> result S) (s : S)
  : result S :=
  match l with
  | [] => Ok s
  | a :: l' => do s' <- body a s; for_each l' body s'
  end.

(** [range(n)] and [range(a, b)]. *)
Definition range (n : nat) : list nat := seq 0 n.
Definition range_from (a b : nat) : list nat := seq a (b - a).

(** ** Python values of the distance helpers *)

Module Py.

#[warnings="-register-all"]
Inductive value : Type :=
| VNone
| VNum (q : Q)
| VTuple (items : list value)
| VFunction (name : string).

(** [v[i]] for a non-negative index [i].  Function objects, numbers and
    [None] define no [__getitem__]: subscripting them is a [TypeError]. *)
Definition subscript (v : value) (i : nat) : result value :=
  match v with
  | VTuple items =>
      match items !! i with
      | Some x => Ok x
      | None => Raise IndexError
      end
  | VFunction _ | VNum _ | VNone => Raise TypeError
  end.

End Py.

(** ** Gurobi expressions, constraints and models *)

(** The variable created under the name [g_i_j]. *)
Record var : Type := g_ { v_team : nat; v_index : nat }.

Inductive expr : Type :=
| EConst (c : Q)
| EVar (v : var)
| EAdd (a b : expr)
| ESub (a b : expr)
| EMul (a b : expr).

Fixpoint eval (x : var -> Q) (e : expr) : Q :=
  match e with
  | EConst c => c
  | EVar v => x v
  | EAdd a b => (eval x a + eval x b)%Q
  | ESub a b => (eval x a - eval x b)%Q
  | EMul a b => (eval x a * eval x b)%Q
  end.

(** What a Python name such as [su] or [obj] holds: a plain number until a
    Gurobi variable or expression has been added to it. *)
Inductive pyobj : Type :=
| PNum (q : Q)
| PExpr (e : expr).

Definition to_expr (a : pyobj) : expr :=
  match a with
  | PNum q => EConst q
  | PExpr e => e
  end.

Definition peval (x : var -> Q) (a : pyobj) : Q := eval x (to_expr a).

(** Overloaded arithmetic: numbers stay numbers, anything involving an
    expression is an expression.  (The program only multiplies two
    variables, or an expression by a number.) *)
Definition padd (a b : pyobj) : pyobj :=
  match a, b with
  | PNum p, PNum q => PNum (p + q)%Q
  | _, _ => PExpr (EAdd (to_expr a) (to_expr b))
  end.

Definition psub (a b : pyobj) : pyobj :=
  match a, b with
  | PNum p, PNum q => PNum (p - q)%Q
  | _, _ => PExpr (ESub (to_expr a) (to_expr b))
  end.

Definition pmul (a b : pyobj) : pyobj :=
  match a, b with
  | PNum p, PNum q => PNum (p * q)%Q
  | _, _ => PExpr (EMul (to_expr a) (to_expr b))
  end.

Inductive relation_sense : Type := LessEqual | GreaterEqual | Equal.

Inductive constr_name : Type :=
| exactly_one_group (i : nat)
| min_league_size
| max_league_size.

Record constr : Type := mk_constr {
  c_lhs : expr;
  c_sense : relation_sense;
  c_rhs : Q;
  c_name : constr_name
}.

Inductive objective_sense : Type := MINIMIZE | MAXIMIZE.

Record model : Type := mk_model {
  m_vars : list var;              (* all of them added with vtype BINARY *)
  m_objective : pyobj;
  m_sense : objective_sense;
  m_constrs : list constr
}.

(** [gp.Model("model")] *)
Definition new_model : model :=
  {| m_vars := []; m_objective := PNum 0; m_sense := MINIMIZE; m_constrs := [] |}.

(** [m.addVar(vtype=GRB.BINARY, name=f'g_{i}_{j}')] *)
Definition addVar (m : model) (i j : nat) : var * model :=
  (g_ i j,
   {| m_vars := m_vars m ++ [g_ i j]; m_objective := m_objective m;
      m_sense := m_sense m; m_constrs := m_constrs m |}).

(** [m.setObjective(obj, sense)] *)
Definition setObjective (m : model) (obj : pyobj) (s : objective_sense) : model :=
  {| m_vars := m_vars m; m_objective := obj; m_sense := s;
     m_constrs := m_constrs m |}.

(** [m.addConstr(lhs <sense> rhs, name=...)].  When [lhs] is still a plain
    number, Python evaluates the comparison to a [bool] before [addConstr]
    is called; gurobipy accepts the [bool] and adds a constraint that every
    assignment satisfies ([True]) or none does ([False]).  It is recorded
    as the comparison of the two numbers, which [satisfies] evaluates to
    that truth value. *)
Definition addConstr (m : model) (lhs : pyobj) (s : relation_sense) (rhs : Q)
    (name : constr_name) : result model :=
  Ok {| m_vars := m_vars m; m_objective := m_objective m;
        m_sense := m_sense m;
        m_constrs := m_constrs m ++ [mk_constr (to_expr lhs) s rhs name] |}.

(** [g[i, k]] on the [tupledict] (a [dict] subclass). *)
Definition tget (g : gmap (nat * nat) var) (i k : nat) : result var :=
  match g !! (i, k) with
  | Some v => Ok v
  | None => Raise KeyError
  end.

(** [matrix[i][j]] for non-negative indices. *)
Definition mget (matrix : list (list Q)) (i j : nat) : result Q :=
  match matrix !! i with
  | None => Raise IndexError
  | Some row =>
      match row !! j with
      | None => Raise IndexError
      | Some c => Ok c
      end
  end.

(** ** Raw solutions *)

Record solution : Type := mk_solution {
  sol_X : var -> Q;       (* the attribute [X] of every variable *)
  sol_ObjVal : Q          (* the objective value the solver reports *)
}.

(** [v.X]: available only once the solver has produced a solution;
    otherwise gurobipy raises (unable to retrieve attribute X). *)
Definition var_X (sol : option solution) (v : var) : result Q :=
  match sol with
  | Some s => Ok (sol_X s v)
  | None => Raise GurobiError
  end.

(** [q > 0.5] *)
Definition gt_half (q : Q) : bool := negb (Qle_bool q (1 # 2)%Q).

(** ** [optimize_ab], lines 98-138: building the model *)

(** Lines 104-106.  Note the inner bound: [range(num_teams)]. *)
Definition add_vars (num_teams : nat) (m : model)
  : gmap (nat * nat) var * model :=
  fold_left (fun st i =>
    fold_left (fun (st : gmap (nat * nat) var * model) j =>
      let (v, m') := addVar (snd st) i j in
      (<[(i, j) := v]> (fst st), m'))
      (range num_teams) st)
    (range num_teams) (∅, m).

(** Lines 114-116. *)
Definition co_membership (g : gmap (nat * nat) var) (num_groups i j : nat)
  : result pyobj :=
  for_each (range num_groups) (fun k su =>
    do gi <- tget g i k;
    do gj <- tget g j k;
    Ok (padd su (PExpr (EMul (EVar gi) (EVar gj)))))
    (PNum 0).

(** Lines 108-119. *)
Definition build_objective (matrix : list (list Q)) (g : gmap (nat * nat) var)
    (num_teams num_groups : nat) : result pyobj :=
  for_each (range num_teams) (fun i obj =>
    for_each (range num_teams) (fun j obj =>
      if (j <=? i)%nat then Ok obj
      else
        do su <- co_membership g num_groups i j;
        do mij <- mget matrix i j;
        do mji <- mget matrix j i;
        Ok (padd obj (pmul (psub (PNum 1) su) (PNum (2 * mij + 2 * mji)%Q))))
      obj)
    (PNum 0).

(** Lines 124-128. *)
Definition add_one_group_constrs (g : gmap (nat * nat) var)
    (num_teams num_groups : nat) (m : model) : result model :=
  for_each (range num_teams) (fun i m =>
    do su <- for_each (range num_groups) (fun j su =>
               do v <- tget g i j; Ok (padd su (PExpr (EVar v)))) (PNum 0);
    addConstr m su Equal 1 (exactly_one_group i))
    m.

(** Lines 131-138. *)
Definition add_size_constrs (g : gmap (nat * nat) var)
    (num_teams num_groups : nat) (min_size max_size : option Z) (m : model)
  : result model :=
  for_each (range num_groups) (fun j m =>
    do su <- for_each (range num_teams) (fun i su =>
               do v <- tget g i j; Ok (padd su (PExpr (EVar v)))) (PNum 0);
    do m1 <- match min_size with
             | Some lo => addConstr m su GreaterEqual (inject_Z lo) min_league_size
             | None => Ok m
             end;
    match max_size with
    | Some hi => addConstr m1 su LessEqual (inject_Z hi) max_league_size
    | None => Ok m1
    end)
    m.

(** Lines 98-138 together: the tupledict and the model handed to the solver. *)
Definition build_model (matrix : list (list Q)) (num_groups : nat)
    (min_size max_size : option Z) : result (gmap (nat * nat) var * model) :=
  let num_teams := length matrix in
  let (g, m0) := add_vars num_teams new_model in
  do obj <- build_objective matrix g num_teams num_groups;
  let m1 := setObjective m0 obj MAXIMIZE in
  do m2 <- add_one_group_constrs g num_teams num_groups m1;
  do m3 <- add_size_constrs g num_teams num_groups min_size max_size m2;
  Ok (g, m3).

(** ** [optimize_ab], lines 142-156: reading the solution back *)

(** Lines 142-148. *)
Definition decode (g : gmap (nat * nat) var) (sol : option solution)
    (num_teams num_groups : nat) : result (list (option nat)) :=
  for_each (range num_teams) (fun i t2g =>
    for_each (range num_groups) (fun k (t2g : list (option nat)) =>
      do v <- tget g i k;
      do xv <- var_X sol v;
      if gt_half xv then
        match t2g !! i with
        | Some None => Ok (<[i := Some k]> t2g)
        | Some (Some _) => Raise AssertionError
        | None => Raise IndexError
        end
      else Ok t2g)
      t2g)
    (replicate num_teams None).

(** Lines 150-156. *)
Definition total_distance (matrix : list (list Q)) (g : gmap (nat * nat) var)
    (sol : option solution) (num_teams num_groups : nat) : result Q :=
  for_each (range num_teams) (fun i total =>
    for_each (range_from (i + 1) num_teams) (fun j total =>
      for_each (range num_groups) (fun k total =>
        do vi <- tget g i k;
        do xi <- var_X sol vi;
        if gt_half xi then
          do vj <- tget g j k;
          do xj <- var_X sol vj;
          if gt_half xj then
            do mij <- mget matrix i j;
            do mji <- mget matrix j i;
            Ok (total + (mij * 2 + mji * 2))%Q
          else Ok total
        else Ok total)
        total)
      total)
    0%Q.

(** ** [optimize_ab] *)

Section Optimize.

(** The external solver: a model in, a raw solution out, or nothing when
    it found none (infeasible model, error, interrupted). *)
Variable solver : model -> option solution.

(** [optimize_ab(matrix, num_groups, min_size, max_size)].  The second
    component threads the log of the models on which [m.optimize()] was
    called. *)
Definition optimize_ab (matrix : list (list Q)) (num_groups : nat)
    (min_size max_size : option Z) (calls : list model)
  : result (list (option nat) * Q) * list model :=
  let num_teams := length matrix in
  match build_model matrix num_groups min_size max_size with
  | Raise e => (Raise e, calls)
  | Ok (g, m) =>
      let sol := solver m in
      (do teams_to_groups <- decode g sol num_teams num_groups;
       do total_distance_traveled <-
         total_distance matrix g sol num_teams num_groups;
       Ok (teams_to_groups, total_distance_traveled),
       calls ++ [m])
  end.

End Optimize.

(** ** The distance helpers, lines 33-61 *)

(** A pair (latitude, longitude). *)
Definition coordinate : Type := (Z * Z)%type.

Section Distances.

(** [client.directions(...)] of openrouteservice, reduced to the two
    fields of the route summary that are read: distance and duration. *)
Variable directions : coordinate -> coordinate -> result (Q * Q).

(** [geodesic(s, e).meters] of geopy. *)
Variable geodesic_meters : coordinate -> coordinate -> Q.

Definition distance_duration_car (s e : coordinate) : result Py.value :=
  if decide (s = e) then Ok (Py.VTuple [Py.VNum 0; Py.VNum 0])
  else
    do summary <- directions (snd s, fst s) (snd e, fst e);
    Ok (Py.VTuple [Py.VNum (fst summary); Py.VNum (snd summary)]).

(** [return distance_duration_car[0]]: the name denotes the function
    object; it is not called. *)
Definition distance_car (s e : coordinate) : result Py.value :=
  Py.subscript (Py.VFunction "distance_duration_car") 0.

(** [return duration_car[1]] *)
Definition duration_car (s e : coordinate) : result Py.value :=
  Py.subscript (Py.VFunction "duration_car") 1.

Definition distance_straight_line (s e : coordinate) : result Py.value :=
  Ok (Py.VNum (geodesic_meters s e)).

(** The three function objects a caller may pass as [metric]. *)
Inductive metric_fn : Type :=
| Distance_car
| Duration_car
| Distance_straight_line.

#[global] Instance metric_fn_eq_dec : EqDecision metric_fn.
Proof. solve_decision. Defined.

Definition METRICS : list metric_fn :=
  [Distance_car; Duration_car; Distance_straight_line].

Definition call_metric (metric : metric_fn) (s e : coordinate)
  : result Py.value :=
  match metric with
  | Distance_car => distance_car s e
  | Duration_car => duration_car s e
  | Distance_straight_line => distance_straight_line s e
  end.

(** ** [example_matrix], lines 73-84 *)

(** The state of the pseudo-random generator and [randint(a, b)]. *)
Variable rng : Type.
Variable randint : Z -> Z -> rng -> Z * rng.

(** Line 76. *)
Fixpoint random_coordinates (n : nat) (r : rng) : list coordinate * rng :=
  match n with
  | O => ([], r)
  | S n' =>
      let (lat, r1) := randint 48 55 r in
      let (lon, r2) := randint 6 15 r1 in
      let (rest, r3) := random_coordinates n' r2 in
      ((lat, lon) :: rest, r3)
  end.

(** [l[i]] and [matrix[i][j] = v] for non-negative indices. *)
Definition lget {A : Type} (l : list A) (i : nat) : result A :=
  match l !! i with
  | Some a => Ok a
  | None => Raise IndexError
  end.

Definition mset (matrix : list (list Py.value)) (i j : nat) (v : Py.value)
  : result (list (list Py.value)) :=
  do row <- lget matrix i;
  if (j <? length row)%nat then Ok (<[i := <[j := v]> row]> matrix)
  else Raise IndexError.

Definition example_matrix (n : nat) (metric : metric_fn) (r : rng)
  : result (list (list Py.value)) * rng :=
  if bool_decide (metric ∈ METRICS) then
    let (coordinates, r') := random_coordinates n r in
    (for_each (range n) (fun i matrix =>
       for_each (range n) (fun j matrix =>
         do v <- (if (i =? j)%nat then Ok (Py.VNum 0)
                  else
                    do ci <- lget coordinates i;
                    do cj <- lget coordinates j;
                    call_metric metric ci cj);
         mset matrix i j v)
         matrix)
       (replicate n (replicate n Py.VNone)),
     r')
  else (Raise AssertionError, r).

End Distances.

(** * Specification-level notions *)

(** [sumQ n f] is the sum of [f i] over [i < n]. *)
Fixpoint sumQ (n : nat) (f : nat -> Q) : Q :=
  match n with
  | O => 0%Q
  | S n' => (sumQ n' f + f n')%Q
  end.

(** The sum of [t i j] over all pairs [i < j < n]. *)
Definition sum_pairs (n : nat) (t : nat -> nat -> Q) : Q :=
  sumQ n (fun i => sumQ n (fun j => if (i <? j)%nat then t i j else 0%Q)).

(** The number of [i < n] with [p i]. *)
Fixpoint count_upto (n : nat) (p : nat -> bool) : nat :=
  match n with
  | O => O
  | S n' => (count_upto n' p + if p n' then 1 else 0)%nat
  end.

(** A CostMatrix: every row as long as the matrix itself. *)
Definition square (matrix : list (list Q)) : Prop :=
  Forall (fun row => length row = length matrix) matrix.

(** [cost[i][j]], read as 0 outside the matrix. *)
Definition cost (matrix : list (list Q)) (i j : nat) : Q :=
  match matrix !! i with
  | Some row => default 0%Q (row !! j)
  | None => 0%Q
  end.

(** The objective as the specification writes it. *)
Definition spec_objective (matrix : list (list Q)) (K : nat) (x : var -> Q) : Q :=
  sum_pairs (length matrix) (fun i j =>
    ((1 - sumQ K (fun k => x (g_ i k) * x (g_ j k)))
     * (cost matrix i j + cost matrix j i))%Q).

(** The same with the coefficient of the source, line 119. *)
Definition round_trip_objective (matrix : list (list Q)) (K : nat)
    (x : var -> Q) : Q :=
  sum_pairs (length matrix) (fun i j =>
    ((1 - sumQ K (fun k => x (g_ i k) * x (g_ j k)))
     * (2 * cost matrix i j + 2 * cost matrix j i))%Q).

(** Two entities with the same decoded group. *)
Definition same_group (t2g : list (option nat)) (i j : nat) : bool :=
  match t2g !! i, t2g !! j with
  | Some (Some a), Some (Some b) => (a =? b)%nat
  | _, _ => false
  end.

(** The brute-force recomputation of the travelled distance. *)
Definition brute_force_cost (matrix : list (list Q)) (t2g : list (option nat)) : Q :=
  sum_pairs (length t2g) (fun i j =>
    if same_group t2g i j
    then (2 * cost matrix i j + 2 * cost matrix j i)%Q
    else 0%Q).

(** The number of entities decoded to group [k]. *)
Definition group_size (t2g : list (option nat)) (k : nat) : nat :=
  count_upto (length t2g) (fun i => bool_decide (t2g !! i = Some (Some k))).

(** The size bounds, each one optional. *)
Definition within_bounds (min_size max_size : option Z) (n : nat) : Prop :=
  (forall lo, min_size = Some lo -> (lo <= Z.of_nat n)%Z) /\
  (forall hi, max_size = Some hi -> (Z.of_nat n <= hi)%Z).

(** What a sound solver guarantees of the values it returns. *)
Definition is_binary (q : Q) : bool := Qeq_bool q 0%Q || Qeq_bool q 1%Q.

Definition satisfies (x : var -> Q) (c : constr) : bool :=
  match c_sense c with
  | LessEqual => Qle_bool (eval x (c_lhs c)) (c_rhs c)
  | GreaterEqual => Qle_bool (c_rhs c) (eval x (c_lhs c))
  | Equal => Qeq_bool (eval x (c_lhs c)) (c_rhs c)
  end.

Definition feasible (m : model) (x : var -> Q) : bool :=
  forallb (fun v => is_binary (x v)) (m_vars m)
  && forallb (satisfies x) (m_constrs m).

(** The entity [i] has exactly one group above the threshold, [a i]. *)
Definition decodes (x : var -> Q) (N K : nat) (a : nat -> nat) : Prop :=
  forall i, (i < N)%nat ->
    (a i < K)%nat /\
    forall k, (k < K)%nat -> (gt_half (x (g_ i k)) = true <-> k = a i).

(** An analytically infeasible size configuration. *)
Definition infeasible_spec (N K : nat) (min_size max_size : option Z) : Prop :=
  (exists lo hi, min_size = Some lo /\ max_size = Some hi /\ (hi < lo)%Z) \/
  (exists lo, min_size = Some lo /\ (Z.of_nat N < Z.of_nat K * lo)%Z) \/
  (exists hi, max_size = Some hi /\ (Z.of_nat K * hi < Z.of_nat N)%Z).

(** The state of lines 104-106 once the pairs selected by [covered] have
    been visited. *)
Record vars_upto (N : nat) (m0 : model) (covered : nat -> nat -> bool)
    (st : gmap (nat * nat) var * model) : Prop := {
  vu_lookup : forall i k,
    fst st !! (i, k) = if covered i k then Some (g_ i k) else None;
  vu_vars : forall v, In v (m_vars (snd st)) <->
    In v (m_vars m0) \/ covered (v_team v) (v_index v) = true;
  vu_objective : m_objective (snd st) = m_objective m0;
  vu_sense : m_sense (snd st) = m_sense m0;
  vu_constrs : m_constrs (snd st) = m_constrs m0
}.

(** The tupledict holds [g_i_k] for all [i, k < N]. *)
Definition covers (g : gmap (nat * nat) var) (N : nat) : Prop :=
  forall i k, (i < N)%nat -> (k < N)%nat -> g !! (i, k) = Some (g_ i k).

(** The model [m] holds a constraint of sense [s] and right-hand side [rhs]
    whose left-hand side evaluates as [lhs]. *)
Definition has_constr (m : model) (s : relation_sense) (rhs : Q)
    (lhs : (var -> Q) -> Q) : Prop :=
  exists c, In c (m_constrs m) /\ c_sense c = s /\ c_rhs c = rhs /\
            forall x, (eval x (c_lhs c) == lhs x)%Q.

(** [m'] is [m] with further constraints. *)
Definition extends (m m' : model) : Prop :=
  m_vars m' = m_vars m /\ m_objective m' = m_objective m /\
  m_sense m' = m_sense m /\
  forall c, In c (m_constrs m) -> In c (m_constrs m').

(** What lines 98-138 leave in the tupledict and in the model. *)
Record model_spec (matrix : list (list Q)) (K : nat)
    (min_size max_size : option Z) (g : gmap (nat * nat) var) (m : model)
  : Prop := {
  ms_covers : covers g (length matrix);
  ms_vars : forall i k, (i < length matrix)%nat -> (k < length matrix)%nat ->
    In (g_ i k) (m_vars m);
  ms_sense : m_sense m = MAXIMIZE;
  ms_objective : forall x,
    (peval x (m_objective m) == round_trip_objective matrix K x)%Q;
  ms_one_group : forall i, (i < length matrix)%nat ->
    has_constr m Equal 1 (fun x => sumQ K (fun k => x (g_ i k)));
  ms_min : forall lo k, min_size = Some lo -> (k < K)%nat ->
    has_constr m GreaterEqual (inject_Z lo)
      (fun x => sumQ (length matrix) (fun i => x (g_ i k)));
  ms_max : forall hi k, max_size = Some hi -> (k < K)%nat ->
    has_constr m LessEqual (inject_Z hi)
      (fun x => sumQ (length matrix) (fun i => x (g_ i k)))
}.

(** The distance travelled between the entities of one group under the
    assignment [a]. *)
Definition assignment_cost (matrix : list (list Q)) (a : nat -> nat) : Q :=
  sum_pairs (length matrix) (fun i j =>
    if (a i =? a j)%nat
    then (2 * cost matrix i j + 2 * cost matrix j i)%Q
    else 0%Q).

(** The lowest group of entity [i] whose variable exceeds the threshold. *)
Definition group_of (x : var -> Q) (K i : nat) : nat :=
  default O (find (fun k => gt_half (x (g_ i k))) (range K)).

(** Every entity's row is the indicator of its group [a i]. *)
Definition indicator (x : var -> Q) (N K : nat) (a : nat -> nat) : Prop :=
  forall i, (i < N)%nat ->
    (a i < K)%nat /\
    forall k, (k < K)%nat -> (x (g_ i k) == if (k =? a i)%nat then 1 else 0)%Q.

(** The distance avoided between entities of different groups. *)
Definition avoided_cost (matrix : list (list Q)) (a : nat -> nat) : Q :=
  sum_pairs (length matrix) (fun i j =>
    if (a i =? a j)%nat
    then 0%Q
    else (2 * cost matrix i j + 2 * cost matrix j i)%Q).

(** Exactly one group of entity [i] exceeds the threshold. *)
Definition one_group (x : var -> Q) (K i : nat) : Prop :=
  exists k, (k < K)%nat /\ gt_half (x (g_ i k)) = true /\
    forall k', (k' < K)%nat -> gt_half (x (g_ i k')) = true -> k' = k.

(** The solver contract: a solution that is returned is feasible. *)
Definition sound (solver : model -> option solution) : Prop :=
  forall m sol, solver m = Some sol -> feasible m (sol_X sol) = true.

(** ** Sample inputs

    The sample solutions report an objective value of 1000, which is
    unrelated to any of the matrices below. *)

Definition two_teams : list (list Q) := [[0; 1]; [1; 0]]%Q.

(** Four entities at distance 1 from each other. *)
Definition four_teams : list (list Q) :=
  [[0; 1; 1; 1]; [1; 0; 1; 1]; [1; 1; 0; 1]; [1; 1; 1; 0]]%Q.

(** Raw values that put every entity into group 0. *)
Definition all_in_group_0 : solution :=
  mk_solution (fun v => if (v_index v =? 0)%nat then 1 else 0)%Q 1000%Q.

(** Raw values that are zero everywhere. *)
Definition all_zero : solution := mk_solution (fun _ => 0%Q) 1000%Q.

(** Raw values that are one everywhere. *)
Definition all_one : solution := mk_solution (fun _ => 1%Q) 1000%Q.

(** Raw values that put the even entities into group 0 and the odd ones
    into group 1. *)
Definition alternating : solution :=
  mk_solution (fun v =>
    if (Nat.even (v_team v) && (v_index v =? 0)%nat
        || Nat.odd (v_team v) && (v_index v =? 1)%nat)%bool
    then 1 else 0)%Q 1000%Q.

(** A split of the four entities into two groups of two, and the raw
    values that encode an assignment [a] exactly. *)
Definition balanced_split (a : nat -> nat) : Prop :=
  (forall i, (i < 4)%nat -> (a i < 2)%nat) /\
  count_upto 4 (fun i => (a i =? 0)%nat) = 2%nat.

Definition split_solution (a : nat -> nat) : solution :=
  mk_solution
    (fun v => if (v_index v =? a (v_team v))%nat then 1 else 0)%Q 1000%Q.

(** The tupledict and the model of lines 98-138, when building succeeds. *)
Definition built (matrix : list (list Q)) (K : nat) (min_size max_size : option Z)
  : gmap (nat * nat) var * model :=
  match build_model matrix K min_size max_size with
  | Ok gm => gm
  | Raise _ => (∅, new_model)
  end.

(** A solver that proposes [sol] whenever it is feasible. *)
Definition reference_solver (sol : solution) (m : model) : option solution :=
  if feasible m (sol_X sol) then Some sol else None.

(** Every entity has a group in [0..K-1]. *)
Definition total_assignment (N K : nat) (t2g : list (option nat)) : Prop :=
  length t2g = N /\
  forall i, (i < N)%nat -> exists k, (k < K)%nat /\ t2g !! i = Some (Some k).

(** [matrix[i][j]] of a generated matrix, when it exists. *)
Definition entry (matrix : list (list Py.value)) (i j : nat) : option Py.value :=
  match matrix !! i with
  | Some row => row !! j
  | None => None
  end.

(** The cell that lines 80-82 write at [(i, j)] under the straight-line
    metric. *)
Definition straight_line_cell (geodesic_meters : coordinate -> coordinate -> Q)
    (coordinates : list coordinate) (i j : nat) : Py.value :=
  if (i =? j)%nat then Py.VNum 0
  else Py.VNum (geodesic_meters (default (0%Z, 0%Z) (coordinates !! i))
                                (default (0%Z, 0%Z) (coordinates !! j))).

(** The matrix of lines 77-82 once the cells selected by [done] are written. *)
Definition filled (n : nat) (cell : nat -> nat -> Py.value)
    (done : nat -> nat -> bool) (matrix : list (list Py.value)) : Prop :=
  length matrix = n /\
  forall i, (i < n)%nat ->
    exists row, matrix !! i = Some row /\ length row = n /\
      forall j, (j < n)%nat ->
        row !! j = Some (if done i j then cell i j else Py.VNone).

(** A stand-in for the geodesic distance on the integer grid, and a
    deterministic stand-in for [randint]. *)
Definition grid_distance (s e : coordinate) : Q :=
  inject_Z (Z.abs (fst s - fst e) + Z.abs (snd s - snd e)).

Definition counter_randint (lo hi : Z) (r : nat) : Z * nat :=
  ((lo + Z.of_nat r mod (hi - lo + 1))%Z, S r).

(** A matrix whose first row lacks its second column. *)
Definition ragged_teams : list (list Q) := [[0]; [1; 0]]%Q.

(** [two_teams] with other values on the diagonal. *)
Definition two_teams_diagonal : list (list Q) := [[7; 1]; [1; 9]]%Q.

(** The lowest index below [n] that satisfies [p], if any. *)
Fixpoint first_upto (p : nat -> bool) (n : nat) : option nat :=
  match n with
  | O => None
  | S n' =>
      match first_upto p n' with
      | Some k => Some k
      | None => if p n' then Some n' else None
      end
  end.

(** [g[i, k].X > 0.5] in the solution [sol]. *)
Definition above (sol : solution) (i k : nat) : bool :=
  gt_half (sol_X sol (g_ i k)).

(** No entity has two groups above the threshold. *)
Definition unambiguous (sol : solution) (N K : nat) : Prop :=
  forall i k1 k2, (i < N)%nat -> (k1 < K)%nat -> (k2 < K)%nat ->
    above sol i k1 = true -> above sol i k2 = true -> k1 = k2.

(** Some entity has two groups above the threshold. *)
Definition ambiguous (sol : solution) (N K : nat) : Prop :=
  exists i k1 k2, (i < N)%nat /\ (k1 < k2 < K)%nat /\
    above sol i k1 = true /\ above sol i k2 = true.

(** Two decoded groups that are the same group. *)
Definition same_decoded (a b : option nat) : bool :=
  match a, b with
  | Some p, Some q => (p =? q)%nat
  | _, _ => false
  end.

(** The round-trip distance over all pairs, in one group or not. *)
Definition all_pairs_cost (matrix : list (list Q)) : Q :=
  sum_pairs (length matrix) (fun i j =>
    (2 * cost matrix i j + 2 * cost matrix j i)%Q).


(** The variables that occur in an expression. *)
Fixpoint expr_vars (e : expr) : list var :=
  match e with
  | EConst _ => []
  | EVar v => [v]
  | EAdd a b | ESub a b | EMul a b => expr_vars a ++ expr_vars b
  end.

(** The variable [v] belongs to an entity below [N] and a group below [K]. *)
Definition in_use (N K : nat) (v : var) : Prop :=
  (v_team v < N)%nat /\ (v_index v < K)%nat.

(** How many of the two size bounds are set. *)
Definition bounds_set (min_size max_size : option Z) : nat :=
  ((match min_size with Some _ => 1 | None => 0 end)
   + (match max_size with Some _ => 1 | None => 0 end))%nat.

(** The fields of a model that later steps leave alone, the number of its
    constraints, and the variables its constraints mention. *)
Definition grown (N K : nat) (m : model) (added : nat) (m' : model) : Prop :=
  m_vars m' = m_vars m /\ m_objective m' = m_objective m /\
  m_sense m' = m_sense m /\
  length (m_constrs m') = (length (m_constrs m) + added)%nat /\
  forall c, In c (m_constrs m') ->
    In c (m_constrs m) \/ forall v, In v (expr_vars (c_lhs c)) -> in_use N K v.

(** The rectangle of line 76: latitudes 48..55, longitudes 6..15. *)
Definition in_rectangle (c : coordinate) : Prop :=
  (48 <= fst c <= 55)%Z /\ (6 <= snd c <= 15)%Z.

(** [randint(a, b)] returns an integer N with a <= N <= b. *)
Definition randint_in_range {rng : Type} (randint : Z -> Z -> rng -> Z * rng)
  : Prop :=
  forall a b r, (a <= b)%Z -> (a <= fst (randint a b r) <= b)%Z.

(** The points of the rectangle. *)
Definition rectangle : list coordinate :=
  list_prod [48; 49; 50; 51; 52; 53; 54; 55]%Z
            [6; 7; 8; 9; 10; 11; 12; 13; 14; 15]%Z.

(** ** [main], lines 173-176: the groups that are printed *)

(** [enumerate(l)] *)
Definition enumerate {A : Type} (l : list A) : list (nat * A) :=
  combine (seq 0 (length l)) l.

(** [groups = [[] for _ in range(num_groups)]], then
    [groups[group].append(i)] for every entity [i].  [None] is not an
    index ([TypeError]); an index from [len(groups)] on is out of range
    ([IndexError]). *)
Definition main_groups (num_groups : nat) (teams_to_groups : list (option nat))
  : result (list (list nat)) :=
  for_each (enumerate teams_to_groups) (fun ig groups =>
    match snd ig with
    | None => Raise TypeError
    | Some group =>
        match groups !! group with
        | Some members => Ok (<[group := members ++ [fst ig]]> groups)
        | None => Raise IndexError
        end
    end)
    (replicate num_groups []).

(** The entities that [t2g] assigns to group [k], in ascending order. *)
Definition members (t2g : list (option nat)) (k : nat) : list nat :=
  List.filter (fun i => bool_decide (t2g !! i = Some (Some k)))
    (seq 0 (length t2g)).

(** The exception at the first entry that is no index below [K]. *)
Fixpoint first_invalid (K : nat) (t2g : list (option nat)) : option exn :=
  match t2g with
  | [] => None
  | None :: _ => Some TypeError
  | Some k :: rest => if (K <=? k)%nat then Some IndexError else first_invalid K rest
  end.

(** The list [l] is in strictly ascending order. *)
Definition ascending (l : list nat) : Prop :=
  forall p q a b, (p < q)%nat -> l !! p = Some a -> l !! q = Some b -> (a < b)%nat.

(** Every entry of [t2g] is a group index below [K]. *)
Definition all_grouped (K : nat) (t2g : list (option nat)) : Prop :=
  forall i, (i < length t2g)%nat ->
    exists k, (k < K)%nat /\ t2g !! i = Some (Some k).

(** Two matrices with the same round-trip sums: all of the distance in one
    direction, and the same distance split over both. *)
Definition one_way_teams : list (list Q) := [[0; 4]; [0; 0]]%Q.
Definition both_ways_teams : list (list Q) := [[0; 2]; [2; 0]]%Q.

(** Two models with the same variables, sense and constraints. *)
Definition same_constraints (m1 m2 : model) : Prop :=
  m_vars m1 = m_vars m2 /\ m_sense m1 = m_sense m2 /\
  m_constrs m1 = m_constrs m2.

(** * Proofs *)

Local Open Scope Q_scope.

(** ** Loop invariants *)

Lemma for_each_seq_inv {St : Type} (I : nat -> St -> Prop)
    (body : nat -> St -> result St) :
  forall len a s,
    I a s ->
    (forall i s, (a <= i < a + len)%nat -> I i s ->
                 exists s', body i s = Ok s' /\ I (S i) s') ->
    exists s', for_each (seq a len) body s = Ok s' /\ I (a + len)%nat s'.
Proof.
  induction len as [|len IH]; intros a s Ha Hstep.
  - exists s. rewrite Nat.add_0_r. auto.
  - destruct (Hstep a s) as (s1 & Hb & H1); [lia | assumption |].
    destruct (IH (S a) s1 H1) as (s' & Hs' & HI).
    { intros i t Hi. apply Hstep. lia. }
    exists s'. simpl. rewrite Hb. simpl. split; [exact Hs' |].
    replace (a + S len)%nat with (S a + len)%nat by lia. exact HI.
Qed.

Lemma for_range_inv {St : Type} (I : nat -> St -> Prop)
    (body : nat -> St -> result St) (n : nat) (s : St) :
  I O s ->
  (forall i s, (i < n)%nat -> I i s -> exists s', body i s = Ok s' /\ I (S i) s') ->
  exists s', for_each (range n) body s = Ok s' /\ I n s'.
Proof.
  intros H0 Hstep.
  destruct (for_each_seq_inv I body n O s H0) as (s' & ? & ?); eauto.
  intros i t Hi. apply Hstep. lia.
Qed.

Lemma fold_left_seq_inv {St : Type} (I : nat -> St -> Prop)
    (f : St -> nat -> St) :
  forall len a s,
    I a s ->
    (forall i s, (a <= i < a + len)%nat -> I i s -> I (S i) (f s i)) ->
    I (a + len)%nat (fold_left f (seq a len) s).
Proof.
  induction len as [|len IH]; intros a s Ha Hstep.
  - rewrite Nat.add_0_r. exact Ha.
  - simpl. replace (a + S len)%nat with (S a + len)%nat by lia.
    apply IH.
    + apply Hstep; [lia | exact Ha].
    + intros i t Hi. apply Hstep. lia.
Qed.

(** ** The tupledict of variables *)

Ltac bool_lia :=
  rewrite ?orb_true_iff, ?andb_true_iff, ?Nat.ltb_lt, ?Nat.eqb_eq, ?Nat.leb_le in *;
  lia.

Lemma if_guard_eq {A : Type} (c d : bool) (a b : A) :
  (c = true <-> d = true) -> (if c then a else b) = (if d then a else b).
Proof. destruct c, d; intuition discriminate. Qed.

Lemma iff_guard_eq (P : Prop) (c d : bool) :
  (c = true <-> d = true) -> (P \/ c = true) <-> (P \/ d = true).
Proof. tauto. Qed.

Ltac same_guard := first [apply if_guard_eq | apply iff_guard_eq]; bool_lia.

Lemma add_vars_spec N m0 :
  vars_upto N m0 (fun i k => (i <? N)%nat && (k <? N)%nat) (add_vars N m0).
Proof.
  unfold add_vars, range.
  pose (I := fun (i : nat) st =>
    vars_upto N m0 (fun i' k => (i' <? i)%nat && (k <? N)%nat) st).
  change (I (0 + N)%nat (fold_left
    (fun st i => fold_left
       (fun (st : gmap (nat * nat) var * model) j =>
          let (v, m') := addVar (snd st) i j in (<[(i, j):=v]> (fst st), m'))
       (seq 0 N) st) (seq 0 N) (∅, m0))).
  apply fold_left_seq_inv.
  - subst I. split; simpl; [| |reflexivity..].
    + intros i k. apply lookup_empty.
    + intros v. intuition discriminate.
  - intros i st Hi HI. subst I. simpl in *.
    pose (J := fun (j : nat) st =>
      vars_upto N m0 (fun i' k =>
        (i' <? i)%nat && (k <? N)%nat || (i' =? i)%nat && (k <? j)%nat) st).
    assert (HJ : J (0 + N)%nat (fold_left
      (fun (st : gmap (nat * nat) var * model) j =>
          let (v, m') := addVar (snd st) i j in (<[(i, j):=v]> (fst st), m'))
       (seq 0 N) st)).
    { apply fold_left_seq_inv.
      - subst J. destruct HI as [H1 H2 H3 H4 H5]. split; auto.
        + intros i' k. rewrite H1. same_guard.
        + intros v. rewrite H2. same_guard.
      - intros j [g m] Hj HJ. subst J. destruct HJ as [H1 H2 H3 H4 H5].
        simpl in *. split; simpl; auto.
        + intros i' k. destruct (decide ((i, j) = (i', k))) as [E|E].
          * inversion E; subst. rewrite lookup_insert_eq.
            replace ((i' <? i')%nat && (k <? N)%nat
                     || (i' =? i')%nat && (k <? S k)%nat) with true;
              [reflexivity|].
            symmetry. rewrite Nat.eqb_refl. simpl.
            rewrite orb_true_iff. right. apply Nat.ltb_lt. lia.
          * rewrite lookup_insert_ne by exact E. rewrite H1.
            assert (i' <> i \/ k <> j)
              by (destruct (decide (i' = i)); [right; congruence | left; auto]).
            same_guard.
        + intros [i' k]. rewrite in_app_iff, H2. simpl.
          rewrite !orb_true_iff, !andb_true_iff, !Nat.ltb_lt, !Nat.eqb_eq.
          split.
          * intros [[H|H]|[H|[]]]; [auto | right; lia |].
            inversion H; subst. right. lia.
          * intros [H|H]; [auto|].
            destruct (decide (i' = i /\ k = j)) as [[-> ->]|Hn];
              [right; left; reflexivity | left; right; lia]. }
    subst J. simpl in HJ. destruct HJ as [H1 H2 H3 H4 H5]. split; auto.
    + intros i' k. rewrite H1. same_guard.
    + intros v. rewrite H2. same_guard.
Qed.

(** ** Sums of rationals *)

Lemma sumQ_ext n (f h : nat -> Q) :
  (forall i, (i < n)%nat -> f i == h i) -> sumQ n f == sumQ n h.
Proof.
  induction n as [|n IH]; intros E; simpl.
  - reflexivity.
  - rewrite IH by (intros; apply E; lia). rewrite (E n) by lia. reflexivity.
Qed.

Lemma sumQ_zero n (f : nat -> Q) :
  (forall i, (i < n)%nat -> f i == 0) -> sumQ n f == 0.
Proof.
  induction n as [|n IH]; intros E; simpl.
  - reflexivity.
  - rewrite IH by (intros; apply E; lia). rewrite (E n) by lia. ring.
Qed.

Lemma sum_pairs_ext n (t u : nat -> nat -> Q) :
  (forall i j, (i < j < n)%nat -> t i j == u i j) ->
  sum_pairs n t == sum_pairs n u.
Proof.
  intros E. unfold sum_pairs. apply sumQ_ext. intros i Hi.
  apply sumQ_ext. intros j Hj.
  destruct (Nat.ltb_spec i j); [apply E; lia | reflexivity].
Qed.

Lemma sumQ_scale n (c : Q) (f : nat -> Q) :
  sumQ n (fun i => c * f i) == c * sumQ n f.
Proof.
  induction n as [|n IH]; simpl; [ring|]. rewrite IH. ring.
Qed.

Lemma round_trip_twice_spec matrix K x :
  round_trip_objective matrix K x == 2 * spec_objective matrix K x.
Proof.
  unfold round_trip_objective, spec_objective, sum_pairs.
  rewrite <- sumQ_scale. apply sumQ_ext. intros i Hi.
  rewrite <- sumQ_scale. apply sumQ_ext. intros j Hj.
  destruct (i <? j)%nat; ring.
Qed.

(** ** Evaluating overloaded arithmetic *)

Lemma peval_padd x a b : peval x (padd a b) = (peval x a + peval x b)%Q.
Proof. destruct a, b; reflexivity. Qed.

Lemma peval_psub x a b : peval x (psub a b) = (peval x a - peval x b)%Q.
Proof. destruct a, b; reflexivity. Qed.

Lemma peval_pmul x a b : peval x (pmul a b) = (peval x a * peval x b)%Q.
Proof. destruct a, b; reflexivity. Qed.

(** ** Reading the matrix and the tupledict *)

Lemma square_row matrix i row :
  square matrix -> matrix !! i = Some row -> length row = length matrix.
Proof.
  intros Hsq Hrow. unfold square in Hsq. rewrite Forall_forall in Hsq.
  apply Hsq. eapply list_elem_of_lookup_2. exact Hrow.
Qed.

Lemma mget_square matrix i j :
  square matrix -> (i < length matrix)%nat -> (j < length matrix)%nat ->
  mget matrix i j = Ok (cost matrix i j).
Proof.
  intros Hsq Hi Hj. unfold mget, cost.
  destruct (lookup_lt_is_Some_2 matrix i Hi) as [row Hrow]. rewrite Hrow.
  pose proof (square_row _ _ _ Hsq Hrow) as Hlen.
  destruct (lookup_lt_is_Some_2 row j) as [c Hc]; [lia|].
  rewrite Hc. reflexivity.
Qed.

Lemma tget_covers g N i k :
  covers g N -> (i < N)%nat -> (k < N)%nat -> tget g i k = Ok (g_ i k).
Proof. intros Hg Hi Hk. unfold tget. rewrite (Hg i k Hi Hk). reflexivity. Qed.

(** ** The objective that is built *)

Lemma co_membership_spec g N K i j :
  covers g N -> (K <= N)%nat -> (i < N)%nat -> (j < N)%nat ->
  exists su, co_membership g K i j = Ok su /\
    forall x, peval x su == sumQ K (fun k => x (g_ i k) * x (g_ j k)).
Proof.
  intros Hg HK Hi Hj. unfold co_membership.
  apply (for_range_inv
    (fun k su => forall x, peval x su == sumQ k (fun k => x (g_ i k) * x (g_ j k)))).
  - intros x. reflexivity.
  - intros k su Hk Hsu.
    rewrite (tget_covers g N i k), (tget_covers g N j k) by (auto; lia).
    simpl. eexists. split; [reflexivity|].
    intros x. rewrite peval_padd, Hsu. reflexivity.
Qed.

Lemma build_objective_spec matrix g K :
  square matrix -> covers g (length matrix) -> (K <= length matrix)%nat ->
  exists obj, build_objective matrix g (length matrix) K = Ok obj /\
    forall x, peval x obj == round_trip_objective matrix K x.
Proof.
  intros Hsq Hg HK. unfold build_objective, round_trip_objective, sum_pairs.
  set (N := length matrix) in *.
  set (t := fun x i j =>
    ((1 - sumQ K (fun k => x (g_ i k) * x (g_ j k)))
     * (2 * cost matrix i j + 2 * cost matrix j i))%Q).
  set (row := fun x i (n : nat) =>
    sumQ n (fun j => if (i <? j)%nat then t x i j else 0%Q)).
  apply (for_range_inv (fun i obj => forall x,
    peval x obj == sumQ i (fun i' => row x i' N))).
  - intros x. reflexivity.
  - intros i obj Hi Hobj.
    destruct (for_range_inv (fun j obj' => forall x,
      peval x obj' == sumQ i (fun i' => row x i' N) + row x i j)
      (fun j obj =>
         if (j <=? i)%nat then Ok obj
         else
           do su <- co_membership g K i j;
           do mij <- mget matrix i j;
           do mji <- mget matrix j i;
           Ok (padd obj (pmul (psub (PNum 1) su) (PNum (2 * mij + 2 * mji)%Q))))
      N obj) as (obj' & Hrun & Hobj').
    + intros x. rewrite Hobj. change (row x i O) with 0. ring.
    + intros j acc Hj Hacc.
      destruct (Nat.leb_spec j i) as [Hle|Hlt].
      * exists acc. split; [reflexivity|]. intros x. rewrite Hacc.
        change (row x i (S j))
          with (row x i j + (if (i <? j)%nat then t x i j else 0)).
        replace (i <? j)%nat with false by (symmetry; apply Nat.ltb_ge; lia).
        ring.
      * destruct (co_membership_spec g N K i j Hg HK Hi Hj) as (su & Hsu & Esu).
        rewrite Hsu. cbn [rbind].
        rewrite !mget_square by assumption. cbn [rbind].
        eexists. split; [reflexivity|]. intros x.
        rewrite peval_padd, peval_pmul, peval_psub, Hacc, Esu.
        change (row x i (S j))
          with (row x i j + (if (i <? j)%nat then t x i j else 0)).
        replace (i <? j)%nat with true by (symmetry; apply Nat.ltb_lt; lia).
        unfold t, peval. simpl. ring.
    + exists obj'. split; [exact Hrun|]. intros x. rewrite Hobj'. reflexivity.
Qed.

(** ** The constraints that are built *)

Lemma extends_refl m : extends m m.
Proof. repeat split; auto. Qed.

Lemma extends_trans m1 m2 m3 : extends m1 m2 -> extends m2 m3 -> extends m1 m3.
Proof.
  intros (A1 & A2 & A3 & A4) (B1 & B2 & B3 & B4).
  repeat split; try congruence. auto.
Qed.

Lemma has_constr_extends m m' s rhs lhs :
  extends m m' -> has_constr m s rhs lhs -> has_constr m' s rhs lhs.
Proof.
  intros (_ & _ & _ & Hin) (c & Hc & Hrest). exists c. split; auto.
Qed.

Lemma addConstr_spec m e s rhs name :
  exists m', addConstr m (PExpr e) s rhs name = Ok m' /\ extends m m' /\
    In (mk_constr e s rhs name) (m_constrs m').
Proof.
  eexists. split; [reflexivity|]. split.
  - repeat split; simpl; auto. intros c Hc. apply in_or_app. auto.
  - simpl. apply in_or_app. right. left. reflexivity.
Qed.

Lemma row_sum_spec g N K i :
  covers g N -> (1 <= K <= N)%nat -> (i < N)%nat ->
  exists e,
    for_each (range K) (fun j su =>
      do v <- tget g i j; Ok (padd su (PExpr (EVar v)))) (PNum 0)
    = Ok (PExpr e) /\
    forall x, eval x e == sumQ K (fun k => x (g_ i k)).
Proof.
  intros Hg HK Hi.
  destruct (for_range_inv (fun k su =>
      (forall x, peval x su == sumQ k (fun k => x (g_ i k))) /\
      ((0 < k)%nat -> exists e, su = PExpr e))
    (fun j su => do v <- tget g i j; Ok (padd su (PExpr (EVar v))))
    K (PNum 0)) as (su & Hrun & Hsum & Hexpr).
  - split; [intros x; reflexivity | lia].
  - intros k su Hk [Hsum _]. rewrite (tget_covers g N i k) by (auto; lia).
    cbn [rbind]. eexists. split; [reflexivity|]. split.
    + intros x. rewrite peval_padd, Hsum. reflexivity.
    + intros _. destruct su; eexists; reflexivity.
  - destruct Hexpr as [e ->]; [lia|]. exists e. split; [exact Hrun | exact Hsum].
Qed.

Lemma column_sum_spec g N j :
  covers g N -> (1 <= N)%nat -> (j < N)%nat ->
  exists e,
    for_each (range N) (fun i su =>
      do v <- tget g i j; Ok (padd su (PExpr (EVar v)))) (PNum 0)
    = Ok (PExpr e) /\
    forall x, eval x e == sumQ N (fun i => x (g_ i j)).
Proof.
  intros Hg HN Hj.
  destruct (for_range_inv (fun i su =>
      (forall x, peval x su == sumQ i (fun i => x (g_ i j))) /\
      ((0 < i)%nat -> exists e, su = PExpr e))
    (fun i su => do v <- tget g i j; Ok (padd su (PExpr (EVar v))))
    N (PNum 0)) as (su & Hrun & Hsum & Hexpr).
  - split; [intros x; reflexivity | lia].
  - intros i su Hi [Hsum _]. rewrite (tget_covers g N i j) by (auto; lia).
    cbn [rbind]. eexists. split; [reflexivity|]. split.
    + intros x. rewrite peval_padd, Hsum. reflexivity.
    + intros _. destruct su; eexists; reflexivity.
  - destruct Hexpr as [e ->]; [lia|]. exists e. split; [exact Hrun | exact Hsum].
Qed.

Lemma add_one_group_constrs_spec g N K m :
  covers g N -> (1 <= K <= N)%nat ->
  exists m', add_one_group_constrs g N K m = Ok m' /\ extends m m' /\
    forall i, (i < N)%nat ->
      has_constr m' Equal 1 (fun x => sumQ K (fun k => x (g_ i k))).
Proof.
  intros Hg HK. unfold add_one_group_constrs.
  apply (for_range_inv (fun n m' =>
    extends m m' /\
    forall i, (i < n)%nat ->
      has_constr m' Equal 1 (fun x => sumQ K (fun k => x (g_ i k))))).
  - split; [apply extends_refl | intros; lia].
  - intros i m1 Hi [Hext Hdone].
    destruct (row_sum_spec g N K i Hg HK Hi) as (e & -> & He). cbn [rbind].
    destruct (addConstr_spec m1 e Equal 1 (exactly_one_group i))
      as (m2 & -> & Hext2 & Hin).
    exists m2. split; [reflexivity|]. split; [eapply extends_trans; eauto|].
    intros i' Hi'. destruct (decide (i' = i)) as [->|Hne].
    + eexists. split; [exact Hin|]. simpl. auto.
    + eapply has_constr_extends; [exact Hext2|]. apply Hdone. lia.
Qed.

Lemma add_size_constrs_spec g N K min_size max_size m :
  covers g N -> (1 <= K <= N)%nat ->
  exists m', add_size_constrs g N K min_size max_size m = Ok m' /\
    extends m m' /\
    (forall lo k, min_size = Some lo -> (k < K)%nat ->
       has_constr m' GreaterEqual (inject_Z lo)
         (fun x => sumQ N (fun i => x (g_ i k)))) /\
    (forall hi k, max_size = Some hi -> (k < K)%nat ->
       has_constr m' LessEqual (inject_Z hi)
         (fun x => sumQ N (fun i => x (g_ i k)))).
Proof.
  intros Hg HK. unfold add_size_constrs.
  apply (for_range_inv (fun n m' =>
    extends m m' /\
    (forall lo k, min_size = Some lo -> (k < n)%nat ->
       has_constr m' GreaterEqual (inject_Z lo)
         (fun x => sumQ N (fun i => x (g_ i k)))) /\
    (forall hi k, max_size = Some hi -> (k < n)%nat ->
       has_constr m' LessEqual (inject_Z hi)
         (fun x => sumQ N (fun i => x (g_ i k)))))).
  - split; [apply extends_refl|]. split; intros; lia.
  - intros j m1 Hj (Hext & Hmin & Hmax).
    destruct (column_sum_spec g N j Hg) as (e & -> & He); [lia | lia |].
    cbn [rbind].
    assert (Hstep1 : exists m2,
      match min_size with
      | Some lo => addConstr m1 (PExpr e) GreaterEqual (inject_Z lo) min_league_size
      | None => Ok m1
      end = Ok m2 /\ extends m1 m2 /\
      forall lo, min_size = Some lo ->
        has_constr m2 GreaterEqual (inject_Z lo)
          (fun x => sumQ N (fun i => x (g_ i j)))).
    { destruct min_size as [lo|].
      - destruct (addConstr_spec m1 e GreaterEqual (inject_Z lo) min_league_size)
          as (m2 & -> & Hext2 & Hin).
        exists m2. split; [reflexivity|]. split; [exact Hext2|].
        intros lo' [= <-]. eexists. split; [exact Hin|]. simpl. auto.
      - exists m1. split; [reflexivity|]. split; [apply extends_refl|].
        intros lo [=]. }
    destruct Hstep1 as (m2 & -> & Hext2 & Hmin2). cbn [rbind].
    assert (Hstep2 : exists m3,
      match max_size with
      | Some hi => addConstr m2 (PExpr e) LessEqual (inject_Z hi) max_league_size
      | None => Ok m2
      end = Ok m3 /\ extends m2 m3 /\
      forall hi, max_size = Some hi ->
        has_constr m3 LessEqual (inject_Z hi)
          (fun x => sumQ N (fun i => x (g_ i j)))).
    { destruct max_size as [hi|].
      - destruct (addConstr_spec m2 e LessEqual (inject_Z hi) max_league_size)
          as (m3 & -> & Hext3 & Hin).
        exists m3. split; [reflexivity|]. split; [exact Hext3|].
        intros hi' [= <-]. eexists. split; [exact Hin|]. simpl. auto.
      - exists m2. split; [reflexivity|]. split; [apply extends_refl|].
        intros hi [=]. }
    destruct Hstep2 as (m3 & -> & Hext3 & Hmax3).
    exists m3. split; [reflexivity|].
    assert (Hext13 : extends m1 m3) by (eapply extends_trans; eauto).
    split; [eapply extends_trans; eauto|]. split.
    + intros lo k Hlo Hk. destruct (decide (k = j)) as [->|Hne].
      * eapply has_constr_extends; [exact Hext3 | auto].
      * eapply has_constr_extends; [exact Hext13|]. apply (Hmin lo k Hlo). lia.
    + intros hi k Hhi Hk. destruct (decide (k = j)) as [->|Hne].
      * auto.
      * eapply has_constr_extends; [exact Hext13|]. apply (Hmax hi k Hhi). lia.
Qed.

Theorem build_model_spec matrix K min_size max_size :
  square matrix -> (1 <= K <= length matrix)%nat ->
  exists g m, build_model matrix K min_size max_size = Ok (g, m) /\
    model_spec matrix K min_size max_size g m.
Proof.
  intros Hsq HK. unfold build_model.
  pose proof (add_vars_spec (length matrix) new_model) as Hv.
  destruct (add_vars (length matrix) new_model) as [g m0].
  destruct Hv as [H1 H2 H3 H4 H5]. simpl in *.
  assert (Hg : covers g (length matrix)).
  { intros i k Hi Hk. rewrite H1.
    replace (i <? length matrix)%nat with true by (symmetry; apply Nat.ltb_lt; lia).
    replace (k <? length matrix)%nat with true by (symmetry; apply Nat.ltb_lt; lia).
    reflexivity. }
  destruct (build_objective_spec matrix g K Hsq Hg) as (obj & -> & Hobj); [lia|].
  cbn [rbind].
  destruct (add_one_group_constrs_spec g (length matrix) K
              (setObjective m0 obj MAXIMIZE) Hg HK) as (m2 & -> & Hext2 & Hone).
  cbn [rbind].
  destruct (add_size_constrs_spec g (length matrix) K min_size max_size m2 Hg HK)
    as (m3 & -> & Hext3 & Hmin & Hmax).
  cbn [rbind]. exists g, m3. split; [reflexivity|].
  pose proof (extends_trans _ _ _ Hext2 Hext3) as (E1 & E2 & E3 & _).
  simpl in *. split; auto.
  - intros i k Hi Hk. rewrite E1. apply H2. right. simpl.
    apply andb_true_iff. split; apply Nat.ltb_lt; lia.
  - intros x. rewrite E2. apply Hobj.
  - intros i Hi. eapply has_constr_extends; [exact Hext3 | auto].
Qed.

(** ** Decoding a solution in which every entity has one group *)

Lemma decode_spec g sol N K a :
  covers g N -> (K <= N)%nat -> decodes (sol_X sol) N K a ->
  exists t2g, decode g (Some sol) N K = Ok t2g /\ length t2g = N /\
    forall i, (i < N)%nat -> t2g !! i = Some (Some (a i)).
Proof.
  intros Hg HK Ha. unfold decode.
  destruct (for_range_inv (fun n (t : list (option nat)) =>
      length t = N /\
      forall i, (i < N)%nat ->
        t !! i = Some (if (i <? n)%nat then Some (a i) else None))
    (fun i t2g =>
       for_each (range K) (fun k (t2g : list (option nat)) =>
         do v <- tget g i k;
         do xv <- var_X (Some sol) v;
         if gt_half xv then
           match t2g !! i with
           | Some None => Ok (<[i := Some k]> t2g)
           | Some (Some _) => Raise AssertionError
           | None => Raise IndexError
           end
         else Ok t2g) t2g)
    N (replicate N None)) as (t & Hrun & Hlen & Ht).
  - split; [apply length_replicate|].
    intros i Hi. simpl. apply lookup_replicate_2. exact Hi.
  - intros i t Hi [Hlen Ht]. destruct (Ha i Hi) as [Hai Hiff].
    destruct (for_range_inv (fun n (t' : list (option nat)) =>
        length t' = N /\
        forall i', (i' < N)%nat ->
          t' !! i' = Some (if (i' <? i)%nat then Some (a i')
                           else if (i' =? i)%nat && (a i <? n)%nat
                                then Some (a i) else None))
      (fun k (t2g : list (option nat)) =>
         do v <- tget g i k;
         do xv <- var_X (Some sol) v;
         if gt_half xv then
           match t2g !! i with
           | Some None => Ok (<[i := Some k]> t2g)
           | Some (Some _) => Raise AssertionError
           | None => Raise IndexError
           end
         else Ok t2g)
      K t) as (t' & Hrun' & Hlen' & Ht').
    + split; [exact Hlen|]. intros i' Hi'. rewrite (Ht i' Hi').
      rewrite andb_false_r. reflexivity.
    + intros k t1 Hk [Hlen1 Ht1].
      rewrite (tget_covers g N i k) by (auto; lia). cbn [rbind var_X].
      destruct (gt_half (sol_X sol (g_ i k))) eqn:E.
      * apply (Hiff k Hk) in E. subst k.
        rewrite (Ht1 i Hi).
        replace (i <? i)%nat with false by (symmetry; apply Nat.ltb_ge; lia).
        rewrite Nat.eqb_refl.
        replace (a i <? a i)%nat with false by (symmetry; apply Nat.ltb_ge; lia).
        simpl. eexists. split; [reflexivity|].
        split; [rewrite length_insert; exact Hlen1|].
        intros i' Hi'. destruct (decide (i' = i)) as [->|Hne].
        -- rewrite list_lookup_insert_eq by lia.
           replace (i <? i)%nat with false by (symmetry; apply Nat.ltb_ge; lia).
           rewrite Nat.eqb_refl.
           replace (a i <? S (a i))%nat with true by (symmetry; apply Nat.ltb_lt; lia).
           reflexivity.
        -- rewrite list_lookup_insert_ne by auto. rewrite (Ht1 i' Hi').
           replace (i' =? i)%nat with false by (symmetry; apply Nat.eqb_neq; lia).
           reflexivity.
      * exists t1. split; [reflexivity|]. split; [exact Hlen1|].
        intros i' Hi'. rewrite (Ht1 i' Hi').
        assert (k <> a i) by (intros Hk'; apply (Hiff k Hk) in Hk'; congruence).
        destruct (i' <? i)%nat; [reflexivity|]. f_equal. same_guard.
    + exists t'. split; [exact Hrun'|]. split; [exact Hlen'|].
      intros i' Hi'. rewrite (Ht' i' Hi').
      destruct (Nat.ltb_spec i' i) as [Hlt|Hge].
      * replace (i' <? S i)%nat with true by (symmetry; apply Nat.ltb_lt; lia).
        reflexivity.
      * destruct (Nat.eqb_spec i' i) as [->|Hne]; simpl.
        -- replace (a i <? K)%nat with true by (symmetry; apply Nat.ltb_lt; lia).
           replace (i <? S i)%nat with true by (symmetry; apply Nat.ltb_lt; lia).
           reflexivity.
        -- replace (i' <? S i)%nat with false by (symmetry; apply Nat.ltb_ge; lia).
           reflexivity.
  - exists t. split; [exact Hrun|]. split; [exact Hlen|].
    intros i Hi. rewrite (Ht i Hi).
    replace (i <? N)%nat with true by (symmetry; apply Nat.ltb_lt; lia).
    reflexivity.
Qed.

(** ** Recomputing the travelled distance *)

Lemma total_distance_spec matrix g sol K a :
  square matrix -> covers g (length matrix) -> (K <= length matrix)%nat ->
  decodes (sol_X sol) (length matrix) K a ->
  exists total,
    total_distance matrix g (Some sol) (length matrix) K = Ok total /\
    total == assignment_cost matrix a.
Proof.
  intros Hsq Hg HK Ha. unfold total_distance, assignment_cost, sum_pairs.
  set (N := length matrix) in *.
  set (u := fun i j =>
    if (a i =? a j)%nat then 2 * cost matrix i j + 2 * cost matrix j i else 0).
  set (row := fun i (n : nat) => sumQ n (fun j => if (i <? j)%nat then u i j else 0)).
  apply (for_range_inv (fun i total => total == sumQ i (fun i' => row i' N))).
  - reflexivity.
  - intros i base Hi Hbase. unfold range_from.
    destruct (for_each_seq_inv
      (fun j total => total == sumQ i (fun i' => row i' N) + row i j)
      (fun j total =>
         for_each (range K) (fun k total =>
           do vi <- tget g i k;
           do xi <- var_X (Some sol) vi;
           if gt_half xi then
             do vj <- tget g j k;
             do xj <- var_X (Some sol) vj;
             if gt_half xj then
               do mij <- mget matrix i j;
               do mji <- mget matrix j i;
               Ok (total + (mij * 2 + mji * 2))
             else Ok total
           else Ok total) total)
      (N - (i + 1)) (i + 1)%nat base) as (total & Hrun & Htotal).
    + rewrite Hbase. unfold row. rewrite (sumQ_zero (i + 1)); [ring|].
      intros j Hj.
      replace (i <? j)%nat with false by (symmetry; apply Nat.ltb_ge; lia).
      reflexivity.
    + intros j acc Hj Hacc.
      destruct (Ha i Hi) as [Hai Hi_iff].
      destruct (Ha j ltac:(lia)) as [Haj Hj_iff].
      destruct (for_range_inv
        (fun k total =>
           total == sumQ i (fun i' => row i' N) + row i j
                    + (if (a i <? k)%nat then u i j else 0))
        (fun k total =>
           do vi <- tget g i k;
           do xi <- var_X (Some sol) vi;
           if gt_half xi then
             do vj <- tget g j k;
             do xj <- var_X (Some sol) vj;
             if gt_half xj then
               do mij <- mget matrix i j;
               do mji <- mget matrix j i;
               Ok (total + (mij * 2 + mji * 2))
             else Ok total
           else Ok total)
        K acc) as (acc' & Hrun' & Hacc').
      * rewrite Hacc. simpl. ring.
      * intros k tot Hk Htot.
        rewrite (tget_covers g N i k) by (auto; lia). cbn [rbind var_X].
        destruct (gt_half (sol_X sol (g_ i k))) eqn:Ei.
        -- apply (Hi_iff k Hk) in Ei. subst k.
           rewrite (tget_covers g N j (a i)) by (auto; lia). cbn [rbind var_X].
           replace (a i <? a i)%nat with false in Htot
             by (symmetry; apply Nat.ltb_ge; lia).
           replace (a i <? S (a i))%nat with true
             by (symmetry; apply Nat.ltb_lt; lia).
           destruct (gt_half (sol_X sol (g_ j (a i)))) eqn:Ej.
           ++ apply (Hj_iff (a i) Hk) in Ej.
              rewrite !mget_square by (auto; lia). cbn [rbind].
              eexists. split; [reflexivity|]. rewrite Htot. unfold u.
              rewrite Ej, Nat.eqb_refl. ring.
           ++ exists tot. split; [reflexivity|]. rewrite Htot. unfold u.
              replace (a i =? a j)%nat with false; [ring|].
              symmetry. apply Nat.eqb_neq. intros E.
              apply (Hj_iff (a i) Hk) in E. congruence.
        -- exists tot. split; [reflexivity|]. rewrite Htot.
           assert (k <> a i) by (intros Hk'; apply (Hi_iff k Hk) in Hk'; congruence).
           replace (a i <? S k)%nat with (a i <? k)%nat; [reflexivity|].
           destruct (Nat.ltb_spec (a i) k), (Nat.ltb_spec (a i) (S k)); auto; lia.
      * exists acc'. split; [exact Hrun'|]. rewrite Hacc'.
        replace (a i <? K)%nat with true by (symmetry; apply Nat.ltb_lt; lia).
        change (row i (S j)) with (row i j + (if (i <? j)%nat then u i j else 0)).
        replace (i <? j)%nat with true by (symmetry; apply Nat.ltb_lt; lia).
        ring.
    + exists total. split; [exact Hrun|].
      replace (i + 1 + (N - (i + 1)))%nat with N in Htotal by lia.
      rewrite Htotal. simpl. reflexivity.
Qed.

(** ** Feasible solutions *)

Lemma gt_half_spec q : gt_half q = true <-> (1 # 2) < q.
Proof.
  unfold gt_half. rewrite negb_true_iff. split.
  - intros H. apply Qnot_le_lt. intros Hle.
    apply Qle_bool_iff in Hle. congruence.
  - intros H. destruct (Qle_bool q (1 # 2)) eqn:E; [|reflexivity].
    apply Qle_bool_iff in E. exfalso. eapply Qlt_not_le; eauto.
Qed.

Lemma gt_half_one q : q == 1 -> gt_half q = true.
Proof. intros E. apply gt_half_spec. rewrite E. reflexivity. Qed.

Lemma gt_half_zero q : q == 0 -> gt_half q = false.
Proof.
  intros E. destruct (gt_half q) eqn:G; [|reflexivity].
  apply gt_half_spec in G. rewrite E in G. discriminate.
Qed.

Lemma is_binary_spec q : is_binary q = true <-> q == 0 \/ q == 1.
Proof.
  unfold is_binary. rewrite orb_true_iff, !Qeq_bool_iff. reflexivity.
Qed.

Lemma feasible_binary m x v :
  feasible m x = true -> In v (m_vars m) -> x v == 0 \/ x v == 1.
Proof.
  unfold feasible. rewrite andb_true_iff, !forallb_forall.
  intros [Hb _] Hv. apply is_binary_spec. apply Hb. exact Hv.
Qed.

Lemma feasible_equal m x rhs lhs :
  feasible m x = true -> has_constr m Equal rhs lhs -> lhs x == rhs.
Proof.
  unfold feasible. rewrite andb_true_iff, !forallb_forall.
  intros [_ Hc] (c & Hin & Hs & Hr & He).
  specialize (Hc c Hin). unfold satisfies in Hc. rewrite Hs in Hc.
  apply Qeq_bool_iff in Hc. rewrite <- He, <- Hr. exact Hc.
Qed.

Lemma feasible_greater m x rhs lhs :
  feasible m x = true -> has_constr m GreaterEqual rhs lhs -> rhs <= lhs x.
Proof.
  unfold feasible. rewrite andb_true_iff, !forallb_forall.
  intros [_ Hc] (c & Hin & Hs & Hr & He).
  specialize (Hc c Hin). unfold satisfies in Hc. rewrite Hs in Hc.
  apply Qle_bool_iff in Hc. rewrite <- He, <- Hr. exact Hc.
Qed.

Lemma feasible_less m x rhs lhs :
  feasible m x = true -> has_constr m LessEqual rhs lhs -> lhs x <= rhs.
Proof.
  unfold feasible. rewrite andb_true_iff, !forallb_forall.
  intros [_ Hc] (c & Hin & Hs & Hr & He).
  specialize (Hc c Hin). unfold satisfies in Hc. rewrite Hs in Hc.
  apply Qle_bool_iff in Hc. rewrite <- He, <- Hr. exact Hc.
Qed.

Lemma sumQ_binary_nonneg n (f : nat -> Q) :
  (forall k, (k < n)%nat -> f k == 0 \/ f k == 1) -> 0 <= sumQ n f.
Proof.
  induction n as [|n IH]; intros Hb; simpl.
  - apply Qle_refl.
  - assert (0 <= sumQ n f) by (apply IH; intros; apply Hb; lia).
    assert (0 <= f n) by (destruct (Hb n) as [E|E]; [lia | | ]; rewrite E; discriminate).
    replace 0 with (0 + 0) by reflexivity. apply Qplus_le_compat; assumption.
Qed.

Lemma sumQ_binary_zero n (f : nat -> Q) :
  (forall k, (k < n)%nat -> f k == 0 \/ f k == 1) -> sumQ n f == 0 ->
  forall k, (k < n)%nat -> f k == 0.
Proof.
  induction n as [|n IH]; intros Hb Hs k Hk; [lia|]. simpl in Hs.
  assert (Hn : 0 <= sumQ n f) by (apply sumQ_binary_nonneg; intros; apply Hb; lia).
  destruct (Hb n) as [E|E]; [lia | |].
  - rewrite E, Qplus_0_r in Hs.
    destruct (decide (k = n)) as [->|Hne]; [exact E|].
    apply IH; [intros; apply Hb; lia | exact Hs | lia].
  - exfalso. rewrite E in Hs.
    assert (Hlt : 0 < sumQ n f + 1).
    { apply Qlt_le_trans with (0 + 1); [reflexivity|].
      apply Qplus_le_compat; [exact Hn | apply Qle_refl]. }
    rewrite Hs in Hlt. discriminate.
Qed.

Lemma sumQ_binary_one n (f : nat -> Q) :
  (forall k, (k < n)%nat -> f k == 0 \/ f k == 1) -> sumQ n f == 1 ->
  exists k, (k < n)%nat /\
    forall k', (k' < n)%nat -> f k' == if (k' =? k)%nat then 1 else 0.
Proof.
  induction n as [|n IH]; intros Hb Hs; simpl in Hs; [discriminate|].
  destruct (Hb n) as [E|E]; [lia | |].
  - rewrite E, Qplus_0_r in Hs.
    destruct IH as (k & Hk & Hrest); [intros; apply Hb; lia | exact Hs |].
    exists k. split; [lia|]. intros k' Hk'.
    destruct (decide (k' = n)) as [->|Hne].
    + replace (n =? k)%nat with false by (symmetry; apply Nat.eqb_neq; lia).
      exact E.
    + apply Hrest. lia.
  - assert (Hz : sumQ n f == 0).
    { rewrite E in Hs. rewrite <- (Qplus_inj_r _ _ 1). rewrite Hs. reflexivity. }
    exists n. split; [lia|]. intros k' Hk'.
    destruct (Nat.eqb_spec k' n) as [->|Hne]; [exact E|].
    apply (sumQ_binary_zero n f); [intros; apply Hb; lia | exact Hz | lia].
Qed.

Lemma indicator_decodes x N K a : indicator x N K a -> decodes x N K a.
Proof.
  intros Hind i Hi. destruct (Hind i Hi) as [Hai Hrow]. split; [exact Hai|].
  intros k Hk. specialize (Hrow k Hk).
  destruct (decide (k = a i)) as [E|Hne].
  - rewrite <- E, Nat.eqb_refl in Hrow.
    split; [intros _; exact E|]. intros _. apply gt_half_one. exact Hrow.
  - replace (k =? a i)%nat with false in Hrow
      by (symmetry; apply Nat.eqb_neq; exact Hne).
    rewrite (gt_half_zero _ Hrow). split; [discriminate | contradiction].
Qed.

Lemma group_of_unique x K i k :
  (k < K)%nat ->
  (forall k', (k' < K)%nat -> x (g_ i k') == if (k' =? k)%nat then 1 else 0) ->
  group_of x K i = k.
Proof.
  intros Hk Hrow. unfold group_of, range.
  destruct (find (fun k0 => gt_half (x (g_ i k0))) (seq 0 K)) as [k'|] eqn:F.
  - apply find_some in F. destruct F as [Hin Hgt]. apply in_seq in Hin.
    simpl. specialize (Hrow k' ltac:(lia)).
    destruct (decide (k' = k)) as [E|Hne]; [exact E|].
    replace (k' =? k)%nat with false in Hrow
      by (symmetry; apply Nat.eqb_neq; exact Hne).
    rewrite (gt_half_zero _ Hrow) in Hgt. discriminate.
  - exfalso. pose proof (find_none _ _ F k) as Hnone.
    assert (Hin : In k (seq 0 K)) by (apply in_seq; lia).
    specialize (Hnone Hin). simpl in Hnone.
    rewrite gt_half_one in Hnone; [discriminate|].
    rewrite (Hrow k Hk), Nat.eqb_refl. reflexivity.
Qed.

Theorem feasible_indicator matrix K min_size max_size g m x :
  model_spec matrix K min_size max_size g m -> (K <= length matrix)%nat ->
  feasible m x = true ->
  indicator x (length matrix) K (group_of x K).
Proof.
  intros Hm HK Hf i Hi.
  pose proof (feasible_equal m x _ _ Hf (ms_one_group _ _ _ _ _ _ Hm i Hi)) as Hsum.
  simpl in Hsum.
  destruct (sumQ_binary_one K (fun k => x (g_ i k))) as (k & Hk & Hrow).
  - intros k Hk. apply (feasible_binary m x _ Hf).
    apply (ms_vars _ _ _ _ _ _ Hm); lia.
  - exact Hsum.
  - rewrite (group_of_unique x K i k Hk Hrow). split; [exact Hk | exact Hrow].
Qed.

(** ** Assignments, group sizes and objective values *)

Lemma brute_force_assignment matrix t2g a :
  length t2g = length matrix ->
  (forall i, (i < length matrix)%nat -> t2g !! i = Some (Some (a i))) ->
  brute_force_cost matrix t2g == assignment_cost matrix a.
Proof.
  intros Hlen Ht. unfold brute_force_cost, assignment_cost. rewrite Hlen.
  apply sum_pairs_ext. intros i j Hij. unfold same_group.
  rewrite (Ht i), (Ht j) by lia. reflexivity.
Qed.

Lemma count_upto_ext n (p q : nat -> bool) :
  (forall i, (i < n)%nat -> p i = q i) -> count_upto n p = count_upto n q.
Proof.
  induction n as [|n IH]; intros E; simpl; [reflexivity|].
  rewrite IH by (intros; apply E; lia). rewrite (E n) by lia. reflexivity.
Qed.

Lemma group_size_assignment (t2g : list (option nat)) a k :
  (forall i, (i < length t2g)%nat -> t2g !! i = Some (Some (a i))) ->
  group_size t2g k = count_upto (length t2g) (fun i => (a i =? k)%nat).
Proof.
  intros Ht. unfold group_size. apply count_upto_ext. intros i Hi.
  rewrite (Ht i Hi). destruct (Nat.eqb_spec (a i) k) as [E|E].
  - apply bool_decide_eq_true. congruence.
  - apply bool_decide_eq_false. congruence.
Qed.

Lemma column_sum_count x n a k :
  (forall i, (i < n)%nat -> x (g_ i k) == if (k =? a i)%nat then 1 else 0) ->
  sumQ n (fun i => x (g_ i k))
  == inject_Z (Z.of_nat (count_upto n (fun i => (a i =? k)%nat))).
Proof.
  induction n as [|n IH]; intros Hx; simpl; [reflexivity|].
  rewrite IH by (intros; apply Hx; lia). rewrite (Hx n) by lia.
  rewrite Nat2Z.inj_add, inject_Z_plus, (Nat.eqb_sym k (a n)).
  destruct (a n =? k)%nat; reflexivity.
Qed.

Lemma sumQ_single n k (c : Q) :
  (k < n)%nat -> sumQ n (fun k' => if (k' =? k)%nat then c else 0) == c.
Proof.
  induction n as [|n IH]; intros Hk; [lia|]. simpl.
  destruct (Nat.eqb_spec n k) as [E|E].
  - rewrite sumQ_zero; [ring|]. intros k' Hk'.
    replace (k' =? k)%nat with false by (symmetry; apply Nat.eqb_neq; lia).
    reflexivity.
  - rewrite IH by lia. ring.
Qed.

Lemma co_membership_indicator x N K a i j :
  indicator x N K a -> (i < N)%nat -> (j < N)%nat ->
  sumQ K (fun k => x (g_ i k) * x (g_ j k))
  == if (a i =? a j)%nat then 1 else 0.
Proof.
  intros Hind Hi Hj.
  destruct (Hind i Hi) as [Hai Hrow_i]. destruct (Hind j Hj) as [Haj Hrow_j].
  rewrite (sumQ_ext K _ (fun k =>
    if (k =? a i)%nat then (if (a i =? a j)%nat then 1 else 0) else 0)).
  - apply sumQ_single. exact Hai.
  - intros k Hk. rewrite (Hrow_i k Hk), (Hrow_j k Hk).
    destruct (Nat.eqb_spec k (a i)) as [E|E].
    + rewrite <- E. destruct (k =? a j)%nat; reflexivity.
    + ring.
Qed.

Lemma objective_indicator matrix K a x :
  indicator x (length matrix) K a ->
  round_trip_objective matrix K x == avoided_cost matrix a.
Proof.
  intros Hind. unfold round_trip_objective, avoided_cost.
  apply sum_pairs_ext. intros i j Hij.
  rewrite (co_membership_indicator x (length matrix) K a i j Hind) by lia.
  destruct (a i =? a j)%nat; ring.
Qed.

Lemma group_sizes_within_bounds matrix K min_size max_size g m x t2g k :
  model_spec matrix K min_size max_size g m -> (K <= length matrix)%nat ->
  feasible m x = true ->
  length t2g = length matrix ->
  (forall i, (i < length matrix)%nat -> t2g !! i = Some (Some (group_of x K i))) ->
  (k < K)%nat ->
  within_bounds min_size max_size (group_size t2g k).
Proof.
  intros Hm HK Hf Hlen Ht Hk.
  pose proof (feasible_indicator _ _ _ _ _ _ _ Hm HK Hf) as Hind.
  assert (Hsum : sumQ (length matrix) (fun i => x (g_ i k))
                 == inject_Z (Z.of_nat (group_size t2g k))).
  { rewrite (group_size_assignment t2g (group_of x K) k)
      by (rewrite Hlen; exact Ht).
    rewrite Hlen. apply column_sum_count. intros i Hi.
    apply (proj2 (Hind i Hi) k Hk). }
  split.
  - intros lo Hlo. rewrite Zle_Qle, <- Hsum.
    apply (feasible_greater m x _ _ Hf (ms_min _ _ _ _ _ _ Hm lo k Hlo Hk)).
  - intros hi Hhi. rewrite Zle_Qle, <- Hsum.
    apply (feasible_less m x _ _ Hf (ms_max _ _ _ _ _ _ Hm hi k Hhi Hk)).
Qed.

Lemma feasible_counts matrix K min_size max_size g m x k :
  model_spec matrix K min_size max_size g m -> (K <= length matrix)%nat ->
  feasible m x = true -> (k < K)%nat ->
  within_bounds min_size max_size
    (count_upto (length matrix) (fun i => (group_of x K i =? k)%nat)).
Proof.
  intros Hm HK Hf Hk.
  pose (t2g := map (fun i => Some (group_of x K i)) (seq 0 (length matrix))).
  assert (Hlen : length t2g = length matrix)
    by (unfold t2g; rewrite length_map, length_seq; reflexivity).
  assert (Ht : forall i, (i < length matrix)%nat ->
                         t2g !! i = Some (Some (group_of x K i))).
  { intros i Hi. unfold t2g. rewrite list_lookup_fmap.
    rewrite lookup_seq_lt by exact Hi. reflexivity. }
  pose proof (group_sizes_within_bounds matrix K min_size max_size g m x t2g k
                Hm HK Hf Hlen Ht Hk) as Hb.
  rewrite (group_size_assignment t2g (group_of x K) k) in Hb
    by (rewrite Hlen; exact Ht).
  rewrite Hlen in Hb. exact Hb.
Qed.

(** ** Running [optimize_ab] *)

Lemma one_group_decodes x N K :
  (forall i, (i < N)%nat -> one_group x K i) -> decodes x N K (group_of x K).
Proof.
  intros Hone i Hi. destruct (Hone i Hi) as (k & Hk & Hgt & Huniq).
  assert (E : group_of x K i = k).
  { unfold group_of, range.
    destruct (find (fun k0 => gt_half (x (g_ i k0))) (seq 0 K)) as [k'|] eqn:F.
    - apply find_some in F. destruct F as [Hin Hgt']. apply in_seq in Hin.
      simpl. apply Huniq; [lia | exact Hgt'].
    - pose proof (find_none _ _ F k) as Hnone.
      assert (Hin : In k (seq 0 K)) by (apply in_seq; lia).
      specialize (Hnone Hin). simpl in Hnone. congruence. }
  rewrite E. split; [exact Hk|]. intros k' Hk'. split.
  - apply Huniq. exact Hk'.
  - intros ->. exact Hgt.
Qed.

Lemma optimize_ab_run solver matrix K min_size max_size calls g m sol a :
  square matrix -> (1 <= K <= length matrix)%nat ->
  build_model matrix K min_size max_size = Ok (g, m) ->
  solver m = Some sol ->
  decodes (sol_X sol) (length matrix) K a ->
  exists t2g total,
    optimize_ab solver matrix K min_size max_size calls
      = (Ok (t2g, total), calls ++ [m]) /\
    length t2g = length matrix /\
    (forall i, (i < length matrix)%nat -> t2g !! i = Some (Some (a i))) /\
    total == assignment_cost matrix a.
Proof.
  intros Hsq HK Hbuild Hsolve Ha.
  destruct (build_model_spec matrix K min_size max_size Hsq HK)
    as (g' & m' & Hbuild' & Hspec).
  rewrite Hbuild in Hbuild'. injection Hbuild' as <- <-.
  pose proof (ms_covers _ _ _ _ _ _ Hspec) as Hg.
  destruct (decode_spec g sol (length matrix) K a Hg ltac:(lia) Ha)
    as (t2g & Hdec & Hlen & Ht).
  destruct (total_distance_spec matrix g sol K a Hsq Hg ltac:(lia) Ha)
    as (total & Htot & Etot).
  exists t2g, total. unfold optimize_ab.
  rewrite Hbuild, Hsolve, Hdec. cbn [rbind]. rewrite Htot. cbn [rbind].
  auto.
Qed.

Lemma optimize_ab_feasible solver matrix K min_size max_size calls g m sol :
  square matrix -> (1 <= K <= length matrix)%nat ->
  build_model matrix K min_size max_size = Ok (g, m) ->
  solver m = Some sol ->
  feasible m (sol_X sol) = true ->
  model_spec matrix K min_size max_size g m /\
  indicator (sol_X sol) (length matrix) K (group_of (sol_X sol) K) /\
  exists t2g total,
    optimize_ab solver matrix K min_size max_size calls
      = (Ok (t2g, total), calls ++ [m]) /\
    length t2g = length matrix /\
    (forall i, (i < length matrix)%nat ->
       t2g !! i = Some (Some (group_of (sol_X sol) K i))) /\
    total == assignment_cost matrix (group_of (sol_X sol) K).
Proof.
  intros Hsq HK Hbuild Hsolve Hf.
  destruct (build_model_spec matrix K min_size max_size Hsq HK)
    as (g' & m' & Hbuild' & Hspec).
  rewrite Hbuild in Hbuild'. injection Hbuild' as <- <-.
  pose proof (feasible_indicator _ _ _ _ _ _ _ Hspec ltac:(lia) Hf) as Hind.
  split; [exact Hspec|]. split; [exact Hind|].
  eapply optimize_ab_run; eauto. apply indicator_decodes. exact Hind.
Qed.

(** ** Facts about the sample inputs *)

Lemma square_two_teams : square two_teams.
Proof. unfold square, two_teams. repeat constructor. Qed.

Lemma square_four_teams : square four_teams.
Proof. unfold square, four_teams. repeat constructor. Qed.

Lemma alternating_one_group i : one_group (sol_X alternating) 2 i.
Proof.
  unfold one_group, alternating. simpl. unfold Nat.odd.
  destruct (Nat.even i) eqn:E.
  - exists O. split; [lia|]. split; [reflexivity|].
    intros [|[|k']] Hk' H; [reflexivity | discriminate H | lia].
  - exists 1%nat. split; [lia|]. split; [reflexivity|].
    intros [|[|k']] Hk' H; [discriminate H | reflexivity | lia].
Qed.

Lemma reference_solver_sound sol : sound (reference_solver sol).
Proof.
  intros m s. unfold reference_solver.
  destruct (feasible m (sol_X sol)) eqn:E; [|discriminate].
  intros [= <-]. exact E.
Qed.

Lemma balanced_four_costs (a : nat -> nat) :
  (forall i, (i < 4)%nat -> (a i < 2)%nat) ->
  count_upto 4 (fun i => (a i =? 0)%nat) = 2%nat ->
  assignment_cost four_teams a == 8 /\ avoided_cost four_teams a == 16.
Proof.
  intros Hlt Hcount.
  pose proof (Hlt 0%nat ltac:(lia)) as H0. pose proof (Hlt 1%nat ltac:(lia)) as H1.
  pose proof (Hlt 2%nat ltac:(lia)) as H2. pose proof (Hlt 3%nat ltac:(lia)) as H3.
  unfold assignment_cost, avoided_cost, sum_pairs. simpl in *.
  destruct (a 0%nat) as [|[|?]]; [| |lia];
  destruct (a 1%nat) as [|[|?]]; [| |lia | | |lia];
  destruct (a 2%nat) as [|[|?]]; try lia;
  destruct (a 3%nat) as [|[|?]]; try lia;
  simpl in Hcount; try discriminate Hcount;
  split; vm_compute; reflexivity.
Qed.

Lemma balanced_split_feasible a :
  balanced_split a ->
  feasible (snd (built four_teams 2 (Some 2%Z) (Some 2%Z)))
    (sol_X (split_solution a)) = true.
Proof.
  intros [Hlt Hcount].
  pose proof (Hlt 0%nat ltac:(lia)) as H0. pose proof (Hlt 1%nat ltac:(lia)) as H1.
  pose proof (Hlt 2%nat ltac:(lia)) as H2. pose proof (Hlt 3%nat ltac:(lia)) as H3.
  simpl in Hcount.
  assert (E : snd (built four_teams 2 (Some 2%Z) (Some 2%Z))
              = snd (built four_teams 2 (Some 2%Z) (Some 2%Z))) by reflexivity.
  revert E. generalize (snd (built four_teams 2 (Some 2%Z) (Some 2%Z))) at 1 3.
  intros m E. vm_compute in E. subst m.
  unfold feasible, split_solution, satisfies, is_binary.
  cbn -[Qeq_bool Qle_bool Qplus Nat.eqb].
  destruct (a 0%nat) as [|[|?]]; [| |lia];
  destruct (a 1%nat) as [|[|?]]; [| |lia | | |lia];
  destruct (a 2%nat) as [|[|?]]; try lia;
  destruct (a 3%nat) as [|[|?]]; try lia;
  simpl in Hcount; try discriminate Hcount; vm_compute; reflexivity.
Qed.

(** ** When building the model fails *)

Lemma for_each_raises {St A : Type} (l : list A) (body : A -> St -> result St) a :
  In a l -> (forall s, exists e, body a s = Raise e) ->
  forall s, exists e, for_each l body s = Raise e.
Proof.
  induction l as [|b l IH]; intros Hin Hbody s; [destruct Hin|].
  simpl. destruct Hin as [->|Hin].
  - destruct (Hbody s) as [e ->]. exists e. reflexivity.
  - destruct (body b s) as [s1|e]; simpl; [apply IH; assumption | eauto].
Qed.

Lemma add_one_group_constrs_raises g N K m :
  (forall k, (N <= k)%nat -> g !! (O, k) = None) ->
  (1 <= N)%nat -> (N < K)%nat ->
  exists e, add_one_group_constrs g N K m = Raise e.
Proof.
  intros Hg HN HK. unfold add_one_group_constrs.
  apply (for_each_raises _ _ O); [apply in_seq; lia|].
  intros m1.
  destruct (for_each_raises (range K)
    (fun j su => do v <- tget g O j; Ok (padd su (PExpr (EVar v)))) N)
    with (s := PNum 0) as [e ->].
  - apply in_seq. lia.
  - intros su. unfold tget. rewrite (Hg N) by lia. simpl. eauto.
  - simpl. eauto.
Qed.

Lemma build_model_ok_bounds matrix K min_size max_size g m :
  build_model matrix K min_size max_size = Ok (g, m) ->
  length matrix = O \/ (K <= length matrix)%nat.
Proof.
  intros Hbuild.
  destruct (decide (length matrix = O)) as [|HN]; [left; assumption|].
  destruct (decide (K <= length matrix)%nat) as [|HK]; [right; assumption|].
  exfalso. unfold build_model in Hbuild.
  pose proof (add_vars_spec (length matrix) new_model) as Hv.
  destruct (add_vars (length matrix) new_model) as [g0 m0].
  destruct Hv as [H1 _ _ _ _]. simpl in H1.
  destruct (build_objective matrix g0 (length matrix) K) as [obj|e];
    [|discriminate]. cbn [rbind] in Hbuild.
  destruct (add_one_group_constrs_raises g0 (length matrix) K
              (setObjective m0 obj MAXIMIZE)) as [e He].
  - intros k Hk. rewrite H1.
    replace (k <? length matrix)%nat with false by (symmetry; apply Nat.ltb_ge; lia).
    rewrite andb_false_r. reflexivity.
  - lia.
  - lia.
  - rewrite He in Hbuild. discriminate.
Qed.

Lemma build_model_ok_bounds_pos matrix K min_size max_size g m :
  build_model matrix K min_size max_size = Ok (g, m) -> (1 <= K)%nat ->
  length matrix = O \/ (1 <= K <= length matrix)%nat.
Proof.
  intros Hbuild HK. destruct (build_model_ok_bounds _ _ _ _ _ _ Hbuild); lia.
Qed.

Lemma optimize_ab_no_teams solver matrix K min_size max_size calls g m :
  length matrix = O ->
  build_model matrix K min_size max_size = Ok (g, m) ->
  optimize_ab solver matrix K min_size max_size calls
    = (Ok ([], 0), calls ++ [m]).
Proof.
  intros HN Hbuild. unfold optimize_ab. rewrite Hbuild, HN. reflexivity.
Qed.

Lemma decode_without_solution g N K :
  covers g N -> (1 <= K <= N)%nat ->
  decode g None N K = Raise GurobiError.
Proof.
  intros Hg HK. unfold decode, range.
  destruct N as [|N]; [lia|]. destruct K as [|K]; [lia|].
  simpl. rewrite (tget_covers g (S N) O O Hg) by lia. reflexivity.
Qed.

(** ** Entities without a group above the threshold *)

Lemma for_each_seq_post {St : Type} (I : nat -> St -> Prop)
    (body : nat -> St -> result St) :
  forall len a s s',
    I a s ->
    (forall i t t', (a <= i < a + len)%nat -> I i t -> body i t = Ok t' ->
                    I (S i) t') ->
    for_each (seq a len) body s = Ok s' ->
    I (a + len)%nat s'.
Proof.
  induction len as [|len IH]; intros a s s' Ha Hstep Hrun; simpl in Hrun.
  - injection Hrun as <-. rewrite Nat.add_0_r. exact Ha.
  - destruct (body a s) as [s1|e] eqn:Hb; [|discriminate]. simpl in Hrun.
    replace (a + S len)%nat with (S a + len)%nat by lia.
    apply (IH (S a) s1 s'); [| |exact Hrun].
    + apply (Hstep a s s1); [lia | exact Ha | exact Hb].
    + intros i t t' Hi. apply Hstep. lia.
Qed.

Lemma decode_unassigned g sol N K i t2g :
  covers g N -> (K <= N)%nat -> (i < N)%nat ->
  (forall k, (k < K)%nat -> gt_half (sol_X sol (g_ i k)) = false) ->
  decode g (Some sol) N K = Ok t2g ->
  t2g !! i = Some None.
Proof.
  intros Hg HK Hi Hlow Hrun. unfold decode, range in Hrun.
  apply (for_each_seq_post (fun _ (t : list (option nat)) => t !! i = Some None)
           _ N O _ t2g) in Hrun; [exact Hrun | |].
  - apply lookup_replicate_2. exact Hi.
  - intros i' t t' Hi' Ht Hinner.
    apply (for_each_seq_post (fun _ (t : list (option nat)) => t !! i = Some None)
             _ K O _ t') in Hinner; [exact Hinner | exact Ht |].
    intros k t1 t2 Hk Ht1 Hstep.
    rewrite (tget_covers g N i' k) in Hstep by (auto; lia).
    cbn [rbind var_X] in Hstep.
    destruct (decide (i' = i)) as [->|Hne].
    + rewrite Hlow in Hstep by lia. injection Hstep as <-. exact Ht1.
    + destruct (gt_half (sol_X sol (g_ i' k))).
      * destruct (t1 !! i') as [[?|]|]; try discriminate.
        injection Hstep as <-. rewrite list_lookup_insert_ne by auto. exact Ht1.
      * injection Hstep as <-. exact Ht1.
Qed.

(** ** The generated matrix *)

Lemma random_coordinates_length rng randint n r :
  length (fst (random_coordinates rng randint n r)) = n.
Proof.
  revert r. induction n as [|n IH]; intros r; simpl; [reflexivity|].
  destruct (randint 48%Z 55%Z r) as [lat r1].
  destruct (randint 6%Z 15%Z r1) as [lon r2].
  specialize (IH r2). destruct (random_coordinates rng randint n r2) as [rest r3].
  simpl in *. rewrite IH. reflexivity.
Qed.

Lemma lget_lookup {A : Type} (l : list A) i (d : A) :
  (i < length l)%nat -> lget l i = Ok (default d (l !! i)).
Proof.
  intros Hi. unfold lget. destruct (lookup_lt_is_Some_2 l i Hi) as [a ->].
  reflexivity.
Qed.

Lemma mset_filled n cell done matrix i j v :
  filled n cell done matrix -> (i < n)%nat -> (j < n)%nat -> v = cell i j ->
  exists matrix', mset matrix i j v = Ok matrix' /\
    filled n cell (fun i' j' => done i' j' || (i' =? i)%nat && (j' =? j)%nat)
      matrix'.
Proof.
  intros [Hlen Hrows] Hi Hj ->.
  destruct (Hrows i Hi) as (row & Hrow & Hrlen & Hcells).
  unfold mset, lget. rewrite Hrow. cbn [rbind].
  replace (j <? length row)%nat with true by (symmetry; apply Nat.ltb_lt; lia).
  eexists. split; [reflexivity|]. split; [rewrite length_insert; exact Hlen|].
  intros i' Hi'. destruct (decide (i' = i)) as [->|Hne].
  - exists (<[j := cell i j]> row).
    split; [apply list_lookup_insert_eq; lia|].
    split; [rewrite length_insert; exact Hrlen|].
    intros j' Hj'. rewrite Nat.eqb_refl. destruct (decide (j' = j)) as [->|Hnj].
    + rewrite list_lookup_insert_eq by lia. rewrite Nat.eqb_refl, orb_true_r.
      reflexivity.
    + rewrite list_lookup_insert_ne by auto. rewrite (Hcells j' Hj').
      replace (j' =? j)%nat with false by (symmetry; apply Nat.eqb_neq; lia).
      rewrite orb_false_r. reflexivity.
  - destruct (Hrows i' Hi') as (row' & Hrow' & Hrlen' & Hcells').
    exists row'. split; [rewrite list_lookup_insert_ne by auto; exact Hrow'|].
    split; [exact Hrlen'|]. intros j' Hj'. rewrite (Hcells' j' Hj').
    replace (i' =? i)%nat with false by (symmetry; apply Nat.eqb_neq; lia).
    rewrite orb_false_r. reflexivity.
Qed.

Lemma filled_ext n cell done done' matrix :
  (forall i j, (i < n)%nat -> (j < n)%nat -> done i j = done' i j) ->
  filled n cell done matrix -> filled n cell done' matrix.
Proof.
  intros E [Hlen Hrows]. split; [exact Hlen|]. intros i Hi.
  destruct (Hrows i Hi) as (row & Hrow & Hrlen & Hcells).
  exists row. split; [exact Hrow|]. split; [exact Hrlen|].
  intros j Hj. rewrite <- (E i j Hi Hj). apply Hcells. exact Hj.
Qed.

Lemma example_matrix_filled geodesic_meters rng randint n r :
  exists matrix,
    fst (example_matrix geodesic_meters rng randint n Distance_straight_line r)
      = Ok matrix /\
    filled n
      (straight_line_cell geodesic_meters
         (fst (random_coordinates rng randint n r)))
      (fun _ _ => true) matrix.
Proof.
  unfold example_matrix.
  rewrite bool_decide_eq_true_2
    by (unfold METRICS; apply list_elem_of_In; simpl; auto).
  pose proof (random_coordinates_length rng randint n r) as Hclen.
  destruct (random_coordinates rng randint n r) as [coordinates r'].
  simpl in Hclen. simpl.
  set (cell := straight_line_cell geodesic_meters coordinates).
  destruct (for_range_inv
    (fun i matrix => filled n cell (fun i' _ => (i' <? i)%nat) matrix)
    (fun i matrix =>
       for_each (range n) (fun j matrix =>
         do v <- (if (i =? j)%nat then Ok (Py.VNum 0)
                  else
                    do ci <- lget coordinates i;
                    do cj <- lget coordinates j;
                    call_metric geodesic_meters Distance_straight_line ci cj);
         mset matrix i j v) matrix)
    n (replicate n (replicate n Py.VNone))) as (matrix & Hrun & Hfilled).
  - split; [apply length_replicate|]. intros i Hi.
    exists (replicate n Py.VNone). split; [apply lookup_replicate_2; exact Hi|].
    split; [apply length_replicate|]. intros j Hj.
    apply lookup_replicate_2. exact Hj.
  - intros i matrix Hi Hfilled.
    destruct (for_range_inv
      (fun j matrix =>
         filled n cell (fun i' j' => (i' <? i)%nat || (i' =? i)%nat && (j' <? j)%nat)
           matrix)
      (fun j matrix =>
         do v <- (if (i =? j)%nat then Ok (Py.VNum 0)
                  else
                    do ci <- lget coordinates i;
                    do cj <- lget coordinates j;
                    call_metric geodesic_meters Distance_straight_line ci cj);
         mset matrix i j v)
      n matrix) as (matrix' & Hrun' & Hfilled').
    + eapply filled_ext; [|exact Hfilled]. intros i' j' _ _. simpl.
      rewrite andb_false_r, orb_false_r. reflexivity.
    + intros j acc Hj Hacc.
      assert (Hv : (if (i =? j)%nat then Ok (Py.VNum 0)
                    else
                      do ci <- lget coordinates i;
                      do cj <- lget coordinates j;
                      call_metric geodesic_meters Distance_straight_line ci cj)
                   = Ok (cell i j)).
      { unfold cell, straight_line_cell. destruct (i =? j)%nat; [reflexivity|].
        rewrite (lget_lookup coordinates i (0%Z, 0%Z)) by lia.
        rewrite (lget_lookup coordinates j (0%Z, 0%Z)) by lia.
        reflexivity. }
      rewrite Hv. cbn [rbind].
      destruct (mset_filled n cell _ acc i j (cell i j) Hacc Hi Hj eq_refl)
        as (acc' & -> & Hacc').
      exists acc'. split; [reflexivity|].
      eapply filled_ext; [|exact Hacc']. intros i' j' _ _. simpl.
      apply Bool.eq_iff_eq_true. bool_lia.
    + exists matrix'. split; [exact Hrun'|].
      eapply filled_ext; [|exact Hfilled']. intros i' j' _ Hj'. simpl.
      apply Bool.eq_iff_eq_true. bool_lia.
  - exists matrix. split; [exact Hrun|].
    eapply filled_ext; [|exact Hfilled]. intros i' j' Hi' _. simpl.
    apply Nat.ltb_lt. exact Hi'.
Qed.

Lemma grid_distance_nonneg s e : 0 <= grid_distance s e.
Proof. unfold grid_distance, Qle. simpl. lia. Qed.

Lemma grid_distance_sym s e : grid_distance s e == grid_distance e s.
Proof. unfold grid_distance, Qeq. simpl. lia. Qed.

(** * The claims *)

(** C1, as stated, fails: on the matrix [[0,1],[1,0]] with one group and
    all variables at 0 the objective that is built evaluates to 4, the
    objective of the specification to 2. *)
Lemma objective_not_spec_coefficient :
  exists g m,
    build_model two_teams 1 None None = Ok (g, m) /\
    ~ peval (sol_X all_zero) (m_objective m)
      == spec_objective two_teams 1 (sol_X all_zero).
Proof.
  eexists. eexists. split; [vm_compute; reflexivity|].
  vm_compute. discriminate.
Qed.

(** C1, amended: the model submitted to the solver maximizes the sum over
    all pairs i<j of (1 - sum_k x[i,k]*x[j,k]) * (2*cost[i][j] + 2*cost[j][i]):
    the coefficient of a pair is twice the one the specification states,
    and so is the value of the objective. *)
Theorem objective_round_trip_coefficient solver matrix K min_size max_size calls :
  square matrix -> (1 <= K <= length matrix)%nat ->
  exists g m,
    build_model matrix K min_size max_size = Ok (g, m) /\
    snd (optimize_ab solver matrix K min_size max_size calls) = calls ++ [m] /\
    m_sense m = MAXIMIZE /\
    forall x,
      peval x (m_objective m) == round_trip_objective matrix K x /\
      peval x (m_objective m) == 2 * spec_objective matrix K x.
Proof.
  intros Hsq HK.
  destruct (build_model_spec matrix K min_size max_size Hsq HK)
    as (g & m & Hbuild & Hspec).
  exists g, m. split; [exact Hbuild|]. split.
  - unfold optimize_ab. rewrite Hbuild. reflexivity.
  - split; [apply (ms_sense _ _ _ _ _ _ Hspec)|]. intros x.
    pose proof (ms_objective _ _ _ _ _ _ Hspec x) as Hobj.
    split; [exact Hobj|]. rewrite Hobj. apply round_trip_twice_spec.
Qed.

Lemma objective_round_trip_coefficient_witness :
  square two_teams /\ (1 <= 2 <= length two_teams)%nat /\
  exists g m,
    build_model two_teams 2 (Some 1%Z) (Some 1%Z) = Ok (g, m) /\
    snd (optimize_ab (fun _ => Some alternating) two_teams 2
           (Some 1%Z) (Some 1%Z) []) = [] ++ [m] /\
    m_sense m = MAXIMIZE /\
    forall x,
      peval x (m_objective m) == round_trip_objective two_teams 2 x /\
      peval x (m_objective m) == 2 * spec_objective two_teams 2 x.
Proof.
  split; [exact square_two_teams|]. split; [simpl; lia|].
  apply (objective_round_trip_coefficient (fun _ => Some alternating) two_teams 2
           (Some 1%Z) (Some 1%Z) []).
  - exact square_two_teams.
  - simpl; lia.
Defined.

(** C2: when every entity has exactly one group above the threshold, the
    call returns the decoded assignment (one entry per entity, the group
    whose variable exceeds 0.5) and a total that is the brute-force
    recomputation over it: the sum, over the pairs i<j with equal decoded
    groups, of 2*cost[i][j] + 2*cost[j][i].  It is a function of the
    variable values alone; the objective value the solver reports plays no
    part. *)
Theorem total_cost_is_brute_force solver matrix K min_size max_size calls g m sol :
  square matrix ->
  build_model matrix K min_size max_size = Ok (g, m) ->
  solver m = Some sol ->
  (forall i, (i < length matrix)%nat -> one_group (sol_X sol) K i) ->
  exists t2g total,
    optimize_ab solver matrix K min_size max_size calls
      = (Ok (t2g, total), calls ++ [m]) /\
    length t2g = length matrix /\
    (forall i k, (i < length matrix)%nat ->
       (t2g !! i = Some (Some k) <->
        (k < K)%nat /\ gt_half (sol_X sol (g_ i k)) = true)) /\
    total == sum_pairs (length matrix) (fun i j =>
               if same_group t2g i j
               then 2 * cost matrix i j + 2 * cost matrix j i
               else 0) /\
    total == brute_force_cost matrix t2g.
Proof.
  intros Hsq Hbuild Hsolve Hone.
  destruct (decide (length matrix = O)) as [HN|HN].
  - exists [], 0.
    split; [apply (optimize_ab_no_teams solver matrix K min_size max_size calls
                     g m HN Hbuild)|].
    split; [symmetry; exact HN|]. split; [intros i k Hi; lia|].
    split; [rewrite HN|]; reflexivity.
  - assert (HK : (1 <= K <= length matrix)%nat).
    { destruct (Hone O ltac:(lia)) as (k & Hk & _).
      destruct (build_model_ok_bounds _ _ _ _ _ _ Hbuild); lia. }
    pose proof (one_group_decodes _ _ _ Hone) as Hdec.
    destruct (optimize_ab_run solver matrix K min_size max_size calls g m sol
                (group_of (sol_X sol) K) Hsq HK Hbuild Hsolve Hdec)
      as (t2g & total & Hrun & Hlen & Ht & Etot).
    assert (Ebf : total == brute_force_cost matrix t2g)
      by (rewrite Etot; symmetry; apply brute_force_assignment; assumption).
    exists t2g, total. split; [exact Hrun|]. split; [exact Hlen|].
    split; [|split; [|exact Ebf]].
    + intros i k Hi. rewrite (Ht i Hi). destruct (Hdec i Hi) as [Hlt Hiff].
      split.
      * intros [= <-]. split; [exact Hlt | apply Hiff; auto].
      * intros [Hk Hgt]. apply Hiff in Hgt; [|exact Hk]. subst k. reflexivity.
    + rewrite Ebf. unfold brute_force_cost. rewrite Hlen. reflexivity.
Qed.

Lemma total_cost_is_brute_force_witness :
  square four_teams /\
  build_model four_teams 2 (Some 2%Z) (Some 2%Z)
    = Ok (fst (built four_teams 2 (Some 2%Z) (Some 2%Z)),
          snd (built four_teams 2 (Some 2%Z) (Some 2%Z))) /\
  (fun _ : model => Some alternating)
    (snd (built four_teams 2 (Some 2%Z) (Some 2%Z))) = Some alternating /\
  (forall i, (i < length four_teams)%nat -> one_group (sol_X alternating) 2 i) /\
  exists t2g total,
    optimize_ab (fun _ => Some alternating) four_teams 2 (Some 2%Z) (Some 2%Z) []
      = (Ok (t2g, total), [] ++ [snd (built four_teams 2 (Some 2%Z) (Some 2%Z))]) /\
    length t2g = length four_teams /\
    (forall i k, (i < length four_teams)%nat ->
       (t2g !! i = Some (Some k) <->
        (k < 2)%nat /\ gt_half (sol_X alternating (g_ i k)) = true)) /\
    total == sum_pairs (length four_teams) (fun i j =>
               if same_group t2g i j
               then 2 * cost four_teams i j + 2 * cost four_teams j i
               else 0) /\
    total == brute_force_cost four_teams t2g.
Proof.
  assert (Hbuild : build_model four_teams 2 (Some 2%Z) (Some 2%Z)
    = Ok (fst (built four_teams 2 (Some 2%Z) (Some 2%Z)),
          snd (built four_teams 2 (Some 2%Z) (Some 2%Z))))
    by (vm_compute; reflexivity).
  split; [exact square_four_teams|].
  split; [exact Hbuild|]. split; [reflexivity|].
  split; [intros i _; apply alternating_one_group|].
  apply (total_cost_is_brute_force (fun _ => Some alternating) four_teams 2
           (Some 2%Z) (Some 2%Z) []
           (fst (built four_teams 2 (Some 2%Z) (Some 2%Z)))
           (snd (built four_teams 2 (Some 2%Z) (Some 2%Z))) alternating).
  - exact square_four_teams.
  - exact Hbuild.
  - reflexivity.
  - intros i _; apply alternating_one_group.
Defined.

(** C3, as stated, fails: with N=10, K=3 and minSize=4 the model is built
    and submitted to the solver; the call fails only afterwards, when the
    solver has found no solution and the first variable value is read. *)
Lemma infeasible_spec_reaches_solver :
  infeasible_spec 10 3 (Some 4%Z) None /\
  exists m,
    optimize_ab (fun _ => None) (replicate 10 (replicate 10 0)) 3 (Some 4%Z) None []
    = (Raise GurobiError, [m]).
Proof.
  split.
  - right. left. exists 4%Z. split; [reflexivity | reflexivity].
  - eexists. vm_compute. reflexivity.
Qed.

(** C3, amended: [optimize_ab] makes no analytic feasibility check.  For a
    square matrix and 1 <= K <= N, whatever the size bounds are, the model
    is built and the solver is invoked exactly once, on that model; when
    the solver returns no solution, the call fails with the solver
    library's error. *)
Theorem solver_invoked_whatever_the_bounds solver matrix K min_size max_size calls :
  square matrix -> (1 <= K <= length matrix)%nat ->
  exists g m,
    build_model matrix K min_size max_size = Ok (g, m) /\
    snd (optimize_ab solver matrix K min_size max_size calls) = calls ++ [m] /\
    (solver m = None ->
     fst (optimize_ab solver matrix K min_size max_size calls) = Raise GurobiError).
Proof.
  intros Hsq HK.
  destruct (build_model_spec matrix K min_size max_size Hsq HK)
    as (g & m & Hbuild & Hspec).
  exists g, m. split; [exact Hbuild|]. unfold optimize_ab. rewrite Hbuild.
  split; [reflexivity|]. intros ->. simpl.
  rewrite (decode_without_solution g (length matrix) K
             (ms_covers _ _ _ _ _ _ Hspec) HK).
  reflexivity.
Qed.

Lemma solver_invoked_whatever_the_bounds_witness :
  square (replicate 10 (replicate 10 0)) /\
  (1 <= 3 <= length (replicate 10 (replicate 10 0)))%nat /\
  infeasible_spec 10 3 (Some 4%Z) None /\
  exists g m,
    build_model (replicate 10 (replicate 10 0)) 3 (Some 4%Z) None = Ok (g, m) /\
    snd (optimize_ab (fun _ => None) (replicate 10 (replicate 10 0)) 3
           (Some 4%Z) None []) = [] ++ [m] /\
    ((fun _ : model => @None solution) m = None ->
     fst (optimize_ab (fun _ => None) (replicate 10 (replicate 10 0)) 3
            (Some 4%Z) None []) = Raise GurobiError).
Proof.
  assert (Hsq : square (replicate 10 (replicate 10 0))).
  { unfold square. simpl. repeat constructor. }
  split; [exact Hsq|]. split; [simpl; lia|]. split.
  - right. left. exists 4%Z. split; reflexivity.
  - apply (solver_invoked_whatever_the_bounds (fun _ => None)
             (replicate 10 (replicate 10 0)) 3 (Some 4%Z) None []).
    + exact Hsq.
    + simpl; lia.
Defined.

(** C4 at a failing input: one entity, one group, and a raw value of 0.
    No group exceeds the threshold, yet the call returns, with the entity
    assigned to no group. *)
Theorem entity_without_group_is_returned_unassigned :
  fst (optimize_ab (fun _ => Some all_zero) [[0]] 1 None None [])
  = Ok ([None], 0).
Proof. vm_compute. reflexivity. Qed.

(** The sibling case is caught by the assertion of line 147: two groups
    above the threshold. *)
Example entity_with_two_groups_fails :
  fst (optimize_ab (fun _ => Some all_one) two_teams 2 None None [])
  = Raise AssertionError.
Proof. vm_compute. reflexivity. Qed.

(** C5, as stated, fails: with both size bounds at 1, raw values that put
    both entities into group 0 are decoded and returned; nothing checks
    the size 2 of that group. *)
Lemma size_violation_is_returned :
  exists calls,
    optimize_ab (fun _ => Some all_in_group_0) two_teams 2 (Some 1%Z) (Some 1%Z) []
      = (Ok ([Some O; Some O], 4), calls) /\
    ~ within_bounds (Some 1%Z) (Some 1%Z) (group_size [Some O; Some O] O).
Proof.
  eexists. split; [vm_compute; reflexivity|].
  intros [_ Hmax]. specialize (Hmax 1%Z eq_refl). vm_compute in Hmax.
  apply Hmax. reflexivity.
Qed.

(** C5, amended: the group sizes are not checked after decoding; the
    bounds are constraints of the model only.  When the values the solver
    returns are binary and satisfy the constraints of the model, the call
    returns and every group's size, recomputed from the decoded
    assignment, lies within the bounds that are set. *)
Theorem group_sizes_within_bounds_of_feasible
    solver matrix K min_size max_size calls g m sol :
  square matrix -> (1 <= K <= length matrix)%nat ->
  build_model matrix K min_size max_size = Ok (g, m) ->
  solver m = Some sol ->
  feasible m (sol_X sol) = true ->
  exists t2g total,
    optimize_ab solver matrix K min_size max_size calls
      = (Ok (t2g, total), calls ++ [m]) /\
    forall k, (k < K)%nat -> within_bounds min_size max_size (group_size t2g k).
Proof.
  intros Hsq HK Hbuild Hsolve Hf.
  destruct (optimize_ab_feasible solver matrix K min_size max_size calls g m sol
              Hsq HK Hbuild Hsolve Hf)
    as (Hspec & Hind & t2g & total & Hrun & Hlen & Ht & _).
  exists t2g, total. split; [exact Hrun|]. intros k Hk.
  apply (group_sizes_within_bounds matrix K min_size max_size g m (sol_X sol));
    auto; lia.
Qed.

Lemma group_sizes_within_bounds_of_feasible_witness :
  square two_teams /\ (1 <= 2 <= length two_teams)%nat /\
  build_model two_teams 2 (Some 1%Z) (Some 1%Z)
    = Ok (fst (built two_teams 2 (Some 1%Z) (Some 1%Z)),
          snd (built two_teams 2 (Some 1%Z) (Some 1%Z))) /\
  (fun _ : model => Some alternating)
    (snd (built two_teams 2 (Some 1%Z) (Some 1%Z))) = Some alternating /\
  feasible (snd (built two_teams 2 (Some 1%Z) (Some 1%Z))) (sol_X alternating)
    = true /\
  exists t2g total,
    optimize_ab (fun _ => Some alternating) two_teams 2 (Some 1%Z) (Some 1%Z) []
      = (Ok (t2g, total), [] ++ [snd (built two_teams 2 (Some 1%Z) (Some 1%Z))]) /\
    forall k, (k < 2)%nat ->
      within_bounds (Some 1%Z) (Some 1%Z) (group_size t2g k).
Proof.
  assert (Hbuild : build_model two_teams 2 (Some 1%Z) (Some 1%Z)
    = Ok (fst (built two_teams 2 (Some 1%Z) (Some 1%Z)),
          snd (built two_teams 2 (Some 1%Z) (Some 1%Z))))
    by (vm_compute; reflexivity).
  assert (Hf : feasible (snd (built two_teams 2 (Some 1%Z) (Some 1%Z)))
                 (sol_X alternating) = true)
    by (vm_compute; reflexivity).
  split; [exact square_two_teams|]. split; [simpl; lia|].
  split; [exact Hbuild|]. split; [reflexivity|]. split; [exact Hf|].
  apply (group_sizes_within_bounds_of_feasible (fun _ => Some alternating)
           two_teams 2 (Some 1%Z) (Some 1%Z) []
           (fst (built two_teams 2 (Some 1%Z) (Some 1%Z)))
           (snd (built two_teams 2 (Some 1%Z) (Some 1%Z))) alternating).
  - exact square_two_teams.
  - simpl; lia.
  - exact Hbuild.
  - reflexivity.
  - exact Hf.
Defined.

(** C6: with a solver whose solutions are feasible, the assignment that
    [optimize_ab] returns for a square matrix and K >= 1 is total and
    single-valued: it has one entry per entity, and every entry is a group
    index below K.  For 1 <= K <= N the call does return whenever the
    solver produces a solution. *)
Theorem assignment_total_and_single_valued
    solver matrix K min_size max_size calls :
  square matrix -> (1 <= K)%nat -> sound solver ->
  (forall t2g total calls',
     optimize_ab solver matrix K min_size max_size calls
       = (Ok (t2g, total), calls') ->
     total_assignment (length matrix) K t2g) /\
  ((1 <= K <= length matrix)%nat ->
   forall g m, build_model matrix K min_size max_size = Ok (g, m) ->
     is_Some (solver m) ->
     exists t2g total,
       optimize_ab solver matrix K min_size max_size calls
         = (Ok (t2g, total), calls ++ [m]) /\
       total_assignment (length matrix) K t2g).
Proof.
  intros Hsq HK1 Hsound.
  assert (Hreturns : (1 <= K <= length matrix)%nat ->
    forall g m sol, build_model matrix K min_size max_size = Ok (g, m) ->
      solver m = Some sol ->
      exists t2g total,
        optimize_ab solver matrix K min_size max_size calls
          = (Ok (t2g, total), calls ++ [m]) /\
        total_assignment (length matrix) K t2g).
  { intros HK g m sol Hbuild Hsolve.
    destruct (optimize_ab_feasible solver matrix K min_size max_size calls g m sol
                Hsq HK Hbuild Hsolve (Hsound m sol Hsolve))
      as (_ & Hind & t2g & total & Hrun & Hlen & Ht & _).
    exists t2g, total. split; [exact Hrun|]. split; [exact Hlen|].
    intros i Hi. exists (group_of (sol_X sol) K i).
    split; [apply (Hind i Hi) | apply (Ht i Hi)]. }
  split.
  - intros t2g total calls' Hrun.
    destruct (build_model matrix K min_size max_size) as [[g m]|e] eqn:Hbuild.
    2:{ unfold optimize_ab in Hrun. rewrite Hbuild in Hrun. discriminate. }
    destruct (build_model_ok_bounds_pos _ _ _ _ _ _ Hbuild HK1) as [HN|HK].
    + unfold optimize_ab in Hrun. rewrite Hbuild, HN in Hrun.
      simpl in Hrun. injection Hrun as <- _ _.
      split; [symmetry; exact HN | intros i Hi; lia].
    + destruct (solver m) as [sol|] eqn:Hsolve.
      * destruct (Hreturns HK g m sol eq_refl Hsolve)
          as (t2g' & total' & Hrun' & Htotal).
        rewrite Hrun' in Hrun. injection Hrun as <- _ _. exact Htotal.
      * destruct (build_model_spec matrix K min_size max_size Hsq HK)
          as (g' & m' & Hbuild' & Hspec).
        rewrite Hbuild in Hbuild'. injection Hbuild' as <- <-.
        unfold optimize_ab in Hrun. rewrite Hbuild, Hsolve in Hrun.
        rewrite (decode_without_solution g (length matrix) K
                   (ms_covers _ _ _ _ _ _ Hspec) HK) in Hrun.
        discriminate.
  - intros HK g m Hbuild [sol Hsolve]. eapply Hreturns; eauto.
Qed.

Lemma assignment_total_and_single_valued_witness :
  square two_teams /\ (1 <= 2)%nat /\ sound (reference_solver alternating) /\
  (forall t2g total calls',
     optimize_ab (reference_solver alternating) two_teams 2
       (Some 1%Z) (Some 1%Z) [] = (Ok (t2g, total), calls') ->
     total_assignment (length two_teams) 2 t2g) /\
  ((1 <= 2 <= length two_teams)%nat ->
   forall g m, build_model two_teams 2 (Some 1%Z) (Some 1%Z) = Ok (g, m) ->
     is_Some (reference_solver alternating m) ->
     exists t2g total,
       optimize_ab (reference_solver alternating) two_teams 2
         (Some 1%Z) (Some 1%Z) [] = (Ok (t2g, total), [] ++ [m]) /\
       total_assignment (length two_teams) 2 t2g).
Proof.
  split; [exact square_two_teams|]. split; [lia|].
  split; [exact (reference_solver_sound alternating)|].
  apply (assignment_total_and_single_valued (reference_solver alternating)
           two_teams 2 (Some 1%Z) (Some 1%Z) []).
  - exact square_two_teams.
  - lia.
  - exact (reference_solver_sound alternating).
Defined.

(** The reference solver does return the alternating split here, so the
    statement above is about an actual result. *)
Example alternating_split_returned :
  fst (optimize_ab (reference_solver alternating) two_teams 2
         (Some 1%Z) (Some 1%Z) [])
  = Ok ([Some 0%nat; Some 1%nat], 0).
Proof. vm_compute. reflexivity. Qed.

(** C7: with a single group, the total returned is the sum over all pairs
    i<j of 2*(cost[i][j] + cost[j][i]). *)
Theorem single_group_total_cost solver matrix min_size max_size calls g m sol :
  square matrix ->
  build_model matrix 1 min_size max_size = Ok (g, m) ->
  solver m = Some sol ->
  feasible m (sol_X sol) = true ->
  exists t2g total,
    optimize_ab solver matrix 1 min_size max_size calls
      = (Ok (t2g, total), calls ++ [m]) /\
    total == sum_pairs (length matrix)
               (fun i j => 2 * (cost matrix i j + cost matrix j i)).
Proof.
  intros Hsq Hbuild Hsolve Hf.
  destruct (build_model_ok_bounds_pos _ _ _ _ _ _ Hbuild ltac:(lia)) as [HN|HK].
  - exists [], 0.
    split; [apply (optimize_ab_no_teams solver matrix 1 min_size max_size calls g m
                     HN Hbuild)|].
    rewrite HN. reflexivity.
  - destruct (optimize_ab_feasible solver matrix 1 min_size max_size calls g m sol
                Hsq HK Hbuild Hsolve Hf)
      as (_ & Hind & t2g & total & Hrun & _ & _ & Etot).
    exists t2g, total. split; [exact Hrun|]. rewrite Etot.
    unfold assignment_cost. apply sum_pairs_ext. intros i j Hij.
    destruct (Hind i ltac:(lia)) as [Hi _]. destruct (Hind j ltac:(lia)) as [Hj _].
    replace (group_of (sol_X sol) 1 i) with O by lia.
    replace (group_of (sol_X sol) 1 j) with O by lia.
    simpl. ring.
Qed.

Lemma single_group_total_cost_witness :
  square two_teams /\
  build_model two_teams 1 None (Some 2%Z)
    = Ok (fst (built two_teams 1 None (Some 2%Z)),
          snd (built two_teams 1 None (Some 2%Z))) /\
  (fun _ : model => Some all_in_group_0)
    (snd (built two_teams 1 None (Some 2%Z))) = Some all_in_group_0 /\
  feasible (snd (built two_teams 1 None (Some 2%Z))) (sol_X all_in_group_0)
    = true /\
  exists t2g total,
    optimize_ab (fun _ => Some all_in_group_0) two_teams 1 None (Some 2%Z) []
      = (Ok (t2g, total), [] ++ [snd (built two_teams 1 None (Some 2%Z))]) /\
    total == sum_pairs (length two_teams)
               (fun i j => 2 * (cost two_teams i j + cost two_teams j i)).
Proof.
  assert (Hbuild : build_model two_teams 1 None (Some 2%Z)
    = Ok (fst (built two_teams 1 None (Some 2%Z)),
          snd (built two_teams 1 None (Some 2%Z))))
    by (vm_compute; reflexivity).
  assert (Hf : feasible (snd (built two_teams 1 None (Some 2%Z)))
                 (sol_X all_in_group_0) = true)
    by (vm_compute; reflexivity).
  split; [exact square_two_teams|].
  split; [exact Hbuild|]. split; [reflexivity|]. split; [exact Hf|].
  apply (single_group_total_cost (fun _ => Some all_in_group_0) two_teams
           None (Some 2%Z) []
           (fst (built two_teams 1 None (Some 2%Z)))
           (snd (built two_teams 1 None (Some 2%Z))) all_in_group_0).
  - exact square_two_teams.
  - exact Hbuild.
  - reflexivity.
  - exact Hf.
Defined.

(** C8: four entities at distance 1 from each other, two groups of exactly
    two.  Every balanced 2-2 split is a feasible solution of the model and
    no feasible solution has a larger objective value, so it is optimal;
    and whatever feasible solution the solver returns, the groups decoded
    have two entities each and the total returned is 8. *)
Theorem four_teams_balanced_split solver calls g m sol :
  build_model four_teams 2 (Some 2%Z) (Some 2%Z) = Ok (g, m) ->
  solver m = Some sol ->
  feasible m (sol_X sol) = true ->
  (forall a, balanced_split a ->
     feasible m (sol_X (split_solution a)) = true /\
     forall x, feasible m x = true ->
       peval x (m_objective m)
       <= peval (sol_X (split_solution a)) (m_objective m)) /\
  exists t2g total,
    optimize_ab solver four_teams 2 (Some 2%Z) (Some 2%Z) calls
      = (Ok (t2g, total), calls ++ [m]) /\
    group_size t2g 0 = 2%nat /\ group_size t2g 1 = 2%nat /\
    total == 8.
Proof.
  intros Hbuild Hsolve Hf.
  assert (HK : (1 <= 2 <= length four_teams)%nat) by (simpl; lia).
  destruct (optimize_ab_feasible solver four_teams 2 (Some 2%Z) (Some 2%Z)
              calls g m sol square_four_teams HK Hbuild Hsolve Hf)
    as (Hspec & Hind & t2g & total & Hrun & Hlen & Ht & Etot).
  assert (Hbalanced : forall x, feasible m x = true ->
    assignment_cost four_teams (group_of x 2) == 8 /\
    peval x (m_objective m) == 16).
  { intros x Hx.
    pose proof (feasible_indicator _ _ _ _ _ _ _ Hspec ltac:(lia) Hx) as Hix.
    destruct (feasible_counts four_teams 2 (Some 2%Z) (Some 2%Z) g m x O
                Hspec ltac:(lia) Hx ltac:(lia)) as [Hlo Hhi].
    specialize (Hlo 2%Z eq_refl). specialize (Hhi 2%Z eq_refl).
    destruct (balanced_four_costs (group_of x 2)) as [Ec Ea].
    - intros i Hi. apply (Hix i). exact Hi.
    - change (length four_teams) with 4%nat in Hlo, Hhi. lia.
    - split; [exact Ec|].
      rewrite (ms_objective _ _ _ _ _ _ Hspec x).
      rewrite (objective_indicator four_teams 2 (group_of x 2) x Hix).
      exact Ea. }
  split.
  - intros a Ha.
    assert (Hfa : feasible m (sol_X (split_solution a)) = true).
    { replace m with (snd (built four_teams 2 (Some 2%Z) (Some 2%Z)))
        by (unfold built; rewrite Hbuild; reflexivity).
      apply balanced_split_feasible. exact Ha. }
    split; [exact Hfa|]. intros x Hx.
    destruct (Hbalanced x Hx) as [_ ->].
    destruct (Hbalanced _ Hfa) as [_ ->]. apply Qle_refl.
  - exists t2g, total. split; [exact Hrun|].
    assert (Hsize : forall k, (k < 2)%nat -> group_size t2g k = 2%nat).
    { intros k Hk.
      destruct (group_sizes_within_bounds four_teams 2 (Some 2%Z) (Some 2%Z)
                  g m (sol_X sol) t2g k Hspec ltac:(lia) Hf Hlen Ht Hk)
        as [Hlo Hhi].
      specialize (Hlo 2%Z eq_refl). specialize (Hhi 2%Z eq_refl). lia. }
    split; [apply Hsize; lia|]. split; [apply Hsize; lia|].
    rewrite Etot. apply (Hbalanced (sol_X sol) Hf).
Qed.

Lemma four_teams_balanced_split_witness :
  build_model four_teams 2 (Some 2%Z) (Some 2%Z)
    = Ok (fst (built four_teams 2 (Some 2%Z) (Some 2%Z)),
          snd (built four_teams 2 (Some 2%Z) (Some 2%Z))) /\
  (fun _ : model => Some alternating)
    (snd (built four_teams 2 (Some 2%Z) (Some 2%Z))) = Some alternating /\
  feasible (snd (built four_teams 2 (Some 2%Z) (Some 2%Z))) (sol_X alternating)
    = true /\
  (forall a, balanced_split a ->
     feasible (snd (built four_teams 2 (Some 2%Z) (Some 2%Z)))
       (sol_X (split_solution a)) = true /\
     forall x,
       feasible (snd (built four_teams 2 (Some 2%Z) (Some 2%Z))) x = true ->
       peval x (m_objective (snd (built four_teams 2 (Some 2%Z) (Some 2%Z))))
       <= peval (sol_X (split_solution a))
            (m_objective (snd (built four_teams 2 (Some 2%Z) (Some 2%Z))))) /\
  exists t2g total,
    optimize_ab (fun _ => Some alternating) four_teams 2 (Some 2%Z) (Some 2%Z) []
      = (Ok (t2g, total),
         [] ++ [snd (built four_teams 2 (Some 2%Z) (Some 2%Z))]) /\
    group_size t2g 0 = 2%nat /\ group_size t2g 1 = 2%nat /\
    total == 8.
Proof.
  assert (Hbuild : build_model four_teams 2 (Some 2%Z) (Some 2%Z)
    = Ok (fst (built four_teams 2 (Some 2%Z) (Some 2%Z)),
          snd (built four_teams 2 (Some 2%Z) (Some 2%Z))))
    by (vm_compute; reflexivity).
  assert (Hf : feasible (snd (built four_teams 2 (Some 2%Z) (Some 2%Z)))
                 (sol_X alternating) = true)
    by (vm_compute; reflexivity).
  split; [exact Hbuild|]. split; [reflexivity|]. split; [exact Hf|].
  apply (four_teams_balanced_split (fun _ => Some alternating) []
           (fst (built four_teams 2 (Some 2%Z) (Some 2%Z)))
           (snd (built four_teams 2 (Some 2%Z) (Some 2%Z))) alternating).
  - exact Hbuild.
  - reflexivity.
  - exact Hf.
Defined.

(** The balanced split of the example, run through the program. *)
Example four_teams_alternating :
  fst (optimize_ab (fun _ => Some alternating) four_teams 2
         (Some 2%Z) (Some 2%Z) [])
  = Ok ([Some 0%nat; Some 1%nat; Some 0%nat; Some 1%nat], 8).
Proof. vm_compute. reflexivity. Qed.

(** C9: [distance_car] and [duration_car] never return: each subscripts a
    function object, which raises [TypeError], whatever the coordinates. *)
Theorem car_metrics_raise_type_error (s e : coordinate) :
  distance_car s e = Raise TypeError /\
  duration_car s e = Raise TypeError /\
  (forall v, distance_car s e <> Ok v) /\
  (forall v, duration_car s e <> Ok v).
Proof.
  unfold distance_car, duration_car, Py.subscript.
  repeat split; intros; discriminate.
Qed.

(** C10: with the default metric, and a geodesic distance that is
    non-negative and symmetric, [example_matrix(n)] returns an n-by-n
    matrix of numbers with zeros on the diagonal, non-negative entries
    and [matrix[i][j]] equal to [matrix[j][i]]. *)
Theorem example_matrix_is_cost_matrix geodesic_meters rng randint n r :
  (forall s e, 0 <= geodesic_meters s e) ->
  (forall s e, geodesic_meters s e == geodesic_meters e s) ->
  exists matrix,
    fst (example_matrix geodesic_meters rng randint n Distance_straight_line r)
      = Ok matrix /\
    length matrix = n /\
    (forall i row, matrix !! i = Some row -> length row = n) /\
    forall i j, (i < n)%nat -> (j < n)%nat ->
      exists q q',
        entry matrix i j = Some (Py.VNum q) /\
        entry matrix j i = Some (Py.VNum q') /\
        0 <= q /\ q == q' /\ (i = j -> q = 0).
Proof.
  intros Hpos Hsym.
  destruct (example_matrix_filled geodesic_meters rng randint n r)
    as (matrix & Hrun & Hlen & Hrows).
  exists matrix. split; [exact Hrun|]. split; [exact Hlen|]. split.
  - intros i row Hrow.
    assert (Hi : (i < n)%nat) by (rewrite <- Hlen; eapply lookup_lt_Some; eauto).
    destruct (Hrows i Hi) as (row' & Hrow' & Hrlen & _). congruence.
  - intros i j Hi Hj.
    destruct (Hrows i Hi) as (ri & Hri & _ & Hci).
    destruct (Hrows j Hj) as (rj & Hrj & _ & Hcj).
    unfold entry. rewrite Hri, Hrj, (Hci j Hj), (Hcj i Hi).
    unfold straight_line_cell. rewrite (Nat.eqb_sym j i).
    destruct (Nat.eqb_spec i j) as [E|E].
    + exists 0, 0. split; [reflexivity|]. split; [reflexivity|].
      split; [apply Qle_refl|]. split; reflexivity.
    + eexists. eexists. split; [reflexivity|]. split; [reflexivity|].
      split; [apply Hpos|]. split; [apply Hsym | contradiction].
Qed.

Lemma example_matrix_is_cost_matrix_witness :
  (forall s e, 0 <= grid_distance s e) /\
  (forall s e, grid_distance s e == grid_distance e s) /\
  exists matrix,
    fst (example_matrix grid_distance nat counter_randint 3
           Distance_straight_line O) = Ok matrix /\
    length matrix = 3%nat /\
    (forall i row, matrix !! i = Some row -> length row = 3%nat) /\
    forall i j, (i < 3)%nat -> (j < 3)%nat ->
      exists q q',
        entry matrix i j = Some (Py.VNum q) /\
        entry matrix j i = Some (Py.VNum q') /\
        0 <= q /\ q == q' /\ (i = j -> q = 0).
Proof.
  split; [exact grid_distance_nonneg|]. split; [exact grid_distance_sym|].
  apply (example_matrix_is_cost_matrix grid_distance nat counter_randint 3 O).
  - exact grid_distance_nonneg.
  - exact grid_distance_sym.
Defined.

(** The generator run on the stand-ins. *)
Example example_matrix_3 :
  fst (example_matrix grid_distance nat counter_randint 3
         Distance_straight_line O)
  = Ok [[Py.VNum 0; Py.VNum 4; Py.VNum 8];
        [Py.VNum 4; Py.VNum 0; Py.VNum 4];
        [Py.VNum 8; Py.VNum 4; Py.VNum 0]].
Proof. vm_compute. reflexivity. Qed.

(** With one of the car metrics the generator fails as soon as it fills
    an off-diagonal cell. *)
Example example_matrix_car_metric :
  fst (example_matrix grid_distance nat counter_randint 2 Distance_car O)
  = Raise TypeError.
Proof. vm_compute. reflexivity. Qed.

(** * Further properties of the program *)

(** ** More on loops *)

Lemma for_each_ext {St A : Type} (l : list A) (body body' : A -> St -> result St) :
  (forall a s, In a l -> body a s = body' a s) ->
  forall s, for_each l body s = for_each l body' s.
Proof.
  induction l as [|a l IH]; intros E s; simpl; [reflexivity|].
  rewrite (E a s) by (left; reflexivity).
  destruct (body' a s) as [s1|e]; simpl; [|reflexivity].
  apply IH. intros b t Hb. apply E. right. exact Hb.
Qed.

(** A loop whose iterations can only fail with [e] either completes with
    its invariant or fails with [e]. *)
Lemma for_each_seq_inv_or_raise {St : Type} (I : nat -> St -> Prop) (e : exn)
    (body : nat -> St -> result St) :
  forall len a s,
    I a s ->
    (forall i t, (a <= i < a + len)%nat -> I i t ->
       (exists t', body i t = Ok t' /\ I (S i) t') \/ body i t = Raise e) ->
    (exists s', for_each (seq a len) body s = Ok s' /\ I (a + len)%nat s') \/
    for_each (seq a len) body s = Raise e.
Proof.
  induction len as [|len IH]; intros a s Ha Hstep.
  - left. exists s. rewrite Nat.add_0_r. auto.
  - simpl. destruct (Hstep a s) as [(s1 & Hb & H1)|Hb]; [lia | exact Ha | |].
    + rewrite Hb. simpl.
      replace (a + S len)%nat with (S a + len)%nat by lia.
      apply IH; [exact H1|]. intros i t Hi. apply Hstep. lia.
    + right. rewrite Hb. reflexivity.
Qed.

(** The first iteration that fails decides the exception. *)
Lemma for_each_seq_first_failure {St : Type} (e : exn)
    (body : nat -> St -> result St) (n p : nat) (s : St) :
  (p < n)%nat ->
  (forall i t, (i < p)%nat -> exists t', body i t = Ok t') ->
  (forall t, body p t = Raise e) ->
  for_each (seq 0 n) body s = Raise e.
Proof.
  intros Hp Hbefore Hat.
  destruct (for_each_seq_inv_or_raise (fun i _ => (i <= p)%nat) e body n O s)
    as [(s' & _ & Hle)|Hr].
  - lia.
  - intros i t Hi Hip. destruct (decide (i = p)) as [->|Hne].
    + right. apply Hat.
    + left. destruct (Hbefore i t) as [t' Ht']; [lia|].
      exists t'. split; [exact Ht' | lia].
  - simpl in Hle. lia.
  - exact Hr.
Qed.

(** ** More groups than entities *)

Lemma add_vars_lookup N m0 i k :
  fst (add_vars N m0) !! (i, k)
  = if (i <? N)%nat && (k <? N)%nat then Some (g_ i k) else None.
Proof. apply (vu_lookup _ _ _ _ (add_vars_spec N m0)). Qed.

Lemma tget_add_vars N m0 i k :
  tget (fst (add_vars N m0)) i k
  = if (i <? N)%nat && (k <? N)%nat then Ok (g_ i k) else Raise KeyError.
Proof.
  unfold tget. rewrite add_vars_lookup.
  destruct ((i <? N)%nat && (k <? N)%nat); reflexivity.
Qed.

Lemma tget_add_vars_in N m0 i k :
  (i < N)%nat -> (k < N)%nat -> tget (fst (add_vars N m0)) i k = Ok (g_ i k).
Proof.
  intros Hi Hk. rewrite tget_add_vars.
  replace (i <? N)%nat with true by (symmetry; apply Nat.ltb_lt; lia).
  replace (k <? N)%nat with true by (symmetry; apply Nat.ltb_lt; lia).
  reflexivity.
Qed.

Lemma tget_add_vars_out N m0 i :
  tget (fst (add_vars N m0)) i N = Raise KeyError.
Proof.
  rewrite tget_add_vars.
  replace (N <? N)%nat with false by (symmetry; apply Nat.ltb_ge; lia).
  rewrite andb_false_r. reflexivity.
Qed.

(** X1: with more groups than entities the call fails with [KeyError]
    while the model is built, before the solver is invoked, whatever the
    matrix holds and whatever the bounds are. *)
Theorem more_groups_than_teams_key_error solver matrix K min_size max_size calls :
  (1 <= length matrix)%nat -> (length matrix < K)%nat ->
  optimize_ab solver matrix K min_size max_size calls = (Raise KeyError, calls).
Proof.
  intros HN HK. unfold optimize_ab.
  assert (Hbuild : build_model matrix K min_size max_size = Raise KeyError).
  { unfold build_model.
    set (N := length matrix) in *.
    pose proof (tget_add_vars_in N new_model) as Hin.
    pose proof (tget_add_vars_out N new_model) as Hout.
    destruct (add_vars N new_model) as [g m0]. simpl in Hin, Hout.
    destruct (decide (N = 1)%nat) as [HN1|HN1].
    - (* a single entity: the objective has no pair, the first constraint fails *)
      assert (Hobj : build_objective matrix g N K = Ok (PNum 0)).
      { rewrite HN1. reflexivity. }
      rewrite Hobj. cbn [rbind].
      assert (Hc : forall m, add_one_group_constrs g N K m = Raise KeyError).
      { intros m. unfold add_one_group_constrs, range.
        apply (for_each_seq_first_failure KeyError _ N O m); [lia | intros; lia |].
        intros m1.
        rewrite (for_each_seq_first_failure KeyError _ K N (PNum 0)).
        - reflexivity.
        - lia.
        - intros k su Hk. rewrite (Hin O k) by lia. eexists. reflexivity.
        - intros su. rewrite Hout. reflexivity. }
      rewrite Hc. reflexivity.
    - (* at least two entities: the pair (0, 1) fails on group N *)
      assert (Hobj : build_objective matrix g N K = Raise KeyError).
      { unfold build_objective, range.
        apply (for_each_seq_first_failure KeyError _ N O (PNum 0));
          [lia | intros; lia |].
        intros obj.
        apply (for_each_seq_first_failure KeyError _ N 1%nat obj); [lia | |].
        - intros j acc Hj. assert (j = O) by lia. subst j.
          exists acc. reflexivity.
        - intros acc. cbn [Nat.leb].
          assert (Hco : co_membership g K O 1 = Raise KeyError).
          { unfold co_membership, range.
            apply (for_each_seq_first_failure KeyError _ K N (PNum 0)); [lia | |].
            - intros k su Hk. rewrite (Hin O k), (Hin 1%nat k) by lia.
              eexists. reflexivity.
            - intros su. rewrite Hout. reflexivity. }
          rewrite Hco. reflexivity. }
      rewrite Hobj. reflexivity. }
  rewrite Hbuild. reflexivity.
Qed.

Lemma more_groups_than_teams_key_error_witness :
  (1 <= length two_teams)%nat /\ (length two_teams < 3)%nat /\
  optimize_ab (fun _ => Some alternating) two_teams 3 None None []
    = (Raise KeyError, []).
Proof.
  split; [simpl; lia|]. split; [simpl; lia|].
  apply (more_groups_than_teams_key_error (fun _ => Some alternating)
           two_teams 3 None None []); simpl; lia.
Defined.

(** ** Rows that are too short *)

Lemma mget_cases matrix i j :
  (exists c, mget matrix i j = Ok c) \/ mget matrix i j = Raise IndexError.
Proof.
  unfold mget. destruct (matrix !! i) as [row|]; [|right; reflexivity].
  destruct (row !! j) as [c|]; [left; eauto | right; reflexivity].
Qed.

Lemma mget_short matrix i j row :
  matrix !! i = Some row -> (length row <= j)%nat ->
  mget matrix i j = Raise IndexError.
Proof.
  intros Hrow Hlen. unfold mget. rewrite Hrow.
  rewrite (lookup_ge_None_2 row j Hlen). reflexivity.
Qed.

Lemma build_objective_index_error matrix g K i j :
  covers g (length matrix) -> (K <= length matrix)%nat ->
  (i < j < length matrix)%nat ->
  mget matrix i j = Raise IndexError \/ mget matrix j i = Raise IndexError ->
  build_objective matrix g (length matrix) K = Raise IndexError.
Proof.
  intros Hg HK Hij Hbad. set (N := length matrix) in *.
  set (inner := fun (i : nat) (j : nat) (obj : pyobj) =>
    if (j <=? i)%nat then Ok obj
    else
      do su <- co_membership g K i j;
      do mij <- mget matrix i j;
      do mji <- mget matrix j i;
      Ok (padd obj (pmul (psub (PNum 1) su) (PNum (2 * mij + 2 * mji)%Q)))).
  assert (Hinner : forall a b obj, (a < N)%nat -> (b < N)%nat ->
    (exists obj', inner a b obj = Ok obj') \/ inner a b obj = Raise IndexError).
  { intros a b obj Ha Hb. unfold inner.
    destruct (b <=? a)%nat; [left; eauto|].
    destruct (co_membership_spec g N K a b Hg HK Ha Hb) as (su & -> & _).
    cbn [rbind].
    destruct (mget_cases matrix a b) as [[c ->]| ->]; [|right; reflexivity].
    cbn [rbind].
    destruct (mget_cases matrix b a) as [[c' ->]| ->]; [|right; reflexivity].
    left. eexists. reflexivity. }
  assert (Hcases : forall obj,
    (exists obj', for_each (range N) (fun a obj =>
       for_each (range N) (inner a) obj) obj = Ok obj') \/
    for_each (range N) (fun a obj =>
       for_each (range N) (inner a) obj) obj = Raise IndexError).
  { intros obj.
    destruct (for_each_seq_inv_or_raise (fun _ _ => True) IndexError
                (fun a obj => for_each (range N) (inner a) obj) N O obj I)
      as [(obj' & Hrun & _)|Hr]; [| left; eauto | right; exact Hr].
    intros a t Ha _.
    destruct (for_each_seq_inv_or_raise (fun _ _ => True) IndexError
                (inner a) N O t I) as [(t' & Hrun & _)|Hr].
    - intros b u Hb _. destruct (Hinner a b u) as [[u' Hu]|Hu]; [lia | lia | |].
      + left. eauto.
      + right. exact Hu.
    - left. exists t'. split; [exact Hrun | exact I].
    - right. exact Hr. }
  assert (Hraises : forall obj, exists e,
    for_each (range N) (fun a obj => for_each (range N) (inner a) obj) obj
    = Raise e).
  { apply (for_each_raises _ _ i); [apply in_seq; lia|].
    intros obj. apply (for_each_raises _ _ j); [apply in_seq; lia|].
    intros acc. unfold inner.
    replace (j <=? i)%nat with false by (symmetry; apply Nat.leb_gt; lia).
    destruct (co_membership_spec g N K i j Hg HK) as (su & -> & _); [lia | lia |].
    cbn [rbind].
    destruct (mget_cases matrix i j) as [[c Hc]|Hc]; rewrite Hc; cbn [rbind];
      [|eauto].
    destruct Hbad as [Hb|Hb]; [congruence|]. rewrite Hb. eauto. }
  unfold build_objective. fold inner.
  destruct (Hcases (PNum 0)) as [[obj' Hok]|Hr]; [|exact Hr].
  destruct (Hraises (PNum 0)) as [e He]. congruence.
Qed.

(** X2: when some row lacks an off-diagonal column below N, the call fails
    with [IndexError] while the objective is built; the solver is not
    invoked. *)
Theorem short_row_index_error solver matrix K min_size max_size calls i j row :
  (1 <= K <= length matrix)%nat ->
  matrix !! i = Some row -> (j < length matrix)%nat -> i <> j ->
  (length row <= j)%nat ->
  optimize_ab solver matrix K min_size max_size calls = (Raise IndexError, calls).
Proof.
  intros HK Hrow Hj Hne Hshort.
  assert (Hi : (i < length matrix)%nat) by (eapply lookup_lt_Some; eauto).
  pose proof (mget_short matrix i j row Hrow Hshort) as Hbad.
  unfold optimize_ab, build_model.
  pose proof (tget_add_vars_in (length matrix) new_model) as Hin.
  destruct (add_vars (length matrix) new_model) as [g m0]. simpl in Hin.
  assert (Hg : covers g (length matrix)).
  { intros a b Ha Hb. specialize (Hin a b Ha Hb). unfold tget in Hin.
    destruct (g !! (a, b)); congruence. }
  assert (Hobj : build_objective matrix g (length matrix) K = Raise IndexError).
  { destruct (Nat.lt_ge_cases i j) as [Hlt|Hge].
    - apply (build_objective_index_error matrix g K i j); auto; lia.
    - apply (build_objective_index_error matrix g K j i); auto; lia. }
  rewrite Hobj. reflexivity.
Qed.

Lemma short_row_index_error_witness :
  (1 <= 1 <= length ragged_teams)%nat /\
  ragged_teams !! 0%nat = Some [0] /\
  (1 < length ragged_teams)%nat /\ 0%nat <> 1%nat /\
  (length [0] <= 1)%nat /\
  optimize_ab (fun _ => Some all_in_group_0) ragged_teams 1 None None []
    = (Raise IndexError, []).
Proof.
  split; [simpl; lia|]. split; [reflexivity|]. split; [simpl; lia|].
  split; [lia|]. split; [simpl; lia|].
  apply (short_row_index_error (fun _ => Some all_in_group_0) ragged_teams 1
           None None [] 0%nat 1%nat [0]); simpl; try lia; reflexivity.
Defined.

(** ** The diagonal is never read *)

Lemma build_objective_off_diagonal matrix matrix' g N K :
  (forall i j, (i < N)%nat -> (j < N)%nat -> i <> j ->
               mget matrix i j = mget matrix' i j) ->
  build_objective matrix g N K = build_objective matrix' g N K.
Proof.
  intros E. unfold build_objective, range.
  apply for_each_ext. intros i obj Hi. apply in_seq in Hi.
  apply for_each_ext. intros j acc Hj. apply in_seq in Hj.
  destruct (Nat.leb_spec j i) as [Hle|Hlt]; [reflexivity|].
  rewrite (E i j), (E j i) by lia. reflexivity.
Qed.

Lemma total_distance_off_diagonal matrix matrix' g sol N K :
  (forall i j, (i < N)%nat -> (j < N)%nat -> i <> j ->
               mget matrix i j = mget matrix' i j) ->
  total_distance matrix g sol N K = total_distance matrix' g sol N K.
Proof.
  intros E. unfold total_distance, range, range_from.
  apply for_each_ext. intros i total Hi. apply in_seq in Hi.
  apply for_each_ext. intros j acc Hj. apply in_seq in Hj.
  apply for_each_ext. intros k t Hk.
  rewrite (E i j), (E j i) by lia. reflexivity.
Qed.

(** X3: [optimize_ab] reads [matrix[i][j]] only for [i <> j] below N: two
    matrices with as many rows that agree on those reads give the same
    model, the same solver call and the same result. *)
Theorem diagonal_never_read solver matrix matrix' K min_size max_size calls :
  length matrix = length matrix' ->
  (forall i j, (i < length matrix)%nat -> (j < length matrix)%nat -> i <> j ->
               mget matrix i j = mget matrix' i j) ->
  optimize_ab solver matrix K min_size max_size calls
  = optimize_ab solver matrix' K min_size max_size calls.
Proof.
  intros Hlen E. unfold optimize_ab, build_model. rewrite <- Hlen.
  destruct (add_vars (length matrix) new_model) as [g m0].
  rewrite (build_objective_off_diagonal matrix matrix' g (length matrix) K E).
  destruct (build_objective matrix' g (length matrix) K) as [obj|e];
    [|reflexivity].
  cbn [rbind].
  destruct (add_one_group_constrs g (length matrix) K
              (setObjective m0 obj MAXIMIZE)) as [m2|e]; [|reflexivity].
  cbn [rbind].
  destruct (add_size_constrs g (length matrix) K min_size max_size m2)
    as [m3|e]; [|reflexivity].
  cbn [rbind].
  rewrite (total_distance_off_diagonal matrix matrix' g (solver m3)
             (length matrix) K E).
  reflexivity.
Qed.

Lemma diagonal_never_read_witness :
  length two_teams = length two_teams_diagonal /\
  (forall i j, (i < length two_teams)%nat -> (j < length two_teams)%nat ->
     i <> j -> mget two_teams i j = mget two_teams_diagonal i j) /\
  optimize_ab (fun _ => Some all_in_group_0) two_teams 1 None None []
  = optimize_ab (fun _ => Some all_in_group_0) two_teams_diagonal 1 None None [].
Proof.
  assert (E : forall i j, (i < length two_teams)%nat ->
     (j < length two_teams)%nat -> i <> j ->
     mget two_teams i j = mget two_teams_diagonal i j).
  { intros [|[|i]] [|[|j]] Hi Hj Hne; simpl in Hi, Hj;
      try lia; try contradiction; reflexivity. }
  split; [reflexivity|]. split; [exact E|].
  apply (diagonal_never_read (fun _ => Some all_in_group_0)
           two_teams two_teams_diagonal 1 None None [] eq_refl E).
Defined.

(** ** Decoding arbitrary raw values *)

Lemma for_each_seq_inv_or_raise_because {St : Type} (I : nat -> St -> Prop)
    (e : exn) (P : Prop) (body : nat -> St -> result St) :
  forall len a s,
    I a s ->
    (forall i t, (a <= i < a + len)%nat -> I i t ->
       (exists t', body i t = Ok t' /\ I (S i) t') \/
       (body i t = Raise e /\ P)) ->
    (exists s', for_each (seq a len) body s = Ok s' /\ I (a + len)%nat s') \/
    (for_each (seq a len) body s = Raise e /\ P).
Proof.
  induction len as [|len IH]; intros a s Ha Hstep.
  - left. exists s. rewrite Nat.add_0_r. auto.
  - simpl. destruct (Hstep a s) as [(s1 & Hb & H1)|[Hb HP]]; [lia | exact Ha | |].
    + rewrite Hb. simpl.
      replace (a + S len)%nat with (S a + len)%nat by lia.
      apply IH; [exact H1|]. intros i t Hi. apply Hstep. lia.
    + right. rewrite Hb. auto.
Qed.

Lemma first_upto_some p n k :
  first_upto p n = Some k -> (k < n)%nat /\ p k = true.
Proof.
  induction n as [|n IH]; simpl; [discriminate|].
  destruct (first_upto p n) as [k'|].
  - intros [= <-]. destruct (IH eq_refl). split; [lia | assumption].
  - destruct (p n) eqn:E; [|discriminate]. intros [= <-]. split; [lia | exact E].
Qed.

Lemma first_upto_none p n k :
  first_upto p n = None -> (k < n)%nat -> p k = false.
Proof.
  induction n as [|n IH]; simpl; [lia|].
  destruct (first_upto p n) as [k'|]; [discriminate|].
  destruct (p n) eqn:E; [discriminate|]. intros _ Hk.
  destruct (decide (k = n)) as [->|Hne]; [exact E | apply IH; [reflexivity | lia]].
Qed.

Lemma first_upto_unique p n k :
  (forall k1 k2, (k1 < n)%nat -> (k2 < n)%nat ->
     p k1 = true -> p k2 = true -> k1 = k2) ->
  (first_upto p n = Some k <-> (k < n)%nat /\ p k = true).
Proof.
  intros Huniq. split; [apply first_upto_some|]. intros [Hk Hp].
  destruct (first_upto p n) as [k'|] eqn:E.
  - destruct (first_upto_some p n k' E) as [Hk' Hp'].
    f_equal. apply Huniq; assumption.
  - rewrite (first_upto_none p n k E Hk) in Hp. discriminate.
Qed.

Lemma unambiguous_not_ambiguous sol N K :
  unambiguous sol N K -> ambiguous sol N K -> False.
Proof.
  intros Hu (i & k1 & k2 & Hi & Hk & H1 & H2).
  assert (k1 = k2) by (apply (Hu i); auto; lia). lia.
Qed.

Lemma decode_cases g sol N K :
  covers g N -> (K <= N)%nat ->
  (exists t2g, decode g (Some sol) N K = Ok t2g /\ length t2g = N /\
     (forall i, (i < N)%nat -> t2g !! i = Some (first_upto (above sol i) K)) /\
     unambiguous sol N K) \/
  (decode g (Some sol) N K = Raise AssertionError /\ ambiguous sol N K).
Proof.
  intros Hg HK. unfold decode, range.
  set (inner := fun (i : nat) (k : nat) (t2g : list (option nat)) =>
    do v <- tget g i k;
    do xv <- var_X (Some sol) v;
    if gt_half xv then
      match t2g !! i with
      | Some None => Ok (<[i := Some k]> t2g)
      | Some (Some _) => Raise AssertionError
      | None => Raise IndexError
      end
    else Ok t2g).
  destruct (for_each_seq_inv_or_raise_because
    (fun r (t : list (option nat)) =>
       length t = N /\
       (forall i, (i < N)%nat ->
          t !! i = Some (if (i <? r)%nat then first_upto (above sol i) K else None)) /\
       (forall i k1 k2, (i < r)%nat -> (k1 < K)%nat -> (k2 < K)%nat ->
          above sol i k1 = true -> above sol i k2 = true -> k1 = k2))
    AssertionError (ambiguous sol N K)
    (fun i t2g => for_each (seq 0 K) (inner i) t2g)
    N O (replicate N None)) as [(t & Hrun & Hlen & Ht & Hu)|[Hrun Hamb]].
  - split; [apply length_replicate|]. split; [|intros; lia].
    intros i Hi. simpl. apply lookup_replicate_2. exact Hi.
  - intros r t Hr (Hlen & Ht & Hu).
    destruct (for_each_seq_inv_or_raise_because
      (fun k (t' : list (option nat)) =>
         length t' = N /\
         (forall i, (i < N)%nat -> i <> r -> t' !! i = t !! i) /\
         t' !! r = Some (first_upto (above sol r) k) /\
         (forall k1 k2, (k1 < k)%nat -> (k2 < k)%nat ->
            above sol r k1 = true -> above sol r k2 = true -> k1 = k2))
      AssertionError (ambiguous sol N K) (inner r) K O t)
      as [(t' & Hrun' & Hlen' & Hother & Hrow & Hu')|[Hrun' Hamb]].
    + split; [exact Hlen|]. split; [auto|]. split; [|intros; lia].
      rewrite (Ht r) by lia.
      replace (r <? r)%nat with false by (symmetry; apply Nat.ltb_ge; lia).
      reflexivity.
    + intros k t1 Hk (Hlen1 & Hother1 & Hrow1 & Hu1). unfold inner.
      rewrite (tget_covers g N r k) by (auto; lia). cbn [rbind var_X].
      fold (above sol r k). destruct (above sol r k) eqn:Ek.
      * rewrite Hrow1. destruct (first_upto (above sol r) k) as [k0|] eqn:Ef.
        -- right. split; [reflexivity|].
           destruct (first_upto_some _ _ _ Ef) as [Hk0 Hp0].
           exists r, k0, k. repeat split; auto; lia.
        -- left. eexists. split; [reflexivity|].
           split; [rewrite length_insert; exact Hlen1|].
           split; [intros i Hi Hne; rewrite list_lookup_insert_ne by auto;
                   apply Hother1; assumption|].
           split.
           ++ rewrite list_lookup_insert_eq by lia. simpl. rewrite Ef, Ek.
              reflexivity.
           ++ intros k1 k2 Hk1 Hk2 H1 H2.
              assert (forall k', (k' < S k)%nat -> above sol r k' = true -> k' = k).
              { intros k' Hk' Hp. destruct (decide (k' = k)) as [|Hne]; [assumption|].
                rewrite (first_upto_none _ _ k' Ef) in Hp by lia. discriminate. }
              transitivity k; [|symmetry]; auto.
      * left. exists t1. split; [reflexivity|]. split; [exact Hlen1|].
        split; [exact Hother1|]. split.
        -- rewrite Hrow1. simpl. rewrite Ek.
           destruct (first_upto (above sol r) k); reflexivity.
        -- intros k1 k2 Hk1 Hk2 H1 H2.
           assert (k1 <> k) by (intros ->; congruence).
           assert (k2 <> k) by (intros ->; congruence).
           apply Hu1; auto; lia.
    + left. exists t'. split; [exact Hrun'|]. split; [exact Hlen'|]. split.
      * intros i Hi. destruct (decide (i = r)) as [->|Hne].
        -- rewrite Hrow.
           replace (r <? S r)%nat with true by (symmetry; apply Nat.ltb_lt; lia).
           reflexivity.
        -- rewrite (Hother i Hi Hne), (Ht i Hi). f_equal. same_guard.
      * intros i k1 k2 Hi Hk1 Hk2 H1 H2.
        destruct (decide (i = r)) as [->|Hne]; [apply Hu'; auto | apply (Hu i); auto; lia].
    + right. split; [exact Hrun' | exact Hamb].
  - left. exists t. split; [exact Hrun|]. split; [exact Hlen|]. split.
    + intros i Hi. rewrite (Ht i Hi).
      replace (i <? 0 + N)%nat with true by (symmetry; apply Nat.ltb_lt; lia).
      reflexivity.
    + intros i k1 k2 Hi. apply Hu. lia.
  - right. split; [exact Hrun | exact Hamb].
Qed.

(** ** The total for arbitrary raw values *)

Lemma mget_cost matrix i j c : mget matrix i j = Ok c -> cost matrix i j = c.
Proof.
  unfold mget, cost. destruct (matrix !! i) as [row|]; [|discriminate].
  destruct (row !! j) as [c'|]; [|discriminate]. intros [= <-]. reflexivity.
Qed.

Lemma total_distance_general matrix g sol K (a : nat -> option nat) :
  (forall i j, (i < j < length matrix)%nat ->
     mget matrix i j = Ok (cost matrix i j) /\
     mget matrix j i = Ok (cost matrix j i)) ->
  covers g (length matrix) -> (K <= length matrix)%nat ->
  (forall i k, (i < length matrix)%nat -> (k < K)%nat ->
     (above sol i k = true <-> a i = Some k)) ->
  (forall i p, (i < length matrix)%nat -> a i = Some p -> (p < K)%nat) ->
  exists total,
    total_distance matrix g (Some sol) (length matrix) K = Ok total /\
    total == sum_pairs (length matrix) (fun i j =>
               if same_decoded (a i) (a j)
               then 2 * cost matrix i j + 2 * cost matrix j i else 0).
Proof.
  intros Hread Hg HK Ha Hlt. unfold total_distance, sum_pairs.
  set (N := length matrix) in *.
  set (u := fun i j =>
    if same_decoded (a i) (a j)
    then 2 * cost matrix i j + 2 * cost matrix j i else 0).
  set (row := fun i (n : nat) => sumQ n (fun j => if (i <? j)%nat then u i j else 0)).
  apply (for_range_inv (fun i total => total == sumQ i (fun i' => row i' N))).
  - reflexivity.
  - intros i base Hi Hbase. unfold range_from.
    destruct (for_each_seq_inv
      (fun j total => total == sumQ i (fun i' => row i' N) + row i j)
      (fun j total =>
         for_each (range K) (fun k total =>
           do vi <- tget g i k;
           do xi <- var_X (Some sol) vi;
           if gt_half xi then
             do vj <- tget g j k;
             do xj <- var_X (Some sol) vj;
             if gt_half xj then
               do mij <- mget matrix i j;
               do mji <- mget matrix j i;
               Ok (total + (mij * 2 + mji * 2))
             else Ok total
           else Ok total) total)
      (N - (i + 1)) (i + 1)%nat base) as (total & Hrun & Htotal).
    + rewrite Hbase. unfold row. rewrite (sumQ_zero (i + 1)); [ring|].
      intros j Hj.
      replace (i <? j)%nat with false by (symmetry; apply Nat.ltb_ge; lia).
      reflexivity.
    + intros j acc Hj Hacc.
      destruct (for_range_inv
        (fun k total =>
           total == sumQ i (fun i' => row i' N) + row i j
                    + (match a i with
                       | Some p => if (p <? k)%nat then u i j else 0
                       | None => 0
                       end))
        (fun k total =>
           do vi <- tget g i k;
           do xi <- var_X (Some sol) vi;
           if gt_half xi then
             do vj <- tget g j k;
             do xj <- var_X (Some sol) vj;
             if gt_half xj then
               do mij <- mget matrix i j;
               do mji <- mget matrix j i;
               Ok (total + (mij * 2 + mji * 2))
             else Ok total
           else Ok total)
        K acc) as (acc' & Hrun' & Hacc').
      * rewrite Hacc. destruct (a i); simpl; ring.
      * intros k tot Hk Htot.
        rewrite (tget_covers g N i k) by (auto; lia). cbn [rbind var_X].
        fold (above sol i k). destruct (above sol i k) eqn:Ei.
        -- apply (Ha i k Hi Hk) in Ei.
           rewrite (tget_covers g N j k) by (auto; lia). cbn [rbind var_X].
           fold (above sol j k). rewrite Ei in Htot |- *.
           replace (k <? k)%nat with false in Htot
             by (symmetry; apply Nat.ltb_ge; lia).
           replace (k <? S k)%nat with true
             by (symmetry; apply Nat.ltb_lt; lia).
           destruct (above sol j k) eqn:Ej.
           ++ apply (Ha j k ltac:(lia) Hk) in Ej.
              destruct (Hread i j ltac:(lia)) as [-> ->]. cbn [rbind].
              eexists. split; [reflexivity|]. rewrite Htot. unfold u.
              rewrite Ei, Ej. simpl. rewrite Nat.eqb_refl. ring.
           ++ exists tot. split; [reflexivity|]. rewrite Htot. unfold u.
              rewrite Ei. simpl. destruct (a j) as [q|] eqn:Eq; [|ring].
              destruct (Nat.eqb_spec k q) as [->|Hne]; [|ring].
              apply (Ha j q ltac:(lia) Hk) in Eq. congruence.
        -- exists tot. split; [reflexivity|]. rewrite Htot.
           destruct (a i) as [p|] eqn:Ep; [|reflexivity].
           assert (k <> p).
           { intros ->. apply (Ha i p Hi Hk) in Ep. congruence. }
           replace (p <? S k)%nat with (p <? k)%nat; [reflexivity|].
           destruct (Nat.ltb_spec p k), (Nat.ltb_spec p (S k)); auto; lia.
      * exists acc'. split; [exact Hrun'|]. rewrite Hacc'.
        change (row i (S j)) with (row i j + (if (i <? j)%nat then u i j else 0)).
        replace (i <? j)%nat with true by (symmetry; apply Nat.ltb_lt; lia).
        destruct (a i) as [p|] eqn:Ep.
        -- replace (p <? K)%nat with true
             by (symmetry; apply Nat.ltb_lt; apply (Hlt i p Hi Ep)).
           ring.
        -- unfold u. rewrite Ep. simpl. ring.
    + exists total. split; [exact Hrun|].
      replace (i + 1 + (N - (i + 1)))%nat with N in Htotal by lia.
      rewrite Htotal. simpl. reflexivity.
Qed.

Lemma build_model_reads matrix K min_size max_size g m i j :
  build_model matrix K min_size max_size = Ok (g, m) ->
  (i < j < length matrix)%nat ->
  mget matrix i j = Ok (cost matrix i j) /\
  mget matrix j i = Ok (cost matrix j i).
Proof.
  intros Hbuild Hij.
  destruct (build_model_ok_bounds _ _ _ _ _ _ Hbuild) as [HN|HK]; [lia|].
  assert (Hok : (exists c, mget matrix i j = Ok c) /\
                (exists c, mget matrix j i = Ok c)).
  { destruct (mget_cases matrix i j) as [H1|H1];
      destruct (mget_cases matrix j i) as [H2|H2]; [auto | | |];
      exfalso; unfold build_model in Hbuild;
      pose proof (tget_add_vars_in (length matrix) new_model) as Hin;
      destruct (add_vars (length matrix) new_model) as [g0 m0]; simpl in Hin;
      rewrite (build_objective_index_error matrix g0 K i j) in Hbuild;
      try discriminate; auto; try lia;
      intros p q Hp Hq; specialize (Hin p q Hp Hq); unfold tget in Hin;
      destruct (g0 !! (p, q)); congruence. }
  destruct Hok as [[c Hc] [c' Hc']].
  rewrite Hc, Hc', (mget_cost _ _ _ _ Hc), (mget_cost _ _ _ _ Hc'). auto.
Qed.

Lemma build_model_covers matrix K min_size max_size g m :
  build_model matrix K min_size max_size = Ok (g, m) ->
  covers g (length matrix).
Proof.
  intros Hbuild. unfold build_model in Hbuild.
  pose proof (tget_add_vars_in (length matrix) new_model) as Hin.
  destruct (add_vars (length matrix) new_model) as [g0 m0]. simpl in Hin.
  destruct (build_objective matrix g0 (length matrix) K); [|discriminate].
  cbn [rbind] in Hbuild.
  destruct (add_one_group_constrs g0 (length matrix) K _); [|discriminate].
  cbn [rbind] in Hbuild.
  destruct (add_size_constrs g0 (length matrix) K min_size max_size _);
    [|discriminate].
  injection Hbuild as <- _.
  intros p q Hp Hq. specialize (Hin p q Hp Hq). unfold tget in Hin.
  destruct (g0 !! (p, q)); congruence.
Qed.

(** ** What a call returns for arbitrary raw values *)

Lemma optimize_ab_cases solver matrix K min_size max_size calls g m sol :
  (1 <= length matrix)%nat ->
  build_model matrix K min_size max_size = Ok (g, m) ->
  solver m = Some sol ->
  (unambiguous sol (length matrix) K /\
   exists t2g total,
     optimize_ab solver matrix K min_size max_size calls
       = (Ok (t2g, total), calls ++ [m]) /\
     length t2g = length matrix /\
     (forall i, (i < length matrix)%nat ->
        t2g !! i = Some (first_upto (above sol i) K)) /\
     total == brute_force_cost matrix t2g) \/
  (ambiguous sol (length matrix) K /\
   optimize_ab solver matrix K min_size max_size calls
     = (Raise AssertionError, calls ++ [m])).
Proof.
  intros HN Hbuild Hsolve.
  destruct (build_model_ok_bounds _ _ _ _ _ _ Hbuild) as [|HK]; [lia|].
  pose proof (build_model_covers _ _ _ _ _ _ Hbuild) as Hg.
  unfold optimize_ab. rewrite Hbuild, Hsolve.
  destruct (decode_cases g sol (length matrix) K Hg ltac:(lia))
    as [(t2g & Hdec & Hlen & Ht & Hu)|[Hdec Hamb]].
  - left. split; [exact Hu|].
    destruct (total_distance_general matrix g sol K
                (fun i => first_upto (above sol i) K))
      as (total & Htot & Etot).
    + intros i j Hij. eapply build_model_reads; eauto.
    + exact Hg.
    + lia.
    + intros i k Hi Hk. rewrite first_upto_unique; [intuition|].
      intros k1 k2 Hk1 Hk2. apply (Hu i); assumption.
    + intros i p Hi Hp. apply (first_upto_some _ _ _ Hp).
    + exists t2g, total. rewrite Hdec. cbn [rbind]. rewrite Htot. cbn [rbind].
      split; [reflexivity|]. split; [exact Hlen|]. split; [exact Ht|].
      rewrite Etot. unfold brute_force_cost. rewrite Hlen.
      apply sum_pairs_ext. intros i j Hij. unfold same_group.
      rewrite (Ht i), (Ht j) by lia. reflexivity.
  - right. split; [exact Hamb|]. rewrite Hdec. reflexivity.
Qed.

Lemma for_each_unchanged {St A : Type} (l : list A) (body : A -> St -> result St) s :
  (forall a t, In a l -> body a t = Ok t) -> for_each l body s = Ok s.
Proof.
  induction l as [|a l IH]; intros Hbody; simpl; [reflexivity|].
  rewrite (Hbody a s) by (left; reflexivity). simpl.
  apply IH. intros b t Hb. apply Hbody. right. exact Hb.
Qed.

(** With no group there is nothing to read from the solver. *)
Lemma decode_no_groups g sol N : decode g sol N 0 = Ok (replicate N None).
Proof. unfold decode. apply for_each_unchanged. reflexivity. Qed.

Lemma total_distance_no_groups matrix g sol N :
  total_distance matrix g sol N 0 = Ok 0.
Proof.
  unfold total_distance. apply for_each_unchanged. intros i total _.
  apply for_each_unchanged. reflexivity.
Qed.

Lemma optimize_ab_no_groups solver matrix min_size max_size calls g m :
  build_model matrix 0 min_size max_size = Ok (g, m) ->
  optimize_ab solver matrix 0 min_size max_size calls
    = (Ok (replicate (length matrix) None, 0), calls ++ [m]).
Proof.
  intros Hbuild. unfold optimize_ab.
  rewrite Hbuild, decode_no_groups, total_distance_no_groups. reflexivity.
Qed.

Lemma same_group_unassigned N i j : same_group (replicate N None) i j = false.
Proof.
  unfold same_group.
  destruct (replicate N (@None nat) !! i) as [x|] eqn:E; [|reflexivity].
  apply lookup_replicate_1 in E. destruct E as [-> _]. reflexivity.
Qed.

Lemma brute_force_cost_unassigned matrix N :
  brute_force_cost matrix (replicate N None) == 0.
Proof.
  unfold brute_force_cost, sum_pairs.
  apply sumQ_zero. intros i Hi. apply sumQ_zero. intros j Hj.
  rewrite same_group_unassigned. destruct (i <? j)%nat; reflexivity.
Qed.

(** Every way in which a call returns: without reading the solver's values
    when there is no entity or no group, and otherwise on unambiguous
    values of a solution. *)
Lemma optimize_ab_returned solver matrix K min_size max_size calls t2g total calls' :
  optimize_ab solver matrix K min_size max_size calls
    = (Ok (t2g, total), calls') ->
  exists g m,
    build_model matrix K min_size max_size = Ok (g, m) /\
    calls' = calls ++ [m] /\
    length t2g = length matrix /\
    total == brute_force_cost matrix t2g /\
    (((length matrix = O \/ K = O) /\ t2g = replicate (length matrix) None) \/
     (exists sol,
        solver m = Some sol /\ (1 <= K <= length matrix)%nat /\
        unambiguous sol (length matrix) K /\
        forall i, (i < length matrix)%nat ->
          t2g !! i = Some (first_upto (above sol i) K))).
Proof.
  intros Hrun.
  destruct (build_model matrix K min_size max_size) as [[g m]|e] eqn:Hbuild.
  2:{ unfold optimize_ab in Hrun. rewrite Hbuild in Hrun. discriminate. }
  exists g, m. split; [reflexivity|].
  destruct (decide (length matrix = O)) as [HN|HN].
  { rewrite (optimize_ab_no_teams solver matrix K min_size max_size
               calls g m HN Hbuild) in Hrun.
    injection Hrun as <- <- <-. rewrite HN.
    split; [reflexivity|]. split; [reflexivity|]. split; [reflexivity|].
    left. auto. }
  destruct (decide (K = O)) as [HK0|HK0].
  { subst K.
    rewrite (optimize_ab_no_groups solver matrix min_size max_size calls g m
               Hbuild) in Hrun.
    injection Hrun as <- <- <-.
    split; [reflexivity|]. split; [apply length_replicate|].
    split; [symmetry; apply brute_force_cost_unassigned|]. left. auto. }
  assert (HK : (1 <= K <= length matrix)%nat)
    by (destruct (build_model_ok_bounds _ _ _ _ _ _ Hbuild); lia).
  destruct (solver m) as [sol|] eqn:Hsolve.
  - destruct (optimize_ab_cases solver matrix K min_size max_size calls g m sol
                ltac:(lia) Hbuild Hsolve)
      as [(Hu & t & tot & Hrun' & Hlen & Ht & Etot)|[_ Hrun']];
      rewrite Hrun' in Hrun; [|discriminate].
    injection Hrun as <- <- <-.
    split; [reflexivity|]. split; [exact Hlen|]. split; [exact Etot|].
    right. exists sol. auto.
  - exfalso. unfold optimize_ab in Hrun. rewrite Hbuild, Hsolve in Hrun.
    rewrite (decode_without_solution g (length matrix) K
               (build_model_covers _ _ _ _ _ _ Hbuild) HK) in Hrun.
    discriminate.
Qed.

Lemma sumQ_nonneg n (f : nat -> Q) :
  (forall i, (i < n)%nat -> 0 <= f i) -> 0 <= sumQ n f.
Proof.
  induction n as [|n IH]; intros Hf; simpl; [apply Qle_refl|].
  replace 0 with (0 + 0) by reflexivity.
  apply Qplus_le_compat; [apply IH; intros; apply Hf; lia | apply Hf; lia].
Qed.

Lemma brute_force_cost_nonneg matrix t2g :
  (forall i j, 0 <= cost matrix i j) -> 0 <= brute_force_cost matrix t2g.
Proof.
  intros Hpos. unfold brute_force_cost, sum_pairs.
  apply sumQ_nonneg. intros i _. apply sumQ_nonneg. intros j _.
  destruct (i <? j)%nat; [|apply Qle_refl].
  destruct (same_group t2g i j); [|apply Qle_refl].
  replace 0 with (0 + 0) by reflexivity.
  apply Qplus_le_compat; apply Qmult_le_0_compat; try apply Hpos; discriminate.
Qed.

(** X4: when some entity has two groups above the threshold, the call
    fails with [AssertionError], after the solver has been invoked. *)
Theorem two_groups_assertion_error
    solver matrix K min_size max_size calls g m sol i k1 k2 :
  build_model matrix K min_size max_size = Ok (g, m) ->
  solver m = Some sol ->
  (i < length matrix)%nat -> (k1 < K)%nat -> (k2 < K)%nat -> k1 <> k2 ->
  gt_half (sol_X sol (g_ i k1)) = true ->
  gt_half (sol_X sol (g_ i k2)) = true ->
  optimize_ab solver matrix K min_size max_size calls
    = (Raise AssertionError, calls ++ [m]).
Proof.
  intros Hbuild Hsolve Hi Hk1 Hk2 Hne H1 H2.
  destruct (optimize_ab_cases solver matrix K min_size max_size calls g m sol
              ltac:(lia) Hbuild Hsolve) as [[Hu _]|[_ Hrun]]; [|exact Hrun].
  exfalso. apply Hne. apply (Hu i); assumption.
Qed.

Lemma two_groups_assertion_error_witness :
  build_model two_teams 2 None None
    = Ok (fst (built two_teams 2 None None), snd (built two_teams 2 None None)) /\
  (fun _ : model => Some all_one) (snd (built two_teams 2 None None))
    = Some all_one /\
  (0 < length two_teams)%nat /\ (0 < 2)%nat /\ (1 < 2)%nat /\ 0%nat <> 1%nat /\
  gt_half (sol_X all_one (g_ 0 0)) = true /\
  gt_half (sol_X all_one (g_ 0 1)) = true /\
  optimize_ab (fun _ => Some all_one) two_teams 2 None None []
    = (Raise AssertionError, [] ++ [snd (built two_teams 2 None None)]).
Proof.
  assert (Hbuild : build_model two_teams 2 None None
    = Ok (fst (built two_teams 2 None None), snd (built two_teams 2 None None)))
    by (vm_compute; reflexivity).
  split; [exact Hbuild|]. split; [reflexivity|]. split; [simpl; lia|].
  split; [lia|]. split; [lia|]. split; [lia|].
  split; [reflexivity|]. split; [reflexivity|].
  apply (two_groups_assertion_error (fun _ => Some all_one) two_teams 2
           None None [] (fst (built two_teams 2 None None))
           (snd (built two_teams 2 None None)) all_one 0%nat 0%nat 1%nat
           Hbuild eq_refl);
    try reflexivity; simpl; lia.
Defined.

(** X5: whenever the call returns, the solver was invoked on the model
    that was built and the assignment returned follows the threshold
    exactly: it has one entry per entity, and entity [i] is given group [k]
    if and only if [k] is a group index whose variable exceeds 0.5 in the
    solution of the solver (so an entity is left without a group exactly
    when no such variable exists). *)
Theorem returned_assignment_follows_threshold
    solver matrix K min_size max_size calls t2g total calls' :
  optimize_ab solver matrix K min_size max_size calls
    = (Ok (t2g, total), calls') ->
  exists g m,
    build_model matrix K min_size max_size = Ok (g, m) /\
    calls' = calls ++ [m] /\
    length t2g = length matrix /\
    forall i k, (i < length matrix)%nat ->
      (t2g !! i = Some (Some k) <->
       (k < K)%nat /\
       exists sol, solver m = Some sol /\ gt_half (sol_X sol (g_ i k)) = true).
Proof.
  intros Hrun.
  destruct (optimize_ab_returned _ _ _ _ _ _ _ _ _ Hrun)
    as (g & m & Hbuild & Hcalls & Hlen & _ &
        [[Hnone ->]|(sol & Hsolve & HK & Hu & Ht)]).
  - exists g, m. split; [exact Hbuild|]. split; [exact Hcalls|].
    split; [exact Hlen|]. intros i k Hi.
    rewrite lookup_replicate_2 by exact Hi.
    split; [discriminate | intros [Hk _]; lia].
  - exists g, m. split; [exact Hbuild|]. split; [exact Hcalls|].
    split; [exact Hlen|]. intros i k Hi. rewrite (Ht i Hi).
    split.
    + intros [= E]. apply first_upto_some in E. destruct E as [Hk Hgt].
      split; [exact Hk|]. exists sol. split; [exact Hsolve | exact Hgt].
    + intros [Hk (sol' & Hsolve' & Hgt)].
      rewrite Hsolve in Hsolve'. injection Hsolve' as <-.
      f_equal. apply first_upto_unique; [|auto].
      intros k1 k2 Hk1 Hk2. apply (Hu i); assumption.
Qed.

Lemma returned_assignment_follows_threshold_witness :
  optimize_ab (fun _ => Some alternating) two_teams 2 None None []
    = (Ok ([Some 0%nat; Some 1%nat], 0), [snd (built two_teams 2 None None)]) /\
  exists g m,
    build_model two_teams 2 None None = Ok (g, m) /\
    [snd (built two_teams 2 None None)] = [] ++ [m] /\
    length [Some 0%nat; Some 1%nat] = length two_teams /\
    forall i k, (i < length two_teams)%nat ->
      ([Some 0%nat; Some 1%nat] !! i = Some (Some k) <->
       (k < 2)%nat /\
       exists sol, (fun _ : model => Some alternating) m = Some sol /\
                   gt_half (sol_X sol (g_ i k)) = true).
Proof.
  assert (Hrun : optimize_ab (fun _ => Some alternating) two_teams 2 None None []
    = (Ok ([Some 0%nat; Some 1%nat], 0), [snd (built two_teams 2 None None)]))
    by (vm_compute; reflexivity).
  split; [exact Hrun|].
  apply (returned_assignment_follows_threshold (fun _ => Some alternating)
           two_teams 2 None None [] [Some 0%nat; Some 1%nat] 0
           [snd (built two_teams 2 None None)] Hrun).
Defined.

(** X6: whenever the call returns, for whatever raw values and whatever
    matrix, the total it returns is the brute-force cost of the assignment
    it returns. *)
Theorem returned_total_matches_returned_assignment
    solver matrix K min_size max_size calls t2g total calls' :
  optimize_ab solver matrix K min_size max_size calls
    = (Ok (t2g, total), calls') ->
  length t2g = length matrix /\
  total == brute_force_cost matrix t2g.
Proof.
  intros Hrun.
  destruct (optimize_ab_returned _ _ _ _ _ _ _ _ _ Hrun)
    as (g & m & _ & _ & Hlen & E & _).
  split; [exact Hlen | exact E].
Qed.

Lemma returned_total_matches_returned_assignment_witness :
  optimize_ab (fun _ => Some all_in_group_0) two_teams 2 None None []
    = (Ok ([Some 0%nat; Some 0%nat], 4), [snd (built two_teams 2 None None)]) /\
  length [Some 0%nat; Some 0%nat] = length two_teams /\
  4 == brute_force_cost two_teams [Some 0%nat; Some 0%nat].
Proof.
  assert (Hrun : optimize_ab (fun _ => Some all_in_group_0) two_teams 2 None None []
    = (Ok ([Some 0%nat; Some 0%nat], 4), [snd (built two_teams 2 None None)]))
    by (vm_compute; reflexivity).
  split; [exact Hrun|].
  apply (returned_total_matches_returned_assignment
           (fun _ => Some all_in_group_0)
           two_teams 2 None None [] [Some 0%nat; Some 0%nat] 4
           [snd (built two_teams 2 None None)] Hrun).
Defined.

(** X7: on a matrix without negative entries, a total that is returned is
    not negative, whatever the solver returned. *)
Theorem returned_total_nonnegative
    solver matrix K min_size max_size calls t2g total calls' :
  (forall i j, 0 <= cost matrix i j) ->
  optimize_ab solver matrix K min_size max_size calls
    = (Ok (t2g, total), calls') ->
  0 <= total.
Proof.
  intros Hpos Hrun.
  destruct (optimize_ab_returned _ _ _ _ _ _ _ _ _ Hrun)
    as (g & m & _ & _ & _ & E & _).
  rewrite E. apply brute_force_cost_nonneg. exact Hpos.
Qed.

Lemma cost_two_teams_nonneg i j : 0 <= cost two_teams i j.
Proof.
  destruct i as [|[|i]]; destruct j as [|[|j]]; vm_compute; discriminate.
Qed.

Lemma returned_total_nonnegative_witness :
  (forall i j, 0 <= cost two_teams i j) /\
  optimize_ab (fun _ => Some all_in_group_0) two_teams 2 None None []
    = (Ok ([Some 0%nat; Some 0%nat], 4), [snd (built two_teams 2 None None)]) /\
  0 <= 4.
Proof.
  assert (Hrun : optimize_ab (fun _ => Some all_in_group_0) two_teams 2 None None []
    = (Ok ([Some 0%nat; Some 0%nat], 4), [snd (built two_teams 2 None None)]))
    by (vm_compute; reflexivity).
  split; [exact cost_two_teams_nonneg|]. split; [exact Hrun|].
  apply (returned_total_nonnegative (fun _ => Some all_in_group_0)
           two_teams 2 None None [] [Some 0%nat; Some 0%nat] 4
           [snd (built two_teams 2 None None)] cost_two_teams_nonneg Hrun).
Defined.

(** ** Maximizing the objective minimizes the total *)

Lemma sumQ_plus n (f h : nat -> Q) :
  sumQ n (fun i => f i + h i) == sumQ n f + sumQ n h.
Proof.
  induction n as [|n IH]; simpl; [reflexivity|]. rewrite IH. ring.
Qed.

Lemma avoided_plus_travelled matrix a :
  avoided_cost matrix a + assignment_cost matrix a == all_pairs_cost matrix.
Proof.
  unfold avoided_cost, assignment_cost, all_pairs_cost, sum_pairs.
  rewrite <- sumQ_plus. apply sumQ_ext. intros i Hi.
  rewrite <- sumQ_plus. apply sumQ_ext. intros j Hj.
  destruct (i <? j)%nat; [|ring]. destruct (a i =? a j)%nat; ring.
Qed.

Lemma feasible_objective_value matrix K min_size max_size g m x :
  model_spec matrix K min_size max_size g m -> (K <= length matrix)%nat ->
  feasible m x = true ->
  peval x (m_objective m) + assignment_cost matrix (group_of x K)
  == all_pairs_cost matrix.
Proof.
  intros Hspec HK Hf.
  pose proof (feasible_indicator _ _ _ _ _ _ _ Hspec HK Hf) as Hind.
  rewrite (ms_objective _ _ _ _ _ _ Hspec x).
  rewrite (objective_indicator matrix K (group_of x K) x Hind).
  apply avoided_plus_travelled.
Qed.


(** X8: for a feasible solution, the value of the objective that was built
    and the total that is returned add up to the round-trip distance over
    all pairs: what the model maximizes is exactly what the total leaves
    out. *)
Theorem objective_plus_total_is_constant
    solver matrix K min_size max_size calls g m sol :
  square matrix -> (1 <= K <= length matrix)%nat ->
  build_model matrix K min_size max_size = Ok (g, m) ->
  solver m = Some sol ->
  feasible m (sol_X sol) = true ->
  exists t2g total,
    optimize_ab solver matrix K min_size max_size calls
      = (Ok (t2g, total), calls ++ [m]) /\
    peval (sol_X sol) (m_objective m) + total == all_pairs_cost matrix.
Proof.
  intros Hsq HK Hbuild Hsolve Hf.
  destruct (optimize_ab_feasible solver matrix K min_size max_size calls g m sol
              Hsq HK Hbuild Hsolve Hf)
    as (Hspec & _ & t2g & total & Hrun & _ & _ & Etot).
  exists t2g, total. split; [exact Hrun|]. rewrite Etot.
  apply (feasible_objective_value matrix K min_size max_size g m);
    [exact Hspec | lia | exact Hf].
Qed.

Lemma objective_plus_total_is_constant_witness :
  square two_teams /\ (1 <= 2 <= length two_teams)%nat /\
  build_model two_teams 2 (Some 1%Z) (Some 1%Z)
    = Ok (fst (built two_teams 2 (Some 1%Z) (Some 1%Z)),
          snd (built two_teams 2 (Some 1%Z) (Some 1%Z))) /\
  (fun _ : model => Some alternating)
    (snd (built two_teams 2 (Some 1%Z) (Some 1%Z))) = Some alternating /\
  feasible (snd (built two_teams 2 (Some 1%Z) (Some 1%Z))) (sol_X alternating)
    = true /\
  exists t2g total,
    optimize_ab (fun _ => Some alternating) two_teams 2 (Some 1%Z) (Some 1%Z) []
      = (Ok (t2g, total), [] ++ [snd (built two_teams 2 (Some 1%Z) (Some 1%Z))]) /\
    peval (sol_X alternating)
      (m_objective (snd (built two_teams 2 (Some 1%Z) (Some 1%Z)))) + total
    == all_pairs_cost two_teams.
Proof.
  assert (Hbuild : build_model two_teams 2 (Some 1%Z) (Some 1%Z)
    = Ok (fst (built two_teams 2 (Some 1%Z) (Some 1%Z)),
          snd (built two_teams 2 (Some 1%Z) (Some 1%Z))))
    by (vm_compute; reflexivity).
  assert (Hf : feasible (snd (built two_teams 2 (Some 1%Z) (Some 1%Z)))
                 (sol_X alternating) = true)
    by (vm_compute; reflexivity).
  assert (HK : (1 <= 2 <= length two_teams)%nat) by (simpl; lia).
  split; [exact square_two_teams|]. split; [exact HK|].
  split; [exact Hbuild|]. split; [reflexivity|]. split; [exact Hf|].
  apply (objective_plus_total_is_constant (fun _ => Some alternating) two_teams 2
           (Some 1%Z) (Some 1%Z) []
           (fst (built two_teams 2 (Some 1%Z) (Some 1%Z)))
           (snd (built two_teams 2 (Some 1%Z) (Some 1%Z))) alternating
           square_two_teams HK Hbuild eq_refl Hf).
Defined.




(** ** Groups of at most one entity *)

Lemma count_upto_le n (p : nat -> bool) i :
  (i < n)%nat -> p i = true -> (1 <= count_upto n p)%nat.
Proof.
  induction n as [|n IH]; intros Hi Hp; [lia|]. simpl.
  destruct (decide (i = n)) as [->|Hne]; [rewrite Hp; lia|].
  specialize (IH ltac:(lia) Hp). lia.
Qed.

Lemma count_upto_two n (p : nat -> bool) i j :
  (i < j < n)%nat -> p i = true -> p j = true -> (2 <= count_upto n p)%nat.
Proof.
  induction n as [|n IH]; intros Hij Hi Hj; [lia|]. simpl.
  destruct (decide (j = n)) as [->|Hne].
  - rewrite Hj. pose proof (count_upto_le n p i ltac:(lia) Hi). lia.
  - specialize (IH ltac:(lia) Hi Hj). lia.
Qed.

(** X10: when [max_size] is at most 1 and the solver returns a feasible
    solution, no two entities share a group in the assignment returned and
    the total is 0. *)
Theorem singleton_groups_travel_nothing
    solver matrix K min_size hi calls g m sol :
  square matrix -> (1 <= K <= length matrix)%nat -> (hi <= 1)%Z ->
  build_model matrix K min_size (Some hi) = Ok (g, m) ->
  solver m = Some sol ->
  feasible m (sol_X sol) = true ->
  exists t2g total,
    optimize_ab solver matrix K min_size (Some hi) calls
      = (Ok (t2g, total), calls ++ [m]) /\
    (forall i j, (i < j < length matrix)%nat -> same_group t2g i j = false) /\
    total == 0.
Proof.
  intros Hsq HK Hhi Hbuild Hsolve Hf.
  destruct (optimize_ab_feasible solver matrix K min_size (Some hi) calls g m sol
              Hsq HK Hbuild Hsolve Hf)
    as (Hspec & Hind & t2g & total & Hrun & Hlen & Ht & Etot).
  assert (Hdistinct : forall i j, (i < j < length matrix)%nat ->
    (group_of (sol_X sol) K i =? group_of (sol_X sol) K j)%nat = false).
  { intros i j Hij. apply Nat.eqb_neq. intros E.
    destruct (Hind i ltac:(lia)) as [Hki _].
    destruct (feasible_counts matrix K min_size (Some hi) g m (sol_X sol)
                (group_of (sol_X sol) K i) Hspec ltac:(lia) Hf Hki) as [_ Hmax].
    specialize (Hmax hi eq_refl).
    pose proof (count_upto_two (length matrix)
      (fun t => (group_of (sol_X sol) K t =? group_of (sol_X sol) K i)%nat) i j
      Hij (Nat.eqb_refl _) (proj2 (Nat.eqb_eq _ _) (eq_sym E))) as Htwo.
    lia. }
  exists t2g, total. split; [exact Hrun|]. split.
  - intros i j Hij. unfold same_group. rewrite (Ht i), (Ht j) by lia.
    apply Hdistinct. exact Hij.
  - rewrite Etot. unfold assignment_cost, sum_pairs.
    apply sumQ_zero. intros i Hi. apply sumQ_zero. intros j Hj.
    destruct (Nat.ltb_spec i j) as [Hlt|]; [|reflexivity].
    rewrite Hdistinct by lia. reflexivity.
Qed.

Lemma singleton_groups_travel_nothing_witness :
  square two_teams /\ (1 <= 2 <= length two_teams)%nat /\ (1 <= 1)%Z /\
  build_model two_teams 2 (Some 1%Z) (Some 1%Z)
    = Ok (fst (built two_teams 2 (Some 1%Z) (Some 1%Z)),
          snd (built two_teams 2 (Some 1%Z) (Some 1%Z))) /\
  (fun _ : model => Some alternating)
    (snd (built two_teams 2 (Some 1%Z) (Some 1%Z))) = Some alternating /\
  feasible (snd (built two_teams 2 (Some 1%Z) (Some 1%Z))) (sol_X alternating)
    = true /\
  exists t2g total,
    optimize_ab (fun _ => Some alternating) two_teams 2 (Some 1%Z) (Some 1%Z) []
      = (Ok (t2g, total), [] ++ [snd (built two_teams 2 (Some 1%Z) (Some 1%Z))]) /\
    (forall i j, (i < j < length two_teams)%nat -> same_group t2g i j = false) /\
    total == 0.
Proof.
  assert (Hbuild : build_model two_teams 2 (Some 1%Z) (Some 1%Z)
    = Ok (fst (built two_teams 2 (Some 1%Z) (Some 1%Z)),
          snd (built two_teams 2 (Some 1%Z) (Some 1%Z))))
    by (vm_compute; reflexivity).
  assert (Hf : feasible (snd (built two_teams 2 (Some 1%Z) (Some 1%Z)))
                 (sol_X alternating) = true)
    by (vm_compute; reflexivity).
  assert (HK : (1 <= 2 <= length two_teams)%nat) by (simpl; lia).
  assert (Hhi : (1 <= 1)%Z) by lia.
  split; [exact square_two_teams|]. split; [exact HK|]. split; [exact Hhi|].
  split; [exact Hbuild|]. split; [reflexivity|]. split; [exact Hf|].
  apply (singleton_groups_travel_nothing (fun _ => Some alternating) two_teams 2
           (Some 1%Z) 1%Z []
           (fst (built two_teams 2 (Some 1%Z) (Some 1%Z)))
           (snd (built two_teams 2 (Some 1%Z) (Some 1%Z))) alternating
           square_two_teams HK Hhi Hbuild eq_refl Hf).
Defined.

(** ** The size of the model *)

Lemma add_vars_count N m0 :
  length (m_vars (snd (add_vars N m0))) = (length (m_vars m0) + N * N)%nat.
Proof.
  unfold add_vars, range.
  pose (I := fun (i : nat) (st : gmap (nat * nat) var * model) =>
    length (m_vars (snd st)) = (length (m_vars m0) + i * N)%nat).
  change (I (0 + N)%nat (fold_left
    (fun st i => fold_left
       (fun (st : gmap (nat * nat) var * model) j =>
          let (v, m') := addVar (snd st) i j in (<[(i, j):=v]> (fst st), m'))
       (seq 0 N) st) (seq 0 N) (∅, m0))).
  apply fold_left_seq_inv.
  - subst I. simpl. lia.
  - intros i st Hi HI. subst I. simpl in HI.
    pose (J := fun (j : nat) (st : gmap (nat * nat) var * model) =>
      length (m_vars (snd st)) = (length (m_vars m0) + i * N + j)%nat).
    assert (HJ : J (0 + N)%nat (fold_left
      (fun (st : gmap (nat * nat) var * model) j =>
          let (v, m') := addVar (snd st) i j in (<[(i, j):=v]> (fst st), m'))
       (seq 0 N) st)).
    { apply fold_left_seq_inv.
      - subst J. simpl. lia.
      - intros j [g m] Hj HJ. subst J. simpl in *.
        rewrite length_app, HJ. simpl. lia. }
    subst J. simpl in HJ. simpl. lia.
Qed.

Lemma expr_vars_padd a b v :
  In v (expr_vars (to_expr (padd a b))) ->
  In v (expr_vars (to_expr a)) \/ In v (expr_vars (to_expr b)).
Proof.
  destruct a, b; simpl; try tauto; intros H; apply in_app_or in H; exact H.
Qed.

Lemma expr_vars_psub a b v :
  In v (expr_vars (to_expr (psub a b))) ->
  In v (expr_vars (to_expr a)) \/ In v (expr_vars (to_expr b)).
Proof.
  destruct a, b; simpl; try tauto; intros H; apply in_app_or in H; exact H.
Qed.

Lemma expr_vars_pmul a b v :
  In v (expr_vars (to_expr (pmul a b))) ->
  In v (expr_vars (to_expr a)) \/ In v (expr_vars (to_expr b)).
Proof.
  destruct a, b; simpl; try tauto; intros H; apply in_app_or in H; exact H.
Qed.

Lemma row_sum_shape g N K i :
  covers g N -> (K <= N)%nat -> (i < N)%nat ->
  exists su,
    for_each (range K) (fun j su =>
      do v <- tget g i j; Ok (padd su (PExpr (EVar v)))) (PNum 0)
    = Ok su /\
    forall v, In v (expr_vars (to_expr su)) -> in_use N K v.
Proof.
  intros Hg HK Hi.
  apply (for_range_inv (fun (k : nat) su =>
      forall v, In v (expr_vars (to_expr su)) -> in_use N K v)).
  - intros v [].
  - intros k su Hk Hvars. rewrite (tget_covers g N i k) by (auto; lia).
    cbn [rbind]. eexists. split; [reflexivity|].
    intros v Hv. apply expr_vars_padd in Hv. destruct Hv as [Hv|Hv]; [auto|].
    simpl in Hv. destruct Hv as [<-|[]]. split; simpl; lia.
Qed.

Lemma column_sum_shape g N K j :
  covers g N -> (N = 0 \/ K <= N)%nat -> (j < K)%nat ->
  exists su,
    for_each (range N) (fun i su =>
      do v <- tget g i j; Ok (padd su (PExpr (EVar v)))) (PNum 0)
    = Ok su /\
    forall v, In v (expr_vars (to_expr su)) -> in_use N K v.
Proof.
  intros Hg HK Hj.
  apply (for_range_inv (fun (i : nat) su =>
      forall v, In v (expr_vars (to_expr su)) -> in_use N K v)).
  - intros v [].
  - intros i su Hi Hvars. rewrite (tget_covers g N i j) by (auto; lia).
    cbn [rbind]. eexists. split; [reflexivity|].
    intros v Hv. apply expr_vars_padd in Hv. destruct Hv as [Hv|Hv]; [auto|].
    simpl in Hv. destruct Hv as [<-|[]]. split; simpl; lia.
Qed.

Lemma grown_refl N K m : grown N K m 0 m.
Proof. unfold grown. repeat split; auto; lia. Qed.

Lemma grown_trans N K m1 m2 m3 a b :
  grown N K m1 a m2 -> grown N K m2 b m3 -> grown N K m1 (a + b) m3.
Proof.
  intros (A1 & A2 & A3 & A4 & A5) (B1 & B2 & B3 & B4 & B5).
  unfold grown. repeat split; try congruence; [lia|].
  intros c Hc. destruct (B5 c Hc) as [Hc2|Hv]; [apply A5; exact Hc2 | right; exact Hv].
Qed.

Lemma addConstr_grown N K m lhs s rhs name :
  (forall v, In v (expr_vars (to_expr lhs)) -> in_use N K v) ->
  exists m', addConstr m lhs s rhs name = Ok m' /\ grown N K m 1 m'.
Proof.
  intros He. eexists. split; [reflexivity|].
  unfold grown. simpl. repeat split; auto.
  - rewrite length_app. simpl. lia.
  - intros c Hc. apply in_app_or in Hc. destruct Hc as [Hc|[<-|[]]]; auto.
Qed.

Lemma add_one_group_constrs_grown g N K m :
  covers g N -> (N = 0 \/ K <= N)%nat ->
  exists m', add_one_group_constrs g N K m = Ok m' /\ grown N K m N m'.
Proof.
  intros Hg HK. unfold add_one_group_constrs.
  apply (for_range_inv (fun n m' => grown N K m n m')).
  - apply grown_refl.
  - intros i m1 Hi Hgrown.
    destruct (row_sum_shape g N K i Hg ltac:(lia) Hi) as (su & -> & He).
    cbn [rbind].
    destruct (addConstr_grown N K m1 su Equal 1 (exactly_one_group i) He)
      as (m2 & -> & Hg2).
    exists m2. split; [reflexivity|].
    replace (S i) with (i + 1)%nat by lia. eapply grown_trans; eauto.
Qed.

Lemma add_size_constrs_grown g N K min_size max_size m :
  covers g N -> (N = 0 \/ K <= N)%nat ->
  exists m', add_size_constrs g N K min_size max_size m = Ok m' /\
    grown N K m (K * bounds_set min_size max_size) m'.
Proof.
  intros Hg HK. unfold add_size_constrs.
  apply (for_range_inv
    (fun n m' => grown N K m (n * bounds_set min_size max_size) m')).
  - apply grown_refl.
  - intros j m1 Hj Hgrown.
    destruct (column_sum_shape g N K j Hg HK Hj) as (su & -> & He).
    cbn [rbind].
    assert (H1 : exists m2,
      match min_size with
      | Some lo => addConstr m1 su GreaterEqual (inject_Z lo) min_league_size
      | None => Ok m1
      end = Ok m2 /\ grown N K m1 (match min_size with Some _ => 1 | None => 0 end) m2).
    { destruct min_size as [lo|].
      - apply addConstr_grown. exact He.
      - exists m1. split; [reflexivity | apply grown_refl]. }
    destruct H1 as (m2 & -> & Hg2). cbn [rbind].
    assert (H2 : exists m3,
      match max_size with
      | Some hi => addConstr m2 su LessEqual (inject_Z hi) max_league_size
      | None => Ok m2
      end = Ok m3 /\ grown N K m2 (match max_size with Some _ => 1 | None => 0 end) m3).
    { destruct max_size as [hi|].
      - apply addConstr_grown. exact He.
      - exists m2. split; [reflexivity | apply grown_refl]. }
    destruct H2 as (m3 & -> & Hg3).
    exists m3. split; [reflexivity|].
    replace (S j * bounds_set min_size max_size)%nat
      with (j * bounds_set min_size max_size
            + ((match min_size with Some _ => 1 | None => 0 end)
               + (match max_size with Some _ => 1 | None => 0 end)))%nat
      by (unfold bounds_set; lia).
    eapply grown_trans; [exact Hgrown|]. eapply grown_trans; eauto.
Qed.

Lemma co_membership_shape g N K i j :
  covers g N -> (K <= N)%nat -> (i < N)%nat -> (j < N)%nat ->
  exists su, co_membership g K i j = Ok su /\
    forall v, In v (expr_vars (to_expr su)) -> in_use N K v.
Proof.
  intros Hg HK Hi Hj. unfold co_membership.
  destruct (for_range_inv (fun (k : nat) su =>
      forall v, In v (expr_vars (to_expr su)) -> in_use N K v)
    (fun k su =>
       do gi <- tget g i k;
       do gj <- tget g j k;
       Ok (padd su (PExpr (EMul (EVar gi) (EVar gj)))))
    K (PNum 0)) as (su & Hrun & Hvars).
  - intros v [].
  - intros k su Hk Hvars.
    rewrite (tget_covers g N i k), (tget_covers g N j k) by (auto; lia).
    cbn [rbind]. eexists. split; [reflexivity|].
    intros v Hv. apply expr_vars_padd in Hv. destruct Hv as [Hv|Hv]; [auto|].
    simpl in Hv. destruct Hv as [<-|[<-|[]]]; split; simpl; lia.
  - exists su. split; [exact Hrun | exact Hvars].
Qed.

Lemma build_objective_shape matrix g N K obj :
  covers g N -> (K <= N)%nat ->
  build_objective matrix g N K = Ok obj ->
  forall v, In v (expr_vars (to_expr obj)) -> in_use N K v.
Proof.
  intros Hg HK Hrun. unfold build_objective, range in Hrun.
  replace N with (0 + N)%nat in Hrun at 1 by reflexivity.
  revert Hrun.
  apply (for_each_seq_post (fun (_ : nat) obj =>
    forall v, In v (expr_vars (to_expr obj)) -> in_use N K v)).
  - intros v [].
  - intros i t t' Hi Ht. unfold range.
    apply (for_each_seq_post (fun (_ : nat) obj =>
      forall v, In v (expr_vars (to_expr obj)) -> in_use N K v)
      _ N 0 t t' Ht).
    intros j u u' Hj Hu.
    destruct (j <=? i)%nat; [intros [= <-]; exact Hu|].
    destruct (co_membership_shape g N K i j Hg HK) as (su & -> & Hsu); [lia..|].
    cbn [rbind].
    destruct (mget matrix i j) as [mij|]; [|discriminate]. cbn [rbind].
    destruct (mget matrix j i) as [mji|]; [|discriminate]. cbn [rbind].
    intros [= <-] v Hv.
    apply expr_vars_padd in Hv. destruct Hv as [Hv|Hv]; [auto|].
    apply expr_vars_pmul in Hv. destruct Hv as [Hv|[]].
    apply (expr_vars_psub (PNum 1) su) in Hv. destruct Hv as [[]|Hv]. auto.
Qed.

Lemma build_objective_no_teams matrix g K obj :
  build_objective matrix g 0 K = Ok obj -> obj = PNum 0.
Proof. unfold build_objective. simpl. congruence. Qed.

Lemma build_model_grown matrix K min_size max_size g m :
  build_model matrix K min_size max_size = Ok (g, m) ->
  (forall v, In v (m_vars m) <->
     (v_team v < length matrix)%nat /\ (v_index v < length matrix)%nat) /\
  length (m_vars m) = (length matrix * length matrix)%nat /\
  length (m_constrs m)
    = (length matrix + K * bounds_set min_size max_size)%nat /\
  (forall v, In v (expr_vars (to_expr (m_objective m))) ->
     in_use (length matrix) K v) /\
  (forall c v, In c (m_constrs m) -> In v (expr_vars (c_lhs c)) ->
     in_use (length matrix) K v).
Proof.
  intros Hbuild.
  pose proof (build_model_ok_bounds _ _ _ _ _ _ Hbuild) as HK.
  unfold build_model in Hbuild.
  pose proof (add_vars_count (length matrix) new_model) as Hcount.
  pose proof (add_vars_spec (length matrix) new_model) as Hspec.
  pose proof (tget_add_vars_in (length matrix) new_model) as Hin.
  destruct (add_vars (length matrix) new_model) as [g0 m0].
  simpl in Hcount, Hin.
  assert (Hg : covers g0 (length matrix)).
  { intros p q Hp Hq. specialize (Hin p q Hp Hq). unfold tget in Hin.
    destruct (g0 !! (p, q)); congruence. }
  destruct Hspec as [_ Hvs _ _ Hcs]. simpl in Hcs, Hvs.
  assert (Hmem : forall v, In v (m_vars m0) <->
     (v_team v < length matrix)%nat /\ (v_index v < length matrix)%nat).
  { intros v. rewrite Hvs, andb_true_iff, !Nat.ltb_lt. tauto. }
  clear Hvs.
  destruct (build_objective matrix g0 (length matrix) K) as [obj|] eqn:Hobj;
    [|discriminate]. cbn [rbind] in Hbuild.
  destruct (add_one_group_constrs_grown g0 (length matrix) K
              (setObjective m0 obj MAXIMIZE) Hg HK) as (m2 & E2 & G2).
  rewrite E2 in Hbuild. cbn [rbind] in Hbuild.
  destruct (add_size_constrs_grown g0 (length matrix) K min_size max_size m2
              Hg HK) as (m3 & E3 & G3).
  rewrite E3 in Hbuild. cbn [rbind] in Hbuild. injection Hbuild as <- <-.
  pose proof (grown_trans _ _ _ _ _ _ _ G2 G3) as (V & O & _ & L & C).
  simpl in V, O, L, C. rewrite V, O, L, Hcs. simpl.
  split; [exact Hmem|].
  split; [exact Hcount|]. split; [reflexivity|]. split.
  - destruct HK as [HN|HK].
    + rewrite HN in Hobj. apply build_objective_no_teams in Hobj. subst obj.
      intros v [].
    + apply (build_objective_shape matrix g0 (length matrix) K obj Hg HK).
      exact Hobj.
  - intros c v Hc Hv. destruct (C c Hc) as [Hold|Hnew]; [|auto].
    rewrite Hcs in Hold. destruct Hold.
Qed.

(** X11: every model on which the solver is invoked holds exactly the
    variables [g_i_k] for i, k < N, N * N of them; N constraints on the
    entities plus, per group, one constraint for each bound that is set;
    and its objective and constraints mention only variables [g_i_k] with
    k < num_groups: the variables of the columns from num_groups on are
    created but used nowhere.  (With no group, or no entity, the
    constraints compare plain numbers and mention no variable at all.) *)
Theorem solver_model_size solver matrix K min_size max_size calls m :
  snd (optimize_ab solver matrix K min_size max_size calls) = calls ++ [m] ->
  (forall v, In v (m_vars m) <->
     (v_team v < length matrix)%nat /\ (v_index v < length matrix)%nat) /\
  length (m_vars m) = (length matrix * length matrix)%nat /\
  length (m_constrs m)
    = (length matrix + K * bounds_set min_size max_size)%nat /\
  (forall v, In v (expr_vars (to_expr (m_objective m))) ->
     in_use (length matrix) K v) /\
  (forall c v, In c (m_constrs m) -> In v (expr_vars (c_lhs c)) ->
     in_use (length matrix) K v).
Proof.
  unfold optimize_ab.
  destruct (build_model matrix K min_size max_size) as [[g m']|e] eqn:Hbuild;
    simpl; intros Hcalls.
  - apply app_inv_head in Hcalls. injection Hcalls as ->.
    exact (build_model_grown _ _ _ _ _ _ Hbuild).
  - apply (f_equal (@length model)) in Hcalls.
    rewrite length_app in Hcalls. simpl in Hcalls. lia.
Qed.

Lemma solver_model_size_witness :
  snd (optimize_ab (fun _ => None) four_teams 2 (Some 2%Z) None [])
    = [] ++ [snd (built four_teams 2 (Some 2%Z) None)] /\
  length (m_vars (snd (built four_teams 2 (Some 2%Z) None))) = 16%nat /\
  length (m_constrs (snd (built four_teams 2 (Some 2%Z) None))) = 6%nat.
Proof.
  assert (Hcalls :
    snd (optimize_ab (fun _ => None) four_teams 2 (Some 2%Z) None [])
    = [] ++ [snd (built four_teams 2 (Some 2%Z) None)])
    by (vm_compute; reflexivity).
  split; [exact Hcalls|].
  destruct (solver_model_size (fun _ => None) four_teams 2 (Some 2%Z) None []
              (snd (built four_teams 2 (Some 2%Z) None)) Hcalls)
    as (_ & Hvars & Hconstrs & _).
  split; [exact Hvars | exact Hconstrs].
Defined.

(** ** The generator with a car metric *)

Lemma metric_in_METRICS metric : metric ∈ METRICS.
Proof. destruct metric; unfold METRICS; apply list_elem_of_In; simpl; auto. Qed.

(** X12: with [distance_car] or [duration_car] as metric, [example_matrix]
    fails with [TypeError] as soon as there are two entities; for n <= 1
    the metric is never called and the matrix of zeros is returned. *)
Theorem example_matrix_car_metric_unusable
    geodesic_meters rng randint n metric r :
  metric <> Distance_straight_line ->
  fst (example_matrix geodesic_meters rng randint n metric r)
  = if (n <=? 1)%nat then Ok (replicate n [Py.VNum 0]) else Raise TypeError.
Proof.
  intros Hm. unfold example_matrix.
  rewrite bool_decide_eq_true_2 by apply metric_in_METRICS.
  pose proof (random_coordinates_length rng randint n r) as Hlen.
  destruct (random_coordinates rng randint n r) as [coordinates r'].
  simpl in Hlen. cbn [fst].
  destruct n as [|[|n]]; [reflexivity | reflexivity |].
  destruct coordinates as [|c0 [|c1 rest]]; try discriminate.
  destruct metric; [reflexivity | reflexivity | contradiction].
Qed.

Lemma example_matrix_car_metric_unusable_witness :
  Duration_car <> Distance_straight_line /\
  fst (example_matrix grid_distance nat counter_randint 3 Duration_car O)
  = if (3 <=? 1)%nat then Ok (replicate 3 [Py.VNum 0]) else Raise TypeError.
Proof.
  split; [discriminate|].
  apply (example_matrix_car_metric_unusable grid_distance nat counter_randint 3
           Duration_car O).
  discriminate.
Defined.

(** ** The coordinates behind the generated matrix *)

Lemma random_coordinates_in_rectangle rng randint n r :
  randint_in_range randint ->
  Forall in_rectangle (fst (random_coordinates rng randint n r)).
Proof.
  intros Hrand. revert r. induction n as [|n IH]; intros r; simpl.
  - constructor.
  - pose proof (Hrand 48%Z 55%Z r ltac:(lia)) as Hlat.
    destruct (randint 48%Z 55%Z r) as [lat r1].
    pose proof (Hrand 6%Z 15%Z r1 ltac:(lia)) as Hlon.
    destruct (randint 6%Z 15%Z r1) as [lon r2].
    specialize (IH r2).
    destruct (random_coordinates rng randint n r2) as [rest r3].
    simpl in *. constructor; [split; simpl; lia | exact IH].
Qed.

Lemma in_rectangle_listed c : in_rectangle c -> In c rectangle.
Proof.
  destruct c as [lat lon]. intros [Hlat Hlon]. simpl in Hlat, Hlon.
  unfold rectangle. apply in_prod; simpl; lia.
Qed.

Lemma duplicate_indices {A : Type} `{EqDecision A} (l : list A) :
  ~ List.NoDup l ->
  exists i j x, (i < j)%nat /\ l !! i = Some x /\ l !! j = Some x.
Proof.
  induction l as [|a l IH]; intros Hdup.
  - destruct Hdup. constructor.
  - destruct (decide (a ∈ l)) as [Hin|Hnin].
    + apply list_elem_of_lookup_1 in Hin. destruct Hin as [j Hj].
      exists O, (S j), a. split; [lia|]. split; [reflexivity | exact Hj].
    + destruct IH as (i & j & x & Hij & Hi & Hj).
      { intros Hnd. apply Hdup. constructor; [|exact Hnd].
        intros Hin. apply Hnin. apply list_elem_of_In. exact Hin. }
      exists (S i), (S j), x. split; [lia|]. split; assumption.
Qed.

Lemma coinciding_coordinates (coordinates : list coordinate) :
  Forall in_rectangle coordinates -> (80 < length coordinates)%nat ->
  exists i j c, (i < j)%nat /\
    coordinates !! i = Some c /\ coordinates !! j = Some c.
Proof.
  intros Hrect Hlen. apply duplicate_indices. intros Hnd.
  assert (Hincl : incl coordinates rectangle).
  { intros c Hc. apply in_rectangle_listed.
    rewrite List.Forall_forall in Hrect. apply Hrect. exact Hc. }
  pose proof (NoDup_incl_length Hnd Hincl) as Hle.
  change (length rectangle) with 80%nat in Hle. lia.
Qed.

Lemma example_matrix_entry geodesic_meters rng randint n r :
  exists matrix,
    fst (example_matrix geodesic_meters rng randint n Distance_straight_line r)
      = Ok matrix /\
    forall i j ci cj,
      fst (random_coordinates rng randint n r) !! i = Some ci ->
      fst (random_coordinates rng randint n r) !! j = Some cj ->
      entry matrix i j
      = Some (Py.VNum (if (i =? j)%nat then 0 else geodesic_meters ci cj)).
Proof.
  destruct (example_matrix_filled geodesic_meters rng randint n r)
    as (matrix & Hrun & Hlen & Hrows).
  exists matrix. split; [exact Hrun|].
  intros i j ci cj Hci Hcj.
  pose proof (random_coordinates_length rng randint n r) as Hclen.
  assert (Hi : (i < n)%nat) by (rewrite <- Hclen; eapply lookup_lt_Some; eauto).
  assert (Hj : (j < n)%nat) by (rewrite <- Hclen; eapply lookup_lt_Some; eauto).
  destruct (Hrows i Hi) as (row & Hrow & _ & Hcells).
  unfold entry. rewrite Hrow, (Hcells j Hj).
  unfold straight_line_cell, coordinate in *. rewrite Hci, Hcj. simpl.
  destruct (i =? j)%nat; reflexivity.
Qed.

(** X13: with the default metric, the matrix returned is the table of the
    geodesic distances between n coordinates drawn from the rectangle
    48..55 by 6..15: [matrix[i][j]] is 0 for i = j and the distance from
    the i-th to the j-th coordinate otherwise. *)
Theorem example_matrix_distances_of_drawn_coordinates
    geodesic_meters rng randint n r :
  randint_in_range randint ->
  exists coordinates matrix,
    length coordinates = n /\
    Forall in_rectangle coordinates /\
    fst (example_matrix geodesic_meters rng randint n Distance_straight_line r)
      = Ok matrix /\
    forall i j ci cj,
      coordinates !! i = Some ci -> coordinates !! j = Some cj ->
      entry matrix i j
      = Some (Py.VNum (if (i =? j)%nat then 0 else geodesic_meters ci cj)).
Proof.
  intros Hrand.
  destruct (example_matrix_entry geodesic_meters rng randint n r)
    as (matrix & Hrun & Hentry).
  exists (fst (random_coordinates rng randint n r)), matrix.
  split; [apply random_coordinates_length|].
  split; [apply random_coordinates_in_rectangle; exact Hrand|].
  split; [exact Hrun | exact Hentry].
Qed.

Lemma counter_randint_in_range : randint_in_range counter_randint.
Proof.
  intros a b r Hab. unfold counter_randint. simpl.
  pose proof (Z.mod_pos_bound (Z.of_nat r) (b - a + 1) ltac:(lia)). lia.
Qed.

Lemma example_matrix_distances_of_drawn_coordinates_witness :
  randint_in_range counter_randint /\
  exists coordinates matrix,
    length coordinates = 3%nat /\
    Forall in_rectangle coordinates /\
    fst (example_matrix grid_distance nat counter_randint 3
           Distance_straight_line O) = Ok matrix /\
    forall i j ci cj,
      coordinates !! i = Some ci -> coordinates !! j = Some cj ->
      entry matrix i j
      = Some (Py.VNum (if (i =? j)%nat then 0 else grid_distance ci cj)).
Proof.
  split; [exact counter_randint_in_range|].
  apply (example_matrix_distances_of_drawn_coordinates grid_distance nat
           counter_randint 3 O).
  exact counter_randint_in_range.
Defined.

(** X14: the rectangle holds 80 points with integer coordinates, so among
    more than 80 entities (the program draws 100) two have the same
    coordinates: the matrix returned has an off-diagonal pair of entries that
    is the distance from a point to itself. *)
Theorem example_matrix_coinciding_entities
    geodesic_meters rng randint n r :
  randint_in_range randint -> (80 < n)%nat ->
  exists matrix i j c,
    fst (example_matrix geodesic_meters rng randint n Distance_straight_line r)
      = Ok matrix /\
    (i < j < n)%nat /\ in_rectangle c /\
    entry matrix i j = Some (Py.VNum (geodesic_meters c c)) /\
    entry matrix j i = Some (Py.VNum (geodesic_meters c c)).
Proof.
  intros Hrand Hn.
  destruct (example_matrix_entry geodesic_meters rng randint n r)
    as (matrix & Hrun & Hentry).
  pose proof (random_coordinates_length rng randint n r) as Hclen.
  pose proof (random_coordinates_in_rectangle rng randint n r Hrand) as Hrect.
  destruct (coinciding_coordinates _ Hrect) as (i & j & c & Hij & Hi & Hj);
    [lia|].
  exists matrix, i, j, c. split; [exact Hrun|].
  split; [split; [exact Hij | rewrite <- Hclen; eapply lookup_lt_Some; eauto]|].
  split.
  { rewrite List.Forall_forall in Hrect. apply Hrect.
    apply list_elem_of_In. eapply list_elem_of_lookup_2. exact Hi. }
  rewrite (Hentry i j c c Hi Hj), (Hentry j i c c Hj Hi).
  replace (i =? j)%nat with false by (symmetry; apply Nat.eqb_neq; lia).
  replace (j =? i)%nat with false by (symmetry; apply Nat.eqb_neq; lia).
  split; reflexivity.
Qed.

Lemma example_matrix_coinciding_entities_witness :
  randint_in_range counter_randint /\ (80 < 81)%nat /\
  exists matrix i j c,
    fst (example_matrix grid_distance nat counter_randint 81
           Distance_straight_line O) = Ok matrix /\
    (i < j < 81)%nat /\ in_rectangle c /\
    entry matrix i j = Some (Py.VNum (grid_distance c c)) /\
    entry matrix j i = Some (Py.VNum (grid_distance c c)).
Proof.
  split; [exact counter_randint_in_range|]. split; [lia|].
  apply (example_matrix_coinciding_entities grid_distance nat counter_randint
           81 O).
  - exact counter_randint_in_range.
  - lia.
Defined.

(** ** The grouping loop of [main] *)

Lemma for_each_app {St A : Type} (l1 l2 : list A) (body : A -> St -> result St) s :
  for_each (l1 ++ l2) body s = do s' <- for_each l1 body s; for_each l2 body s'.
Proof.
  revert s. induction l1 as [|a l1 IH]; intros s; simpl; [reflexivity|].
  destruct (body a s) as [s1|e]; simpl; [apply IH | reflexivity].
Qed.

Lemma combine_seq_snoc {A : Type} (l : list A) (x : A) a :
  combine (seq a (length l + 1)) (l ++ [x])
  = combine (seq a (length l)) l ++ [(a + length l, x)%nat].
Proof.
  revert a. induction l as [|y l IH]; intros a; simpl.
  - rewrite Nat.add_0_r. reflexivity.
  - rewrite IH, Nat.add_succ_r. reflexivity.
Qed.

Lemma enumerate_snoc {A : Type} (l : list A) (x : A) :
  enumerate (l ++ [x]) = enumerate l ++ [(length l, x)].
Proof.
  unfold enumerate. rewrite length_app. simpl length.
  exact (combine_seq_snoc l x 0).
Qed.

Lemma main_groups_snoc K l x :
  main_groups K (l ++ [x])
  = do groups <- main_groups K l;
    match x with
    | None => Raise TypeError
    | Some group =>
        match groups !! group with
        | Some members => Ok (<[group := members ++ [length l]]> groups)
        | None => Raise IndexError
        end
    end.
Proof.
  unfold main_groups. rewrite enumerate_snoc, for_each_app.
  destruct (for_each (enumerate l) _ _) as [groups|e]; simpl; [|reflexivity].
  destruct x as [k|]; [|reflexivity].
  destruct (groups !! k); reflexivity.
Qed.

Lemma members_snoc l x k :
  members (l ++ [x]) k
  = members l k ++ (if bool_decide (x = Some k) then [length l] else []).
Proof.
  unfold members. rewrite length_app. simpl length.
  rewrite seq_app, List.filter_app. simpl seq. f_equal.
  - apply List.filter_ext_in. intros i Hi. apply in_seq in Hi.
    rewrite lookup_app_l by lia. reflexivity.
  - simpl. rewrite lookup_app_r by lia. rewrite Nat.sub_diag. simpl.
    destruct (decide (x = Some k)) as [->|Hne].
    + rewrite !bool_decide_eq_true_2 by reflexivity. reflexivity.
    + rewrite !bool_decide_eq_false_2 by congruence. reflexivity.
Qed.

Lemma first_invalid_snoc K l x :
  first_invalid K (l ++ [x])
  = match first_invalid K l with
    | Some e => Some e
    | None => first_invalid K [x]
    end.
Proof.
  induction l as [|[k|] l IH]; simpl; [reflexivity | | reflexivity].
  destruct (K <=? k)%nat; [reflexivity | exact IH].
Qed.

(** What the loop does, for whatever list it is given. *)
Lemma main_groups_cases K l :
  main_groups K l
  = match first_invalid K l with
    | Some e => Raise e
    | None => Ok (members l <$> seq 0 K)
    end.
Proof.
  induction l as [|x l IH] using rev_ind.
  - simpl. unfold main_groups, members. simpl. f_equal.
    apply list_eq. intros j. rewrite list_lookup_fmap.
    destruct (decide (j < K)%nat) as [Hj|Hj].
    + rewrite lookup_replicate_2, lookup_seq_lt by lia. reflexivity.
    + rewrite (proj1 (lookup_replicate_None K [] j)), lookup_seq_ge by lia.
      reflexivity.
  - rewrite main_groups_snoc, first_invalid_snoc, IH.
    destruct (first_invalid K l) as [e|]; [reflexivity|]. cbn [rbind].
    destruct x as [k|]; [|reflexivity]. simpl.
    destruct (Nat.leb_spec K k) as [Hk|Hk].
    + rewrite list_lookup_fmap, lookup_seq_ge by lia. reflexivity.
    + rewrite list_lookup_fmap, lookup_seq_lt by lia. simpl. f_equal.
      apply list_eq. intros j. rewrite !list_lookup_fmap.
      destruct (decide (j < K)%nat) as [Hj|Hj].
      * destruct (decide (j = k)) as [->|Hne].
        -- rewrite list_lookup_insert_eq by (rewrite length_fmap, length_seq; lia).
           rewrite lookup_seq_lt by lia. simpl. rewrite members_snoc.
           rewrite bool_decide_eq_true_2 by reflexivity. reflexivity.
        -- rewrite list_lookup_insert_ne by auto.
           rewrite list_lookup_fmap, lookup_seq_lt by lia. simpl.
           rewrite members_snoc.
           rewrite bool_decide_eq_false_2 by congruence.
           rewrite app_nil_r. reflexivity.
      * rewrite lookup_seq_ge by lia.
        destruct (decide (j = k)) as [->|Hne]; [lia|].
        rewrite list_lookup_insert_ne by auto.
        rewrite list_lookup_fmap, lookup_seq_ge by lia. reflexivity.
Qed.

Lemma first_invalid_all_grouped K l :
  all_grouped K l -> first_invalid K l = None.
Proof.
  induction l as [|x l IH]; intros Hall; [reflexivity|].
  destruct (Hall O ltac:(simpl; lia)) as (k & Hk & E). simpl in E.
  injection E as ->. simpl.
  replace (K <=? k)%nat with false by (symmetry; apply Nat.leb_gt; lia).
  apply IH. intros i Hi. apply (Hall (S i)). simpl. lia.
Qed.

Lemma first_invalid_at K l i x :
  (forall i', (i' < i)%nat -> exists k, (k < K)%nat /\ l !! i' = Some (Some k)) ->
  l !! i = Some x ->
  (forall k, x = Some k -> (K <= k)%nat) ->
  first_invalid K l
  = Some (match x with None => TypeError | Some _ => IndexError end).
Proof.
  revert i. induction l as [|y l IH]; intros i Hbefore Hi Hx; [discriminate|].
  destruct i as [|i].
  - simpl in Hi. injection Hi as ->. destruct x as [k|]; simpl; [|reflexivity].
    replace (K <=? k)%nat with true by (symmetry; apply Nat.leb_le; auto).
    reflexivity.
  - destruct (Hbefore O ltac:(lia)) as (k & Hk & E). simpl in E.
    injection E as ->. simpl.
    replace (K <=? k)%nat with false by (symmetry; apply Nat.leb_gt; lia).
    apply (IH i); [|exact Hi | exact Hx].
    intros i' Hi'. apply (Hbefore (S i')). lia.
Qed.

Lemma first_invalid_unassigned K l i :
  (forall i' k, l !! i' = Some (Some k) -> (k < K)%nat) ->
  l !! i = Some None ->
  first_invalid K l = Some TypeError.
Proof.
  revert i. induction l as [|y l IH]; intros i Hbelow Hi; [discriminate|].
  destruct y as [k|]; [|reflexivity]. simpl.
  pose proof (Hbelow O k eq_refl) as Hk.
  replace (K <=? k)%nat with false by (symmetry; apply Nat.leb_gt; lia).
  destruct i as [|i]; [discriminate|].
  apply (IH i); [|exact Hi]. intros i' k' E. apply (Hbelow (S i') k'). exact E.
Qed.

Lemma members_In l k i :
  In i (members l k) <-> l !! i = Some (Some k).
Proof.
  unfold members. rewrite List.filter_In, in_seq, bool_decide_eq_true.
  split; [tauto|]. intros E. split; [|exact E].
  apply lookup_lt_Some in E. lia.
Qed.

Lemma filter_seq_S (p : nat -> bool) a n :
  List.filter p (seq a (S n))
  = List.filter p (seq a n) ++ (if p (a + n)%nat then [(a + n)%nat] else []).
Proof.
  rewrite seq_S, List.filter_app. simpl. destruct (p (a + n)%nat); reflexivity.
Qed.

Lemma filter_seq_length (p : nat -> bool) n :
  length (List.filter p (seq 0 n)) = count_upto n p.
Proof.
  induction n as [|n IH]; [reflexivity|].
  rewrite filter_seq_S, length_app, IH. simpl.
  destruct (p n); reflexivity.
Qed.

Lemma filter_seq_ascending (p : nat -> bool) n :
  ascending (List.filter p (seq 0 n)).
Proof.
  induction n as [|n IH]; [intros i j a b _ Hi; discriminate|].
  rewrite filter_seq_S. simpl.
  destruct (p n); [|rewrite app_nil_r; exact IH].
  intros i j a b Hij Hi Hj.
  destruct (decide (j < length (List.filter p (seq 0 n)))%nat) as [Hlt|Hge].
  - rewrite lookup_app_l in Hi, Hj by lia. exact (IH i j a b Hij Hi Hj).
  - rewrite lookup_app_l in Hi.
    + rewrite lookup_app_r in Hj by lia.
      destruct (j - length (List.filter p (seq 0 n)))%nat as [|d];
        [|destruct d; discriminate].
      injection Hj as <-.
      apply list_elem_of_lookup_2, list_elem_of_In in Hi.
      apply List.filter_In in Hi. destruct Hi as [Hi _].
      apply in_seq in Hi. lia.
    + apply lookup_lt_Some in Hj. rewrite length_app in Hj. simpl in Hj. lia.
Qed.

Lemma main_groups_all_grouped K t2g :
  all_grouped K t2g ->
  main_groups K t2g = Ok (members t2g <$> seq 0 K).
Proof.
  intros Hall. rewrite main_groups_cases, (first_invalid_all_grouped K t2g Hall).
  reflexivity.
Qed.

Lemma members_groups_lookup t2g K k ms :
  (members t2g <$> seq 0 K) !! k = Some ms <-> (k < K)%nat /\ ms = members t2g k.
Proof.
  rewrite list_lookup_fmap. destruct (decide (k < K)%nat) as [Hk|Hk].
  - rewrite lookup_seq_lt by lia. simpl. split.
    + intros [= <-]. auto.
    + intros [_ ->]. reflexivity.
  - rewrite lookup_seq_ge by lia. simpl. split; [discriminate | lia].
Qed.

(** X15: when every entry of [teams_to_groups] is a group index below
    [num_groups], the grouping loop of [main] returns [num_groups] lists
    that partition the entities: list k holds exactly the entities assigned
    to k, in ascending order, and as many as the group has members. *)
Theorem main_groups_partition K t2g :
  all_grouped K t2g ->
  exists groups,
    main_groups K t2g = Ok groups /\ length groups = K /\
    forall k, (k < K)%nat ->
      exists ms, groups !! k = Some ms /\
        (forall i, In i ms <-> t2g !! i = Some (Some k)) /\
        ascending ms /\
        length ms = group_size t2g k.
Proof.
  intros Hall. exists (members t2g <$> seq 0 K).
  split; [apply main_groups_all_grouped; exact Hall|].
  split; [rewrite length_fmap, length_seq; reflexivity|].
  intros k Hk. exists (members t2g k).
  split; [apply members_groups_lookup; auto|].
  split; [intros i; apply members_In|].
  split; [apply filter_seq_ascending | apply filter_seq_length].
Qed.

Lemma main_groups_partition_witness :
  all_grouped 2 [Some 0; Some 1; Some 0; Some 1]%nat /\
  exists groups,
    main_groups 2 [Some 0; Some 1; Some 0; Some 1]%nat = Ok groups /\
    length groups = 2%nat /\
    forall k, (k < 2)%nat ->
      exists ms, groups !! k = Some ms /\
        (forall i, In i ms
           <-> [Some 0; Some 1; Some 0; Some 1]%nat !! i = Some (Some k)) /\
        ascending ms /\
        length ms = group_size [Some 0; Some 1; Some 0; Some 1]%nat k.
Proof.
  assert (Hall : all_grouped 2 [Some 0; Some 1; Some 0; Some 1]%nat).
  { intros i Hi. simpl in Hi.
    destruct i as [|[|[|[|i]]]]; [exists 0%nat | exists 1%nat | exists 0%nat
                                 | exists 1%nat | lia];
      (split; [lia | reflexivity]). }
  split; [exact Hall|].
  apply (main_groups_partition 2 [Some 0; Some 1; Some 0; Some 1]%nat Hall).
Defined.

(** The loop run on the assignment of the example. *)
Example main_groups_alternating :
  main_groups 2 [Some 0; Some 1; Some 0; Some 1]%nat = Ok [[0; 2]; [1; 3]]%nat.
Proof. reflexivity. Qed.

(** X16: the grouping loop of [main] fails at the first entry that is no
    group index below [num_groups]: with [TypeError] when that entry is
    [None], with [IndexError] when it is a number from [num_groups] on. *)
Theorem main_groups_fails_at_first_invalid K t2g i x :
  (forall i', (i' < i)%nat ->
     exists k, (k < K)%nat /\ t2g !! i' = Some (Some k)) ->
  t2g !! i = Some x ->
  (forall k, x = Some k -> (K <= k)%nat) ->
  main_groups K t2g
  = Raise (match x with None => TypeError | Some _ => IndexError end).
Proof.
  intros Hbefore Hi Hx.
  rewrite main_groups_cases, (first_invalid_at K t2g i x Hbefore Hi Hx).
  reflexivity.
Qed.

Lemma main_groups_fails_at_first_invalid_witness :
  (forall i', (i' < 1)%nat ->
     exists k, (k < 2)%nat /\
       [Some 0; Some 7; None]%nat !! i' = Some (Some k)) /\
  [Some 0; Some 7; None]%nat !! 1%nat = Some (Some 7%nat) /\
  (forall k, Some 7%nat = Some k -> (2 <= k)%nat) /\
  main_groups 2 [Some 0; Some 7; None]%nat = Raise IndexError.
Proof.
  assert (Hbefore : forall i', (i' < 1)%nat ->
     exists k, (k < 2)%nat /\
       [Some 0; Some 7; None]%nat !! i' = Some (Some k)).
  { intros i' Hi'. destruct i' as [|i']; [|lia].
    exists 0%nat. split; [lia | reflexivity]. }
  assert (Hx : forall k, Some 7%nat = Some k -> (2 <= k)%nat).
  { intros k [= <-]. lia. }
  split; [exact Hbefore|]. split; [reflexivity|]. split; [exact Hx|].
  exact (main_groups_fails_at_first_invalid 2 [Some 0; Some 7; None]%nat 1
           (Some 7%nat) Hbefore eq_refl Hx).
Defined.

(** ** [optimize_ab] followed by the grouping loop, as in [main] *)

(** X17: for a square matrix, 1 <= num_groups <= N and a feasible solution
    returned by the solver, the assignment that [optimize_ab] returns goes
    through the grouping loop of [main]: it yields [num_groups] lists, every
    entity is in exactly one of them, and the length of every list
    respects the bounds that are set (with [min_size] = 1, as in [main], no
    group is empty). *)
Theorem feasible_assignment_is_grouped
    solver matrix K min_size max_size calls g m sol :
  square matrix -> (1 <= K <= length matrix)%nat ->
  build_model matrix K min_size max_size = Ok (g, m) ->
  solver m = Some sol ->
  feasible m (sol_X sol) = true ->
  exists t2g total groups,
    optimize_ab solver matrix K min_size max_size calls
      = (Ok (t2g, total), calls ++ [m]) /\
    main_groups K t2g = Ok groups /\
    length groups = K /\
    (forall i, (i < length matrix)%nat ->
       exists k ms, groups !! k = Some ms /\ In i ms /\
         forall k' ms', groups !! k' = Some ms' -> In i ms' -> k' = k) /\
    (forall k ms, groups !! k = Some ms ->
       within_bounds min_size max_size (length ms)).
Proof.
  intros Hsq HK Hbuild Hsolve Hf.
  destruct (optimize_ab_feasible solver matrix K min_size max_size calls g m sol
              Hsq HK Hbuild Hsolve Hf)
    as (Hspec & Hind & t2g & total & Hrun & Hlen & Ht & _).
  assert (Hall : all_grouped K t2g).
  { intros i Hi. rewrite Hlen in Hi. destruct (Hind i Hi) as [Hk _].
    exists (group_of (sol_X sol) K i). split; [exact Hk | apply Ht; exact Hi]. }
  exists t2g, total, (members t2g <$> seq 0 K).
  split; [exact Hrun|].
  split; [apply main_groups_all_grouped; exact Hall|].
  split; [rewrite length_fmap, length_seq; reflexivity|].
  split.
  - intros i Hi. destruct (Hind i Hi) as [Hk _].
    exists (group_of (sol_X sol) K i), (members t2g (group_of (sol_X sol) K i)).
    split; [apply members_groups_lookup; auto|].
    split; [apply members_In, Ht; exact Hi|].
    intros k' ms' Hms' Hin. apply members_groups_lookup in Hms'.
    destruct Hms' as [_ ->]. apply members_In in Hin.
    rewrite (Ht i Hi) in Hin. congruence.
  - intros k ms Hms. apply members_groups_lookup in Hms. destruct Hms as [Hk ->].
    unfold members. rewrite filter_seq_length.
    apply (group_sizes_within_bounds matrix K min_size max_size g m (sol_X sol)
             t2g k Hspec ltac:(lia) Hf Hlen Ht Hk).
Qed.

Lemma feasible_assignment_is_grouped_witness :
  square four_teams /\ (1 <= 2 <= length four_teams)%nat /\
  build_model four_teams 2 (Some 2%Z) (Some 2%Z)
    = Ok (fst (built four_teams 2 (Some 2%Z) (Some 2%Z)),
          snd (built four_teams 2 (Some 2%Z) (Some 2%Z))) /\
  (fun _ : model => Some alternating)
    (snd (built four_teams 2 (Some 2%Z) (Some 2%Z))) = Some alternating /\
  feasible (snd (built four_teams 2 (Some 2%Z) (Some 2%Z))) (sol_X alternating)
    = true /\
  exists t2g total groups,
    optimize_ab (fun _ => Some alternating) four_teams 2 (Some 2%Z) (Some 2%Z) []
      = (Ok (t2g, total), [] ++ [snd (built four_teams 2 (Some 2%Z) (Some 2%Z))]) /\
    main_groups 2 t2g = Ok groups /\
    length groups = 2%nat /\
    (forall i, (i < length four_teams)%nat ->
       exists k ms, groups !! k = Some ms /\ In i ms /\
         forall k' ms', groups !! k' = Some ms' -> In i ms' -> k' = k) /\
    (forall k ms, groups !! k = Some ms ->
       within_bounds (Some 2%Z) (Some 2%Z) (length ms)).
Proof.
  assert (Hbuild : build_model four_teams 2 (Some 2%Z) (Some 2%Z)
    = Ok (fst (built four_teams 2 (Some 2%Z) (Some 2%Z)),
          snd (built four_teams 2 (Some 2%Z) (Some 2%Z))))
    by (vm_compute; reflexivity).
  assert (Hf : feasible (snd (built four_teams 2 (Some 2%Z) (Some 2%Z)))
                 (sol_X alternating) = true)
    by (vm_compute; reflexivity).
  assert (HK : (1 <= 2 <= length four_teams)%nat) by (simpl; lia).
  split; [exact square_four_teams|]. split; [exact HK|].
  split; [exact Hbuild|]. split; [reflexivity|]. split; [exact Hf|].
  exact (feasible_assignment_is_grouped (fun _ => Some alternating) four_teams 2
           (Some 2%Z) (Some 2%Z) []
           (fst (built four_teams 2 (Some 2%Z) (Some 2%Z)))
           (snd (built four_teams 2 (Some 2%Z) (Some 2%Z))) alternating
           square_four_teams HK Hbuild eq_refl Hf).
Defined.

(** X18: an assignment returned by [optimize_ab] never makes the grouping
    loop of [main] fail with [IndexError]; but when it leaves an entity
    without group (no value of the entity above 0.5), the loop fails with
    [TypeError] on [groups[None]]. *)
Theorem unassigned_entity_breaks_grouping
    solver matrix K min_size max_size calls t2g total calls' :
  optimize_ab solver matrix K min_size max_size calls
    = (Ok (t2g, total), calls') ->
  main_groups K t2g <> Raise IndexError /\
  forall i, t2g !! i = Some None -> main_groups K t2g = Raise TypeError.
Proof.
  intros Hrun.
  assert (Hbelow : forall i k, t2g !! i = Some (Some k) -> (k < K)%nat).
  { intros i k Hi.
    destruct (optimize_ab_returned _ _ _ _ _ _ _ _ _ Hrun)
      as (g & m & _ & _ & Hlen & _ & [[_ ->]|(sol & _ & _ & _ & Ht)]).
    - apply lookup_replicate_1 in Hi. destruct Hi as [Hi _]. discriminate.
    - assert (Hlt : (i < length matrix)%nat)
        by (rewrite <- Hlen; eapply lookup_lt_Some; eauto).
      rewrite (Ht i Hlt) in Hi. injection Hi as Hi.
      apply first_upto_some in Hi. tauto. }
  split.
  - rewrite main_groups_cases.
    destruct (first_invalid K t2g) as [e|] eqn:E; [|discriminate].
    intros [= ->]. revert E. clear Hrun.
    induction t2g as [|[k|] l IH]; simpl; [discriminate | | discriminate].
    pose proof (Hbelow O k eq_refl) as Hk.
    replace (K <=? k)%nat with false by (symmetry; apply Nat.leb_gt; lia).
    apply IH. intros i k' Hi. apply (Hbelow (S i) k'). exact Hi.
  - intros i Hi.
    rewrite main_groups_cases, (first_invalid_unassigned K t2g i Hbelow Hi).
    reflexivity.
Qed.

Lemma unassigned_entity_breaks_grouping_witness :
  optimize_ab (fun _ => Some all_zero) [[0]] 1 None None []
    = (Ok ([None], 0), [snd (built [[0]] 1 None None)]) /\
  main_groups 1 [None] <> Raise IndexError /\
  forall i, [@None nat] !! i = Some None -> main_groups 1 [None] = Raise TypeError.
Proof.
  assert (Hrun : optimize_ab (fun _ => Some all_zero) [[0]] 1 None None []
    = (Ok ([None], 0), [snd (built [[0]] 1 None None)]))
    by (vm_compute; reflexivity).
  split; [exact Hrun|].
  exact (unassigned_entity_breaks_grouping (fun _ => Some all_zero) [[0]] 1
           None None [] [None] 0 [snd (built [[0]] 1 None None)] Hrun).
Defined.

(** ** Edge cases of the dimensions *)

Lemma build_model_builds matrix K min_size max_size :
  square matrix -> (length matrix = 0 \/ K <= length matrix)%nat ->
  exists g m, build_model matrix K min_size max_size = Ok (g, m).
Proof.
  intros Hsq HK. unfold build_model.
  pose proof (tget_add_vars_in (length matrix) new_model) as Hin.
  destruct (add_vars (length matrix) new_model) as [g0 m0]. simpl in Hin.
  assert (Hg : covers g0 (length matrix)).
  { intros p q Hp Hq. specialize (Hin p q Hp Hq). unfold tget in Hin.
    destruct (g0 !! (p, q)); congruence. }
  assert (Hobj : exists obj,
            build_objective matrix g0 (length matrix) K = Ok obj).
  { destruct HK as [HN|HK].
    - rewrite HN. exists (PNum 0). reflexivity.
    - destruct (build_objective_spec matrix g0 K Hsq Hg HK) as (obj & Hobj & _).
      exists obj. exact Hobj. }
  destruct Hobj as [obj ->]. cbn [rbind].
  destruct (add_one_group_constrs_grown g0 (length matrix) K
              (setObjective m0 obj MAXIMIZE) Hg HK) as (m2 & -> & _).
  cbn [rbind].
  destruct (add_size_constrs_grown g0 (length matrix) K min_size max_size m2
              Hg HK) as (m3 & -> & _).
  cbn [rbind]. exists g0, m3. reflexivity.
Qed.

(** X19: on the empty matrix [optimize_ab] returns the empty assignment
    and a total of 0, whatever the number of groups, the bounds and the
    solver's answer are; the solver is invoked once, on a model without
    variables that holds one constraint per group for each bound that is
    set. *)
Theorem empty_matrix_returns_empty_assignment solver K min_size max_size calls :
  exists m,
    optimize_ab solver [] K min_size max_size calls
      = (Ok ([], 0), calls ++ [m]) /\
    m_vars m = [] /\
    length (m_constrs m) = (K * bounds_set min_size max_size)%nat.
Proof.
  destruct (build_model_builds [] K min_size max_size)
    as (g & m & Hbuild); [constructor | left; reflexivity |].
  exists m.
  split; [apply (optimize_ab_no_teams solver [] K min_size max_size calls g m
                   eq_refl Hbuild)|].
  destruct (build_model_grown _ _ _ _ _ _ Hbuild) as (_ & Hvars & Hconstrs & _).
  simpl in Hvars, Hconstrs. split; [|exact Hconstrs].
  destruct (m_vars m); [reflexivity | discriminate].
Qed.

(** The empty matrix with a lower bound that no group can meet. *)
Example empty_matrix_with_bound :
  fst (optimize_ab (fun _ => None) [] 1 (Some 1%Z) None []) = Ok ([], 0).
Proof. reflexivity. Qed.

(** X20: with [num_groups] = 0 and a square matrix, [optimize_ab] returns
    every entity without group and a total of 0, after invoking the solver
    once: no value of the solver is read, so its answer plays no part. *)
Theorem no_groups_leaves_everyone_unassigned solver matrix min_size max_size calls :
  square matrix ->
  exists m,
    optimize_ab solver matrix 0 min_size max_size calls
      = (Ok (replicate (length matrix) None, 0), calls ++ [m]).
Proof.
  intros Hsq.
  destruct (build_model_builds matrix 0 min_size max_size Hsq ltac:(lia))
    as (g & m & Hbuild).
  exists m.
  apply (optimize_ab_no_groups solver matrix min_size max_size calls g m Hbuild).
Qed.

Lemma no_groups_leaves_everyone_unassigned_witness :
  square two_teams /\
  exists m,
    optimize_ab (fun _ => None) two_teams 0 None None []
      = (Ok (replicate (length two_teams) None, 0), [] ++ [m]).
Proof.
  split; [exact square_two_teams|].
  apply (no_groups_leaves_everyone_unassigned (fun _ => None) two_teams
           None None [] square_two_teams).
Defined.

(** ** What the result depends on in the matrix *)

Lemma for_each_same_constraints {A : Type} (l : list A)
    (body : A -> model -> result model) :
  (forall a m1 m2, same_constraints m1 m2 ->
     match body a m1, body a m2 with
     | Ok t1, Ok t2 => same_constraints t1 t2
     | Raise e1, Raise e2 => e1 = e2
     | _, _ => False
     end) ->
  forall m1 m2, same_constraints m1 m2 ->
    match for_each l body m1, for_each l body m2 with
    | Ok t1, Ok t2 => same_constraints t1 t2
    | Raise e1, Raise e2 => e1 = e2
    | _, _ => False
    end.
Proof.
  intros Hbody. induction l as [|a l IH]; intros m1 m2 Hm; simpl; [exact Hm|].
  specialize (Hbody a m1 m2 Hm).
  destruct (body a m1) as [t1|e1], (body a m2) as [t2|e2]; simpl;
    try contradiction; [apply IH; exact Hbody | exact Hbody].
Qed.

Lemma addConstr_same_constraints m1 m2 lhs s rhs name :
  same_constraints m1 m2 ->
  match addConstr m1 lhs s rhs name, addConstr m2 lhs s rhs name with
  | Ok t1, Ok t2 => same_constraints t1 t2
  | Raise e1, Raise e2 => e1 = e2
  | _, _ => False
  end.
Proof.
  intros (Hv & Hs & Hc). unfold same_constraints. simpl. rewrite Hc. auto.
Qed.

Lemma add_one_group_constrs_same_constraints g N K m1 m2 :
  same_constraints m1 m2 ->
  match add_one_group_constrs g N K m1, add_one_group_constrs g N K m2 with
  | Ok t1, Ok t2 => same_constraints t1 t2
  | Raise e1, Raise e2 => e1 = e2
  | _, _ => False
  end.
Proof.
  unfold add_one_group_constrs. apply for_each_same_constraints.
  clear m1 m2. intros i m1 m2 Hm.
  destruct (for_each (range K) _ (PNum 0)) as [su|e]; simpl; [|reflexivity].
  apply addConstr_same_constraints. exact Hm.
Qed.

Lemma add_size_constrs_same_constraints g N K min_size max_size m1 m2 :
  same_constraints m1 m2 ->
  match add_size_constrs g N K min_size max_size m1,
        add_size_constrs g N K min_size max_size m2 with
  | Ok t1, Ok t2 => same_constraints t1 t2
  | Raise e1, Raise e2 => e1 = e2
  | _, _ => False
  end.
Proof.
  unfold add_size_constrs. apply for_each_same_constraints.
  clear m1 m2. intros j m1 m2 Hm.
  destruct (for_each (range N) _ (PNum 0)) as [su|e]; simpl; [|reflexivity].
  destruct min_size as [lo|].
  - pose proof (addConstr_same_constraints m1 m2 su GreaterEqual (inject_Z lo)
                  min_league_size Hm) as Hmin.
    destruct (addConstr m1 su GreaterEqual (inject_Z lo) min_league_size)
      as [t1|e1],
      (addConstr m2 su GreaterEqual (inject_Z lo) min_league_size) as [t2|e2];
      simpl; try contradiction; [|exact Hmin].
    destruct max_size as [hi|]; [|exact Hmin].
    apply addConstr_same_constraints. exact Hmin.
  - simpl. destruct max_size as [hi|]; [|exact Hm].
    apply addConstr_same_constraints. exact Hm.
Qed.

Lemma build_model_same_constraints A B K min_size max_size gA mA gB mB :
  length A = length B ->
  build_model A K min_size max_size = Ok (gA, mA) ->
  build_model B K min_size max_size = Ok (gB, mB) ->
  gA = gB /\ same_constraints mA mB.
Proof.
  intros Hlen HA HB. unfold build_model in HA, HB. rewrite <- Hlen in HB.
  destruct (add_vars (length A) new_model) as [g m0].
  destruct (build_objective A g (length A) K) as [objA|]; [|discriminate].
  destruct (build_objective B g (length A) K) as [objB|]; [|discriminate].
  cbn [rbind] in HA, HB.
  assert (H0 : same_constraints (setObjective m0 objA MAXIMIZE)
                                (setObjective m0 objB MAXIMIZE))
    by (unfold same_constraints; simpl; auto).
  pose proof (add_one_group_constrs_same_constraints g (length A) K _ _ H0) as H1.
  destruct (add_one_group_constrs g (length A) K (setObjective m0 objA MAXIMIZE))
    as [a2|]; [|discriminate].
  destruct (add_one_group_constrs g (length A) K (setObjective m0 objB MAXIMIZE))
    as [b2|]; [|discriminate].
  cbn [rbind] in HA, HB.
  pose proof (add_size_constrs_same_constraints g (length A) K min_size max_size
                _ _ H1) as H2.
  destruct (add_size_constrs g (length A) K min_size max_size a2) as [a3|];
    [|discriminate].
  destruct (add_size_constrs g (length A) K min_size max_size b2) as [b3|];
    [|discriminate].
  cbn [rbind] in HA, HB.
  injection HA as <- <-. injection HB as <- <-. split; [reflexivity | exact H2].
Qed.

Lemma same_constraints_feasible m1 m2 x :
  same_constraints m1 m2 -> feasible m1 x = feasible m2 x.
Proof. intros (Hv & _ & Hc). unfold feasible. rewrite Hv, Hc. reflexivity. Qed.

Lemma round_trip_sums A B i j :
  cost A i j + cost A j i == cost B i j + cost B j i ->
  2 * cost A i j + 2 * cost A j i == 2 * cost B i j + 2 * cost B j i.
Proof.
  intros E. transitivity (2 * (cost A i j + cost A j i)); [ring|].
  rewrite E. ring.
Qed.

Lemma round_trip_objective_sums A B K x :
  length A = length B ->
  (forall i j, (i < j < length A)%nat ->
     cost A i j + cost A j i == cost B i j + cost B j i) ->
  round_trip_objective A K x == round_trip_objective B K x.
Proof.
  intros Hlen E. unfold round_trip_objective. rewrite <- Hlen.
  apply sum_pairs_ext. intros i j Hij.
  rewrite (round_trip_sums A B i j (E i j Hij)). reflexivity.
Qed.

Lemma brute_force_cost_sums A B t2g :
  length t2g = length A ->
  (forall i j, (i < j < length A)%nat ->
     cost A i j + cost A j i == cost B i j + cost B j i) ->
  brute_force_cost A t2g == brute_force_cost B t2g.
Proof.
  intros Hlen E. unfold brute_force_cost. rewrite Hlen.
  apply sum_pairs_ext. intros i j Hij.
  destruct (same_group t2g i j); [|reflexivity].
  apply round_trip_sums, E, Hij.
Qed.

(** X21: the call depends on the matrix only through the round-trip sums
    [matrix[i][j] + matrix[j][i]] of the pairs i < j: two square matrices
    with the same sums give models with the same variables and constraints
    and objectives of equal value everywhere, and, for the same raw
    values, the same outcome: the same assignment with equal totals, or
    the failed assertion. *)
Theorem only_round_trip_sums_matter
    solverA solverB A B K min_size max_size callsA callsB gA mA gB mB sol :
  square A -> square B -> length A = length B ->
  (1 <= K <= length A)%nat ->
  (forall i j, (i < j < length A)%nat ->
     cost A i j + cost A j i == cost B i j + cost B j i) ->
  build_model A K min_size max_size = Ok (gA, mA) ->
  build_model B K min_size max_size = Ok (gB, mB) ->
  solverA mA = Some sol -> solverB mB = Some sol ->
  same_constraints mA mB /\
  (forall x, feasible mA x = feasible mB x) /\
  (forall x, peval x (m_objective mA) == peval x (m_objective mB)) /\
  ((exists t2g totalA totalB,
      optimize_ab solverA A K min_size max_size callsA
        = (Ok (t2g, totalA), callsA ++ [mA]) /\
      optimize_ab solverB B K min_size max_size callsB
        = (Ok (t2g, totalB), callsB ++ [mB]) /\
      totalA == totalB) \/
   (optimize_ab solverA A K min_size max_size callsA
      = (Raise AssertionError, callsA ++ [mA]) /\
    optimize_ab solverB B K min_size max_size callsB
      = (Raise AssertionError, callsB ++ [mB]))).
Proof.
  intros HsqA HsqB Hlen HK E HA HB HsA HsB.
  destruct (build_model_same_constraints A B K min_size max_size gA mA gB mB
              Hlen HA HB) as [_ Hsame].
  split; [exact Hsame|].
  split; [intros x; apply same_constraints_feasible; exact Hsame|].
  split.
  - intros x.
    destruct (build_model_spec A K min_size max_size HsqA HK)
      as (g1 & m1 & H1 & S1).
    destruct (build_model_spec B K min_size max_size HsqB ltac:(lia))
      as (g2 & m2 & H2 & S2).
    rewrite HA in H1. injection H1 as <- <-.
    rewrite HB in H2. injection H2 as <- <-.
    rewrite (ms_objective _ _ _ _ _ _ S1 x), (ms_objective _ _ _ _ _ _ S2 x).
    apply round_trip_objective_sums; assumption.
  - destruct (optimize_ab_cases solverA A K min_size max_size callsA gA mA sol
                ltac:(lia) HA HsA)
      as [(UA & tA & totA & RA & LA & TA & EA)|(AA & RA)];
    destruct (optimize_ab_cases solverB B K min_size max_size callsB gB mB sol
                ltac:(lia) HB HsB)
      as [(UB & tB & totB & RB & LB & TB & EB)|(AB & RB)].
    + left. assert (Et : tA = tB).
      { apply list_eq_same_length with (length A); [lia | exact LA |].
        intros i x y Hi Hx Hy. rewrite (TA i Hi) in Hx.
        rewrite (TB i ltac:(lia)) in Hy. congruence. }
      subst tB.
      exists tA, totA, totB. split; [exact RA|]. split; [exact RB|].
      rewrite EA, EB. apply brute_force_cost_sums; assumption.
    + exfalso. rewrite <- Hlen in AB.
      exact (unambiguous_not_ambiguous sol (length A) K UA AB).
    + exfalso. rewrite <- Hlen in UB.
      exact (unambiguous_not_ambiguous sol (length A) K UB AA).
    + right. split; assumption.
Qed.

Lemma only_round_trip_sums_matter_witness :
  square one_way_teams /\ square both_ways_teams /\
  length one_way_teams = length both_ways_teams /\
  (1 <= 2 <= length one_way_teams)%nat /\
  (forall i j, (i < j < length one_way_teams)%nat ->
     cost one_way_teams i j + cost one_way_teams j i
     == cost both_ways_teams i j + cost both_ways_teams j i) /\
  build_model one_way_teams 2 None None
    = Ok (fst (built one_way_teams 2 None None),
          snd (built one_way_teams 2 None None)) /\
  build_model both_ways_teams 2 None None
    = Ok (fst (built both_ways_teams 2 None None),
          snd (built both_ways_teams 2 None None)) /\
  (fun _ : model => Some all_in_group_0) (snd (built one_way_teams 2 None None))
    = Some all_in_group_0 /\
  (fun _ : model => Some all_in_group_0) (snd (built both_ways_teams 2 None None))
    = Some all_in_group_0 /\
  ((exists t2g totalA totalB,
      optimize_ab (fun _ => Some all_in_group_0) one_way_teams 2 None None []
        = (Ok (t2g, totalA), [] ++ [snd (built one_way_teams 2 None None)]) /\
      optimize_ab (fun _ => Some all_in_group_0) both_ways_teams 2 None None []
        = (Ok (t2g, totalB), [] ++ [snd (built both_ways_teams 2 None None)]) /\
      totalA == totalB) \/
   (optimize_ab (fun _ => Some all_in_group_0) one_way_teams 2 None None []
      = (Raise AssertionError, [] ++ [snd (built one_way_teams 2 None None)]) /\
    optimize_ab (fun _ => Some all_in_group_0) both_ways_teams 2 None None []
      = (Raise AssertionError, [] ++ [snd (built both_ways_teams 2 None None)]))).
Proof.
  assert (HsqA : square one_way_teams) by (repeat constructor).
  assert (HsqB : square both_ways_teams) by (repeat constructor).
  assert (HK : (1 <= 2 <= length one_way_teams)%nat) by (simpl; lia).
  assert (E : forall i j, (i < j < length one_way_teams)%nat ->
     cost one_way_teams i j + cost one_way_teams j i
     == cost both_ways_teams i j + cost both_ways_teams j i).
  { intros i j Hij. simpl in Hij.
    assert (i = 0 /\ j = 1)%nat as [-> ->] by lia. reflexivity. }
  assert (HA : build_model one_way_teams 2 None None
    = Ok (fst (built one_way_teams 2 None None),
          snd (built one_way_teams 2 None None)))
    by (vm_compute; reflexivity).
  assert (HB : build_model both_ways_teams 2 None None
    = Ok (fst (built both_ways_teams 2 None None),
          snd (built both_ways_teams 2 None None)))
    by (vm_compute; reflexivity).
  split; [exact HsqA|]. split; [exact HsqB|]. split; [reflexivity|].
  split; [exact HK|]. split; [exact E|]. split; [exact HA|]. split; [exact HB|].
  split; [reflexivity|]. split; [reflexivity|].
  exact (proj2 (proj2 (proj2
    (only_round_trip_sums_matter
       (fun _ => Some all_in_group_0) (fun _ => Some all_in_group_0)
       one_way_teams both_ways_teams 2 None None [] []
       (fst (built one_way_teams 2 None None))
       (snd (built one_way_teams 2 None None))
       (fst (built both_ways_teams 2 None None))
       (snd (built both_ways_teams 2 None None))
       all_in_group_0 HsqA HsqB eq_refl HK E HA HB eq_refl eq_refl)))).
Defined.
